(** * Mython interpreter: lexer, runtime object model and AST evaluator

    A shallow embedding of [lexer.h]/[lexer.cpp], [runtime.h]/[runtime.cpp]
    and [statement.h]/[statement.cpp].  C++ exceptions, the [throw] of an
    [ObjectHolder] used for [return], and undefined behaviour (null
    dereference, integer division by zero, reads of indeterminate values)
    are explicit outcomes. *)

From Stdlib Require Import ZArith Ascii String.
From stdpp Require Import base gmap strings list pretty.

Local Open Scope Z_scope.

(** ** Characters used by the lexer *)

Definition LF : ascii := "010"%char.
Definition TAB : ascii := "009"%char.
Definition SPACE : ascii := " "%char.
Definition HASH : ascii := "#"%char.
Definition BACKSLASH : ascii := "\"%char.
Definition QUOTE : ascii := "'"%char.
Definition DQUOTE : ascii := "034"%char.

(** [std::string::push_back] *)
Fixpoint push_back (s : string) (c : ascii) : string :=
  match s with
  | EmptyString => String c EmptyString
  | String d s' => String d (push_back s' c)
  end.

(** ** [std::istream] over an in-memory buffer

    [consumed] holds the characters already extracted, most recent first,
    so that [unget] can put them back; [pending] is the unread input.
    [failbit] stands for [fail()], that is failbit or badbit: the lexer
    never calls [clear()], so a failed stream stays failed. *)

Record istream := mk_istream {
  consumed : list ascii;
  pending : list ascii;
  eofbit : bool;
  failbit : bool
}.

Definition istringstream (text : list ascii) : istream :=
  mk_istream [] text false false.

Definition good (s : istream) : bool := negb (eofbit s || failbit s).

(** [input_.get(c)]: the character read, if any.  When nothing can be
    read the target character is left unmodified and eofbit and failbit
    are set; a stream that is not [good()] only gets failbit. *)
Definition get (s : istream) : option ascii * istream :=
  if good s then
    match pending s with
    | [] => (None, mk_istream (consumed s) [] true true)
    | c :: p => (Some c, mk_istream (c :: consumed s) p false false)
    end
  else (None, mk_istream (consumed s) (pending s) (eofbit s) true).

(** [input_.unget()]: clears eofbit first; on a failed stream it does
    nothing else; with nothing to put back the stream goes bad. *)
Definition unget (s : istream) : istream :=
  if failbit s then mk_istream (consumed s) (pending s) false true
  else
    match consumed s with
    | [] => mk_istream [] (pending s) false true
    | c :: cs => mk_istream cs (c :: pending s) false false
    end.

(** Characters of the first line of [l], the rest after the line
    terminator, and whether a terminator was found. *)
Fixpoint split_line (l : list ascii) : list ascii * list ascii * bool :=
  match l with
  | [] => ([], [], false)
  | c :: l' =>
      if Ascii.eqb c LF then ([], l', true)
      else let '(line, rest, found) := split_line l' in (c :: line, rest, found)
  end.

(** [getline(input_, line_)]: the text read is never used by the lexer,
    only the effect on the stream is kept. *)
Definition getline (s : istream) : istream :=
  if good s then
    match pending s with
    | [] => mk_istream (consumed s) [] true true
    | _ =>
        let '(line, rest, found) := split_line (pending s) in
        mk_istream
          (rev_append (if found then line ++ [LF] else line) (consumed s))
          rest (negb found) false
    end
  else mk_istream (consumed s) (pending s) (eofbit s) true.

Module token_type.

Inductive Token : Type :=
| Number (value : Z)
| Id (value : string)
| Char (value : ascii)
| String (value : string)
| Class | Return | If | Else | Def | Newline | Print | Indent | Dedent
| And | Or | Not | Eq | NotEq | LessOrEq | GreaterOrEq
| None | True | False | Eof.

(** The alternatives of the variant that carry a [value] member: the
    only ones the two-argument [Expect<T>(value)] compiles for. *)
Inductive Valued : Type := VNumber | VId | VChar | VString.

Definition value_type (T : Valued) : Type :=
  match T with
  | VNumber => Z
  | VId => string
  | VChar => ascii
  | VString => string
  end.

(** [token.TryAs<T>()] followed by [->value]. *)
Definition TryAs (T : Valued) (t : Token) : option (value_type T) :=
  match T, t with
  | VNumber, Number v => Some v
  | VId, Id v => Some v
  | VChar, Char v => Some v
  | VString, String v => Some v
  | _, _ => Datatypes.None
  end.

Definition Is (T : Valued) (t : Token) : bool :=
  match TryAs T t with Some _ => true | Datatypes.None => false end.

Definition value_eqb (T : Valued) : value_type T -> value_type T -> bool :=
  match T with
  | VNumber => Z.eqb
  | VId => String.eqb
  | VChar => Ascii.eqb
  | VString => String.eqb
  end.

Definition IsNewline (t : Token) : bool :=
  match t with Newline => true | _ => false end.
Definition IsEof (t : Token) : bool :=
  match t with Eof => true | _ => false end.
Definition IsDedent (t : Token) : bool :=
  match t with Dedent => true | _ => false end.

End token_type.

Module parse.

Import token_type.



(** What leaves a lexer call other than a value: [LexerError], the
    [std::out_of_range] of [vector::at] and [stoi], the
    [std::invalid_argument] of [stoi], and undefined behaviour.
    [loop_bound_exceeded] is not an outcome of the program: it marks a
    loop of the model stopped by its bound, which [loop_bound] rules
    out. *)
Inductive failure : Type :=
| LexerError (what : string)
| out_of_range
| invalid_argument
| undefined_behaviour
| loop_bound_exceeded.

Record Lexer := mk_Lexer {
  c_ : ascii;
  input_ : istream;
  doc_ : list Token;
  last_indent_ : Z;
  dedent_chain_ : bool
}.

Inductive result (A : Type) : Type :=
| Ok (a : A) (lx : Lexer)
| Throw (e : failure).
Arguments Ok {A} a lx.
Arguments Throw {A} e.

Definition set_c (c : ascii) (lx : Lexer) : Lexer :=
  mk_Lexer c (input_ lx) (doc_ lx) (last_indent_ lx) (dedent_chain_ lx).
Definition set_input (s : istream) (lx : Lexer) : Lexer :=
  mk_Lexer (c_ lx) s (doc_ lx) (last_indent_ lx) (dedent_chain_ lx).
Definition set_last_indent (n : Z) (lx : Lexer) : Lexer :=
  mk_Lexer (c_ lx) (input_ lx) (doc_ lx) n (dedent_chain_ lx).
Definition set_dedent_chain (b : bool) (lx : Lexer) : Lexer :=
  mk_Lexer (c_ lx) (input_ lx) (doc_ lx) (last_indent_ lx) b.

(** [doc_.emplace_back(t)] *)
Definition emplace_back (t : Token) (lx : Lexer) : Lexer :=
  mk_Lexer (c_ lx) (input_ lx) (doc_ lx ++ [t]) (last_indent_ lx)
           (dedent_chain_ lx).

(** [input_.get(c_)]: [true] when a character was stored in [c_]. *)
Definition get_c (lx : Lexer) : bool * Lexer :=
  match get (input_ lx) with
  | (Some c, s) => (true, set_input s (set_c c lx))
  | (Datatypes.None, s) => (false, set_input s lx)
  end.

Definition do_unget (lx : Lexer) : Lexer := set_input (unget (input_ lx)) lx.

(** [doc_.at(doc_.size() - 1)]: on an empty vector the index wraps
    around and [at] throws [std::out_of_range]. *)
Definition back (lx : Lexer) : result Token :=
  match last (doc_ lx) with
  | Some t => Ok t lx
  | Datatypes.None => Throw out_of_range
  end.

Definition CurrentToken (lx : Lexer) : result Token := back lx.

(** Loops of the form [while (input_.get(c_))] consume one character
    per iteration, so the number of unread characters plus one bounds
    the iterations. *)
Definition loop_bound (lx : Lexer) : nat := S (length (pending (input_ lx))).

Fixpoint RemoveSpaces_loop (fuel : nat) (lx : Lexer) : Lexer :=
  match fuel with
  | O => lx
  | S fuel' =>
      match get_c lx with
      | (true, lx1) =>
          if negb (Ascii.eqb (c_ lx1) SPACE) then do_unget lx1
          else RemoveSpaces_loop fuel' lx1
      | (false, lx1) => lx1
      end
  end.

Definition RemoveSpaces (lx : Lexer) : Lexer :=
  RemoveSpaces_loop (loop_bound lx) lx.

Definition RemoveComment (lx : Lexer) : Lexer :=
  set_input (getline (input_ lx)) lx.

Fixpoint RemoveEmptyLines_loop (fuel : nat) (space_count : nat) (lx : Lexer)
  : Lexer :=
  match fuel with
  | O => lx
  | S fuel' =>
      match get_c lx with
      | (true, lx1) =>
          if Ascii.eqb (c_ lx1) HASH then
            RemoveEmptyLines_loop fuel' space_count (RemoveComment lx1)
          else if negb (Ascii.eqb (c_ lx1) SPACE)
                  && negb (Ascii.eqb (c_ lx1) LF) then
            Nat.iter (S space_count) do_unget lx1
          else if Ascii.eqb (c_ lx1) LF then
            RemoveEmptyLines_loop fuel' O lx1
          else RemoveEmptyLines_loop fuel' (S space_count) lx1
      | (false, lx1) => lx1
      end
  end.

Definition RemoveEmptyLines (lx : Lexer) : Lexer :=
  RemoveEmptyLines_loop (loop_bound lx) O lx.

Definition lang_chars : list ascii :=
  ["."; ","; "("; ")"; "*"; "/"; "+"; "-"; ":"; ";"]%char.
Definition marks_chars : list ascii :=
  [","; "("; ")"; "*"; "/"; "+"; "-"; ":"; ";"]%char.

(** [set.count(c) > 0] *)
Definition count (s : list ascii) (c : ascii) : bool :=
  existsb (Ascii.eqb c) s.

Definition code (c : ascii) : Z := Z.of_nat (nat_of_ascii c).

Definition isdigit (c : ascii) : bool := (48 <=? code c) && (code c <=? 57).

Definition is_id_start (c : ascii) : bool :=
  (code c =? 95) || ((64 <? code c) && (code c <? 91))
  || ((96 <? code c) && (code c <? 123)).

Definition is_separator (c : ascii) : bool :=
  Ascii.eqb c SPACE || Ascii.eqb c HASH || Ascii.eqb c LF.

(** Returns the token just appended, as [return doc_.at(doc_.size() - 1)]
    does after an [emplace_back]. *)
Definition emit (t : Token) (lx : Lexer) : result Token :=
  Ok t (emplace_back t lx).

Definition GetEqLexeme (lx : Lexer) : result Token :=
  match get (input_ lx) with
  | (Some next_c, s) =>
      let lx1 := set_input s lx in
      if Ascii.eqb next_c "="%char then
        let lx2 :=
          if Ascii.eqb (c_ lx) "="%char then emplace_back Eq lx1
          else if Ascii.eqb (c_ lx) "!"%char then emplace_back NotEq lx1
          else if Ascii.eqb (c_ lx) "<"%char then emplace_back LessOrEq lx1
          else if Ascii.eqb (c_ lx) ">"%char then emplace_back GreaterOrEq lx1
          else lx1 in
        back (RemoveSpaces lx2)
      else
        back (RemoveSpaces (emplace_back (Char (c_ lx)) (do_unget lx1)))
  | (Datatypes.None, _) =>
      (* [next_c] is read uninitialised *)
      Throw undefined_behaviour
  end.

Definition GetCharLexeme (lx : Lexer) : result Token :=
  back (RemoveSpaces (emplace_back (Char (c_ lx)) lx)).

Fixpoint GetStringLexeme_loop (fuel : nat) (end_marker : ascii)
         (string_lexeme : string) (lx : Lexer) : result Token :=
  match fuel with
  | O => Throw loop_bound_exceeded
  | S fuel' =>
      match get_c lx with
      | (true, lx1) =>
          if negb (Ascii.eqb (c_ lx1) end_marker) then
            if Ascii.eqb (c_ lx1) BACKSLASH then
              let lx2 := snd (get_c lx1) in
              let lx3 :=
                if Ascii.eqb (c_ lx2) "n"%char then set_c LF lx2
                else if Ascii.eqb (c_ lx2) "t"%char then set_c TAB lx2
                else lx2 in
              GetStringLexeme_loop fuel' end_marker
                (push_back string_lexeme (c_ lx3)) lx3
            else
              GetStringLexeme_loop fuel' end_marker
                (push_back string_lexeme (c_ lx1)) lx1
          else if Ascii.eqb (c_ lx1) LF then
            Throw (LexerError "GetStringLexeme(): Wrong string format")
          else
            back (RemoveSpaces (emplace_back (String string_lexeme) lx1))
      | (false, _) =>
          Throw (LexerError "GetStringLexeme(): Wrong string format")
      end
  end.

Definition GetStringLexeme (lx : Lexer) : result Token :=
  GetStringLexeme_loop (loop_bound lx) (c_ lx) EmptyString lx.

Definition INT_MAX : Z := 2147483647.
Definition INT_MIN : Z := -2147483648.

(** The value of a run of decimal digits, most significant first. *)
Fixpoint digits_value (acc : Z) (s : string) : Z :=
  match s with
  | EmptyString => acc
  | String.String d s' => digits_value (10 * acc + (code d - 48)) s'
  end.

(** [isspace] in the C locale: space, and tab to carriage return. *)
Definition isspace (c : ascii) : bool :=
  (code c =? 32) || ((9 <=? code c) && (code c <=? 13)).

Fixpoint skip_isspace (s : string) : string :=
  match s with
  | String.String c s' => if isspace c then skip_isspace s' else s
  | EmptyString => EmptyString
  end.

(** The digits a string starts with. *)
Fixpoint leading_digits (s : string) : string :=
  match s with
  | String.String d s' =>
      if isdigit d then String.String d (leading_digits s') else EmptyString
  | EmptyString => EmptyString
  end.

(** [std::stoi(s)], base 10, as [strtol] reads: white space is skipped,
    then an optional sign and the digits that follow are taken, what
    comes after them is ignored.  No digit there makes it throw
    [std::invalid_argument]; a value that does not fit [int],
    [std::out_of_range]. *)
Definition stoi (s : string) : failure + Z :=
  let s1 := skip_isspace s in
  let '(negative, s2) :=
    match s1 with
    | String.String c s' =>
        if Ascii.eqb c "-" then (true, s')
        else if Ascii.eqb c "+" then (false, s')
        else (false, s1)
    | EmptyString => (false, s1)
    end in
  match leading_digits s2 with
  | EmptyString => inl invalid_argument
  | ds =>
      let v := if negative then - digits_value 0 ds else digits_value 0 ds in
      if (INT_MIN <=? v) && (v <=? INT_MAX) then inr v else inl out_of_range
  end.

Fixpoint GetNumberLexeme_loop (fuel : nat) (number_lexeme : string)
         (lx : Lexer) : result string :=
  match fuel with
  | O => Throw loop_bound_exceeded
  | S fuel' =>
      match get_c lx with
      | (true, lx1) =>
          if negb (is_separator (c_ lx1)) && negb (count marks_chars (c_ lx1))
          then
            if isdigit (c_ lx1) then
              GetNumberLexeme_loop fuel' (push_back number_lexeme (c_ lx1)) lx1
            else Throw (LexerError "GetNumberLexeme(): Wrong number format")
          else Ok number_lexeme lx1
      | (false, lx1) => Ok number_lexeme lx1
      end
  end.

Definition GetNumberLexeme (lx : Lexer) : result Token :=
  match GetNumberLexeme_loop (loop_bound lx) (String.String (c_ lx) EmptyString) lx
  with
  | Ok number_lexeme lx1 =>
      match stoi number_lexeme with
      | inr v => back (RemoveSpaces (emplace_back (Number v) (do_unget lx1)))
      | inl e => Throw e
      end
  | Throw e => Throw e
  end.

Fixpoint GetIdOrKeyLexeme_loop (fuel : nat) (str_lexeme : string)
         (lx : Lexer) : string * Lexer :=
  match fuel with
  | O => (str_lexeme, lx)
  | S fuel' =>
      match get_c lx with
      | (true, lx1) =>
          if negb (is_separator (c_ lx1)) && negb (count lang_chars (c_ lx1))
          then GetIdOrKeyLexeme_loop fuel' (push_back str_lexeme (c_ lx1)) lx1
          else (str_lexeme, do_unget lx1)
      | (false, lx1) => (str_lexeme, lx1)
      end
  end.

Definition keyword (str_lexeme : string) : Token :=
  if String.eqb str_lexeme "class" then Class
  else if String.eqb str_lexeme "return" then Return
  else if String.eqb str_lexeme "if" then If
  else if String.eqb str_lexeme "else" then Else
  else if String.eqb str_lexeme "def" then Def
  else if String.eqb str_lexeme "print" then Print
  else if String.eqb str_lexeme "and" then And
  else if String.eqb str_lexeme "or" then Or
  else if String.eqb str_lexeme "not" then Not
  else if String.eqb str_lexeme "None" then token_type.None
  else if String.eqb str_lexeme "True" then token_type.True
  else if String.eqb str_lexeme "False" then token_type.False
  else Id str_lexeme.

Definition GetIdOrKeyLexeme (lx : Lexer) : result Token :=
  let '(str_lexeme, lx1) :=
    GetIdOrKeyLexeme_loop (loop_bound lx) (String.String (c_ lx) EmptyString) lx in
  back (RemoveSpaces (emplace_back (keyword str_lexeme) lx1)).

(** [int indent_count = 1]: the caller has already read one space. *)
Fixpoint IsIndentLexeme_loop (fuel : nat) (indent_count : Z) (lx : Lexer)
  : bool * Lexer :=
  match fuel with
  | O => (false, lx)
  | S fuel' =>
      match get_c lx with
      | (true, lx1) =>
          if Ascii.eqb (c_ lx1) SPACE then
            let indent_count := indent_count + 1 in
            if indent_count ÷ 2 - 1 =? last_indent_ lx1 then
              (true,
               emplace_back Indent
                 (set_last_indent (last_indent_ lx1 + 1) lx1))
            else IsIndentLexeme_loop fuel' indent_count lx1
          else if indent_count ÷ 2 =? last_indent_ lx1 then (false, lx1)
          else
            let lx2 :=
              if negb (indent_count ÷ 2 + 1 =? last_indent_ lx1)
              then Nat.iter 2 do_unget lx1 else lx1 in
            let lx3 := do_unget lx2 in
            (true,
             emplace_back Dedent
               (set_last_indent (last_indent_ lx3 - 1) lx3))
      | (false, lx1) => (false, lx1)
      end
  end.

Definition IsIndentLexeme (lx : Lexer) : bool * Lexer :=
  IsIndentLexeme_loop (loop_bound lx) 1 lx.

Definition ParseNextToken_dispatch (lx : Lexer) : result Token :=
  let c := c_ lx in
  if Ascii.eqb c "="%char || Ascii.eqb c "!"%char || Ascii.eqb c "<"%char
     || Ascii.eqb c ">"%char then GetEqLexeme lx
  else if count lang_chars c then GetCharLexeme lx
  else if Ascii.eqb c QUOTE || Ascii.eqb c DQUOTE then GetStringLexeme lx
  else if isdigit c then GetNumberLexeme lx
  else if is_id_start c then GetIdOrKeyLexeme lx
  else if Ascii.eqb c SPACE then
    Throw (LexerError "ParseNextToken(): FLAG error-- ")
  else
    Throw (LexerError (push_back "ParseNextToken(): Unknown error-- " c)).

Definition ParseNextToken (lx : Lexer) : result Token :=
  if Ascii.eqb (c_ lx) HASH then
    let lx1 := RemoveComment lx in
    match CurrentToken lx1 with
    | Ok t _ =>
        if negb (IsNewline t) then emit Newline lx1
        else ParseNextToken_dispatch lx1
    | Throw e => Throw e
    end
  else if Ascii.eqb (c_ lx) LF then emit Newline lx
  else ParseNextToken_dispatch lx.

(** [CurrentToken().Is<token_type::Newline>()] *)
Definition current_is_newline (lx : Lexer) : result bool :=
  match CurrentToken lx with
  | Ok t _ => Ok (IsNewline t) lx
  | Throw e => Throw e
  end.

(** The branch of [NextToken] taken when [input_.get(c_)] fails. *)
Definition NextToken_exhausted (lx : Lexer) : result Token :=
  if 0 <? last_indent_ lx then
    emit Dedent (set_last_indent (last_indent_ lx - 1) lx)
  else
    match last (doc_ lx) with
    | Some t =>
        if negb (IsNewline t) && negb (IsEof t) && negb (IsDedent t)
        then emit Newline lx
        else if negb (IsEof t) then emit Eof lx
        else Ok t lx
    | Datatypes.None => emit Eof lx
    end.

Definition NextToken_parse (lx : Lexer) : result Token :=
  ParseNextToken (set_dedent_chain false lx).

Definition NextToken (lx : Lexer) : result Token :=
  let lx0 :=
    match last (doc_ lx) with
    | Datatypes.None => RemoveEmptyLines lx
    | Some t => if IsNewline t then RemoveEmptyLines lx else lx
    end in
  match get_c lx0 with
  | (true, lx1) =>
      if Ascii.eqb (c_ lx1) SPACE then
        match current_is_newline lx1 with
        | Throw e => Throw e
        | Ok true _ =>
            match IsIndentLexeme lx1 with
            | (true, lx2) => back lx2
            | (false, lx2) => NextToken_parse lx2
            end
        | Ok false _ => NextToken_parse lx1
        end
      else if 0 <? last_indent_ lx1 then
        match current_is_newline lx1 with
        | Throw e => Throw e
        | Ok is_newline _ =>
            if is_newline || dedent_chain_ lx1 then
              let lx2 := do_unget (set_dedent_chain true lx1) in
              emit Dedent (set_last_indent (last_indent_ lx2 - 1) lx2)
            else NextToken_parse lx1
        end
      else NextToken_parse lx1
  | (false, lx1) => NextToken_exhausted lx1
  end.

(** [Lexer::Lexer(std::istream&)]: the first token is parsed at once. *)
Definition new_Lexer (input : istream) : result Token :=
  NextToken (mk_Lexer "000"%char input [] 0 false).


(** [Expect<T>(value)] *)
Definition Expect_value (T : Valued) (value : value_type T) (lx : Lexer)
  : result unit :=
  match CurrentToken lx with
  | Ok t _ =>
      match TryAs T t with
      | Some v =>
          if negb (value_eqb T v value) then
            Throw (LexerError "Expect(): Wrong current token type or value")
          else Ok tt lx
      | Datatypes.None => Ok tt lx
      end
  | Throw e => Throw e
  end.


(** [ExpectNext<T>(value)] *)
Definition ExpectNext_value (T : Valued) (value : value_type T) (lx : Lexer)
  : result unit :=
  match NextToken lx with
  | Ok token lx1 =>
      match TryAs T token with
      | Some v =>
          if negb (value_eqb T v value) then
            Throw
              (LexerError "ExpectNext(): Wrong next token type or value")
          else Ok tt lx1
      | Datatypes.None => Ok tt lx1
      end
  | Throw e => Throw e
  end.

(** Driving the lexer as a parser does: construct it, then advance
    until [Eof] shows up; [doc_] then holds every token produced. *)
Fixpoint advance_to_eof (fuel : nat) (r : result Token) : result Token :=
  match r with
  | Throw e => Throw e
  | Ok t lx =>
      if IsEof t then Ok t lx
      else
        match fuel with
        | O => Throw loop_bound_exceeded
        | S fuel' => advance_to_eof fuel' (NextToken lx)
        end
  end.

Definition tokens_of (r : result Token) : option (list Token) :=
  match r with
  | Ok _ lx => Some (doc_ lx)
  | Throw _ => Datatypes.None
  end.

Definition lex (fuel : nat) (text : string) : result Token :=
  advance_to_eof fuel (new_Lexer (istringstream (list_ascii_of_string text))).

End parse.

(** ** Runtime object model ([runtime.h], [runtime.cpp]) and AST nodes
       ([statement.h]) *)

Module runtime.

(** The comparators of [runtime.h], the functions a [Comparison] node
    is built with. *)
Inductive Comparator : Type :=
| CmpEqual | CmpNotEqual | CmpLess | CmpGreater
| CmpLessOrEqual | CmpGreaterOrEqual.

(** [Object] and its subclasses, [Class], [Method] and the
    implementations of [Executable] (the node classes of namespace
    [ast]).  Numbers, strings, booleans and class descriptors are
    immutable and are held by value.  A [ClassInstance] is mutable and
    shared: it is identified by its address [self]; its field table
    lives in the state, its class reference [cls_] is fixed.  A
    [NewInstance] node owns one [ClassInstance] member, hence carries
    that instance's address and class. *)
Local Unset Elimination Schemes.

Inductive Object : Type :=
| Number (value : Z)
| String (value : string)
| Bool (value : bool)
| ClassObject (cls : Class)
| ClassInstance (self : nat) (cls_ : Class)
with Class : Type :=
| mk_Class (name_ : string) (methods_ : list Method) (parent_ : option Class)
with Method : Type :=
| mk_Method (name : string) (formal_params : list string) (body : Executable)
with Executable : Type :=
| NumericConst (value_ : Z)
| StringConst (value_ : string)
| BoolConst (value_ : bool)
| None_
| VariableValue (dotted_ids_ : list string)
| Assignment (var_ : string) (rv_ : Executable)
| FieldAssignment (object_ : list string) (field_name_ : string)
                  (rv_ : Executable)
| Print (args_ : list Executable)
| MethodCall (object_ : Executable) (method_ : string)
             (args_ : list Executable)
| NewInstance (class_instance_ : nat) (class_ : Class)
              (args_ : list Executable)
| Stringify (argument_ : Executable)
| Add (lhs_ rhs_ : Executable)
| Sub (lhs_ rhs_ : Executable)
| Mult (lhs_ rhs_ : Executable)
| Div (lhs_ rhs_ : Executable)
| Or (lhs_ rhs_ : Executable)
| And (lhs_ rhs_ : Executable)
| Not (argument_ : Executable)
| Comparison (cmp_ : Comparator) (lhs_ rhs_ : Executable)
| Compound (args_ : list Executable)
| MethodBody (body_ : Executable)
| Return (statement_ : Executable)
| ClassDefinition (cls_ : option Object)
| IfElse (condition_ if_body_ : Executable) (else_body_ : option Executable).

Local Set Elimination Schemes.

(** Empty ([None]) or referring to an object. *)
Abbreviation ObjectHolder := (option Object).

Definition Own (o : Object) : ObjectHolder := Some o.
Definition Share (o : Object) : ObjectHolder := Some o.

(** [std::unordered_map<std::string, ObjectHolder>] *)
Abbreviation Closure := (gmap string ObjectHolder).

(** What an evaluation can touch besides the closure it is given: the
    field tables of the class instances and the text written so far
    to the stream of the [Context].  [right_to_left_] is no part of
    the program's state: it records which of the two orders that C++
    allows for the evaluation of the arguments of a call the build at
    hand takes, and no evaluation changes it. *)
Record State := mk_State {
  fields_ : gmap nat Closure;
  output : string;
  right_to_left_ : bool
}.

(** [instance.Fields()] *)
Definition Fields (st : State) (self : nat) : Closure :=
  default ∅ (fields_ st !! self).

Definition set_field (self : nat) (field : string) (v : ObjectHolder)
           (st : State) : State :=
  mk_State (<[self := <[field := v]> (Fields st self)]> (fields_ st))
           (output st) (right_to_left_ st).

Definition write (text : string) (st : State) : State :=
  mk_State (fields_ st) (output st +:+ text) (right_to_left_ st).

(** How a call ends: with a value; by [throw] of an [ObjectHolder] (the
    [return] statement); by [throw] of a [std::runtime_error]; with
    undefined behaviour.  [OutOfFuel] is the model's bound on the depth
    of evaluation, not an outcome of the program. *)
Inductive Outcome (A : Type) : Type :=
| Normal (a : A)
| Returning (obj : ObjectHolder)
| runtime_error (what : string)
| Undefined
| OutOfFuel.
Arguments Normal {A} a.
Arguments Returning {A} obj.
Arguments runtime_error {A} what.
Arguments Undefined {A}.
Arguments OutOfFuel {A}.

(** An abrupt outcome carries no value and passes through unchanged. *)
Definition abrupt {A B : Type} (o : Outcome A) : Outcome B :=
  match o with
  | Normal _ => Undefined
  | Returning obj => Returning obj
  | runtime_error what => runtime_error what
  | Undefined => Undefined
  | OutOfFuel => OutOfFuel
  end.

Definition is_OutOfFuel {A : Type} (o : Outcome A) : bool :=
  match o with OutOfFuel => true | _ => false end.

Definition method_name (m : Method) : string :=
  match m with mk_Method n _ _ => n end.
Definition method_params (m : Method) : list string :=
  match m with mk_Method _ p _ => p end.
Definition method_body (m : Method) : Executable :=
  match m with mk_Method _ _ b => b end.

Definition class_name (c : Class) : string :=
  match c with mk_Class n _ _ => n end.
Definition class_methods (c : Class) : list Method :=
  match c with mk_Class _ ms _ => ms end.
Definition class_parent (c : Class) : option Class :=
  match c with mk_Class _ _ p => p end.

Definition find_method (name : string) (ms : list Method) : option Method :=
  List.find (fun m => String.eqb (method_name m) name) ms.

(** [Class::GetMethod]: the class's own methods first, then the
    parent's.  The constructor stores [this] in [parent_] when there is
    no parent; that sentinel is [None] here. *)
Fixpoint GetMethod (c : Class) (name : string) : option Method :=
  match c with
  | mk_Class _ ms p =>
      match find_method name ms with
      | Some m => Some m
      | None =>
          match p with
          | Some parent => GetMethod parent name
          | None => None
          end
      end
  end.

(** [ClassInstance::HasMethod] *)
Definition HasMethod (cls : Class) (method : string) (argument_count : nat)
  : bool :=
  match GetMethod cls method with
  | Some m => Nat.eqb (length (method_params m)) argument_count
  | None => false
  end.

(** The methods of a class and of its ancestors, nearest first. *)
Fixpoint all_methods (c : Class) : list Method :=
  match c with
  | mk_Class _ ms p =>
      ms ++ match p with
            | Some parent => all_methods parent
            | None => []
            end
  end.

(** The class, or an ancestor, declares a method of that name taking
    that many arguments. *)
Definition provides (cls : Class) (method : string) (argument_count : nat)
  : bool :=
  existsb
    (fun m => String.eqb (method_name m) method
              && Nat.eqb (length (method_params m)) argument_count)
    (all_methods cls).

(** [IsTrue] *)
Definition IsTrue (object : ObjectHolder) : bool :=
  match object with
  | Some (Number v) => negb (v =? 0)
  | Some (String s) => negb (String.eqb s EmptyString)
  | Some (Bool b) => b
  | _ => false
  end.

Definition INT_MAX : Z := 2147483647.
Definition INT_MIN : Z := -2147483648.
Definition in_int (z : Z) : bool := (INT_MIN <=? z) && (z <=? INT_MAX).

(** The result of an [int] operation: signed overflow is undefined. *)
Definition int_result (z : Z) : Outcome ObjectHolder :=
  if in_int z then Normal (Own (Number z)) else Undefined.

(** [operator[]] assignments of [Call]: formals bound positionally. *)
Fixpoint bind_params (formal_params : list string)
         (actual_args : list ObjectHolder) (args : Closure) : Closure :=
  match formal_params, actual_args with
  | p :: ps, a :: as_ => bind_params ps as_ (<[p := a]> args)
  | _, _ => args
  end.

(** The text [os << this] writes is implementation-defined; the
    address is rendered in decimal after [0x]. *)
Definition address_text (self : nat) : string := "0x" +:+ pretty self.

Section WithExecute.

(** The [Execute] the method bodies are run with. *)
Variable Execute :
  Executable -> Closure -> State -> Outcome ObjectHolder * Closure * State.

(** [ClassInstance::Call], on the instance at [self] of class [cls]. *)
Definition Call (self : nat) (cls : Class) (method : string)
           (actual_args : list ObjectHolder) (st : State)
  : Outcome ObjectHolder * State :=
  if HasMethod cls method (length actual_args) then
    match GetMethod cls method with
    | Some method_ptr =>
        let args :=
          bind_params (method_params method_ptr) actual_args
            (<["self" := Share (ClassInstance self cls)]> ∅) in
        let '(o, _, st') := Execute (method_body method_ptr) args st in
        (o, st')
    | None => (Undefined, st)
    end
  else (runtime_error "Not implemented", st).

(** [Object::Print(os, context)]: the outcome, the text written to
    [os], and the state (which [__str__] bodies may change).  Every
    write to [os] comes after all the work on the context. *)
Fixpoint Object_Print (depth : nat) (obj : Object) (st : State)
  : Outcome unit * string * State :=
  match obj with
  | Number v => (Normal tt, pretty v, st)
  | String s => (Normal tt, s, st)
  | Bool b => (Normal tt, if b then "True" else "False", st)
  | ClassObject c =>
      if String.eqb (class_name c) EmptyString
      then (runtime_error "Not implemented", "Class ", st)
      else (Normal tt, "Class " +:+ class_name c, st)
  | ClassInstance self cls =>
      if HasMethod cls "__str__" 0 then
        match depth with
        | O => (OutOfFuel, EmptyString, st)
        | S depth' =>
            match Call self cls "__str__" [] st with
            | (Normal (Some r), st') => Object_Print depth' r st'
            | (Normal None, st') => (Undefined, EmptyString, st')
            | (o, st') => (abrupt o, EmptyString, st')
            end
        end
      else (Normal tt, address_text self, st)
  end.

(** [Equal] *)
Definition Equal (lhs rhs : ObjectHolder) (st : State)
  : Outcome bool * State :=
  match lhs, rhs with
  | Some (Number a), Some (Number b) => (Normal (a =? b), st)
  | Some (String a), Some (String b) => (Normal (String.eqb a b), st)
  | Some (Bool a), Some (Bool b) => (Normal (Bool.eqb a b), st)
  | None, None => (Normal true, st)
  | Some (ClassInstance self cls), _ =>
      if HasMethod cls "__eq__" 1 then
        match Call self cls "__eq__" [rhs] st with
        | (Normal (Some (Bool b)), st') => (Normal b, st')
        | (Normal _, st') => (Undefined, st')
        | (o, st') => (abrupt o, st')
        end
      else (runtime_error "Cannot compare objects for equality", st)
  | _, _ => (runtime_error "Cannot compare objects for equality", st)
  end.

(** [Less] *)
Definition Less (lhs rhs : ObjectHolder) (st : State)
  : Outcome bool * State :=
  match lhs, rhs with
  | Some (Number a), Some (Number b) => (Normal (a <? b), st)
  | Some (String a), Some (String b) => (Normal (String.ltb a b), st)
  | Some (Bool a), Some (Bool b) => (Normal (negb a && b), st)
  | Some (ClassInstance self cls), _ =>
      if HasMethod cls "__lt__" 1 then
        match Call self cls "__lt__" [rhs] st with
        | (Normal (Some (Bool b)), st') => (Normal b, st')
        | (Normal _, st') => (Undefined, st')
        | (o, st') => (abrupt o, st')
        end
      else (runtime_error "Cannot compare objects for equality", st)
  | _, _ => (runtime_error "Cannot compare objects for equality", st)
  end.

(** [!f(lhs, rhs, context)] *)
Definition negate (r : Outcome bool * State) : Outcome bool * State :=
  match r with
  | (Normal b, st) => (Normal (negb b), st)
  | (o, st) => (o, st)
  end.

Definition NotEqual (lhs rhs : ObjectHolder) (st : State) :=
  negate (Equal lhs rhs st).

(** [!Less(lhs, rhs, context) && !Equal(lhs, rhs, context)] *)
Definition Greater (lhs rhs : ObjectHolder) (st : State)
  : Outcome bool * State :=
  match Less lhs rhs st with
  | (Normal true, st') => (Normal false, st')
  | (Normal false, st') => negate (Equal lhs rhs st')
  | (o, st') => (o, st')
  end.

Definition LessOrEqual (lhs rhs : ObjectHolder) (st : State) :=
  negate (Greater lhs rhs st).

Definition GreaterOrEqual (lhs rhs : ObjectHolder) (st : State) :=
  negate (Less lhs rhs st).

Definition compare (cmp : Comparator) :=
  match cmp with
  | CmpEqual => Equal
  | CmpNotEqual => NotEqual
  | CmpLess => Less
  | CmpGreater => Greater
  | CmpLessOrEqual => LessOrEqual
  | CmpGreaterOrEqual => GreaterOrEqual
  end.

End WithExecute.

End runtime.

(** ** The evaluator ([statement.cpp]) *)

Module ast.

Import runtime.

Abbreviation Statement := Executable.

(** Result of [Execute(closure, context)]: the outcome, the closure as
    the call leaves it, and the state. *)
Definition Result (A : Type) : Type := (Outcome A * Closure * State)%type.

(** Sequencing: an abrupt outcome of the first computation ends the
    whole, with the closure and the state as they are by then. *)
Definition bind {A B : Type} (r : Result A)
           (k : A -> Closure -> State -> Result B) : Result B :=
  match r with
  | (Normal a, closure, st) => k a closure st
  | (o, closure, st) => (abrupt o, closure, st)
  end.

Notation "'run' r 'as' x c s 'in' k" :=
  (bind r (fun x c s => k))
    (at level 10, r at level 100, x name, c name, s name, k at level 200,
     only parsing).

(** A runtime call that does not see the closure. *)
Definition lift {A : Type} (closure : Closure) (r : Outcome A * State)
  : Result A :=
  (fst r, closure, snd r).

Definition ADD_METHOD : string := "__add__".
Definition INIT_METHOD : string := "__init__".

Section Nodes.

(** [depth] bounds the chain of [__str__] calls of one [Print];
    [Execute] is the evaluator for the children and method bodies. *)
Variable depth : nat.
Variable Execute : Statement -> Closure -> State -> Result ObjectHolder.

(** [for (const auto& arg : args_) actual_args.push_back(arg->Execute(...))] *)
Fixpoint Execute_args (args : list Statement) (closure : Closure)
         (st : State) : Result (list ObjectHolder) :=
  match args with
  | [] => (Normal [], closure, st)
  | arg :: rest =>
      run Execute arg closure st as v closure st in
      run Execute_args rest closure st as vs closure st in
      (Normal (v :: vs), closure, st)
  end.

Definition Assignment_Execute (var_ : string) (rv_ : Statement)
           (closure : Closure) (st : State) : Result ObjectHolder :=
  run Execute rv_ closure st as v closure st in
  (Normal v, <[var_ := v]> closure, st).

(** The loop of [VariableValue::Execute]: [local_closer] is the table
    the next name is searched in, [found] the holder under
    [itr_runner]. *)
Fixpoint VariableValue_loop (dotted_ids : list string)
         (local_closer : Closure) (found : ObjectHolder) (st : State)
  : Outcome ObjectHolder :=
  match dotted_ids with
  | [] => Normal found
  | val :: rest =>
      match local_closer !! val with
      | None => runtime_error "runtime_error VariableValue::Execute()"
      | Some h =>
          match h with
          | Some (ClassInstance self _) =>
              VariableValue_loop rest (Fields st self) h st
          | _ => VariableValue_loop rest local_closer h st
          end
      end
  end.

(** With no name at all the result is [closure.begin()->second]: past
    the end for an empty closure, an unspecified entry otherwise. *)
Definition VariableValue_Execute (dotted_ids_ : list string)
           (closure : Closure) (st : State) : Result ObjectHolder :=
  match dotted_ids_ with
  | [] => (Undefined, closure, st)
  | _ => (VariableValue_loop dotted_ids_ closure None st, closure, st)
  end.

(** The loop of [Print::Execute]; [object_holder] is the last value. *)
Fixpoint Print_loop (args : list Statement) (first_flag : bool)
         (object_holder : ObjectHolder) (closure : Closure) (st : State)
  : Result ObjectHolder :=
  match args with
  | [] => (Normal object_holder, closure, write (String.String LF "") st)
  | arg :: rest =>
      let st := if first_flag then st else write " " st in
      run Execute arg closure st as v closure st in
      match v with
      | Some obj =>
          let '(o, text, st) := Object_Print Execute depth obj st in
          match o with
          | Normal _ => Print_loop rest false v closure (write text st)
          | _ => (abrupt o, closure, write text st)
          end
      | None => Print_loop rest false v closure (write "None" st)
      end
  end.

Definition Print_Execute (args_ : list Statement) (closure : Closure)
           (st : State) : Result ObjectHolder :=
  Print_loop args_ true None closure st.

(** The arguments first, then the object; calling through the null
    pointer of a failed [TryAs] is undefined. *)
Definition MethodCall_Execute (object_ : Statement) (method_ : string)
           (args_ : list Statement) (closure : Closure) (st : State)
  : Result ObjectHolder :=
  run Execute_args args_ closure st as actual_args closure st in
  run Execute object_ closure st as obj closure st in
  match obj with
  | Some (ClassInstance self cls) =>
      lift closure (Call Execute self cls method_ actual_args st)
  | _ => (Undefined, closure, st)
  end.

Definition Stringify_Execute (argument_ : Statement) (closure : Closure)
           (st : State) : Result ObjectHolder :=
  run Execute argument_ closure st as arg closure st in
  match arg with
  | None => (Normal (Own (String "None")), closure, st)
  | Some obj =>
      let '(o, for_print, st) := Object_Print Execute depth obj st in
      match o with
      | Normal _ => (Normal (Own (String for_print)), closure, st)
      | _ => (abrupt o, closure, st)
      end
  end.

(** [Add::Execute] runs [lhs_] three more times, and [rhs_] once
    more, on the way to [__add__]. *)
Definition Add_Execute (lhs_ rhs_ : Statement) (closure : Closure)
           (st : State) : Result ObjectHolder :=
  run Execute lhs_ closure st as obj_lhs closure st in
  run Execute rhs_ closure st as obj_rhs closure st in
  match obj_lhs, obj_rhs with
  | Some (Number a), Some (Number b) => (int_result (a + b), closure, st)
  | Some (String a), Some (String b) =>
      (Normal (Own (String (a +:+ b))), closure, st)
  | _, _ =>
      run Execute lhs_ closure st as l1 closure st in
      match l1 with
      | Some (ClassInstance _ _) =>
          run Execute lhs_ closure st as l2 closure st in
          match l2 with
          | Some (ClassInstance _ cls2) =>
              if HasMethod cls2 ADD_METHOD 1 then
                run Execute lhs_ closure st as l3 closure st in
                match l3 with
                | Some (ClassInstance self cls3) =>
                    run Execute rhs_ closure st as r closure st in
                    lift closure (Call Execute self cls3 ADD_METHOD [r] st)
                | _ => (Undefined, closure, st)
                end
              else
                (runtime_error "Execute(): ADD --runtime_error", closure, st)
          | _ => (Undefined, closure, st)
          end
      | _ => (runtime_error "Execute(): ADD --runtime_error", closure, st)
      end
  end.

Definition Sub_Execute (lhs_ rhs_ : Statement) (closure : Closure)
           (st : State) : Result ObjectHolder :=
  run Execute lhs_ closure st as obj_lhs closure st in
  run Execute rhs_ closure st as obj_rhs closure st in
  match obj_lhs, obj_rhs with
  | Some (Number a), Some (Number b) => (int_result (a - b), closure, st)
  | _, _ => (runtime_error "Execute(): SUB --runtime_error", closure, st)
  end.

Definition Mult_Execute (lhs_ rhs_ : Statement) (closure : Closure)
           (st : State) : Result ObjectHolder :=
  run Execute lhs_ closure st as obj_lhs closure st in
  run Execute rhs_ closure st as obj_rhs closure st in
  match obj_lhs, obj_rhs with
  | Some (Number a), Some (Number b) => (int_result (a * b), closure, st)
  | _, _ => (runtime_error "Execute(): MULT --runtime_error", closure, st)
  end.

(** [int / int]: undefined for a zero divisor and when the quotient
    is not representable; truncating otherwise. *)
Definition int_div (a b : Z) : Outcome ObjectHolder :=
  if b =? 0 then Undefined else int_result (a ÷ b).

(** The inner test of [Div::Execute] repeats half of the outer one,
    so its [else], the only place that reports a division by zero,
    is never taken. *)
Definition Div_Execute (lhs_ rhs_ : Statement) (closure : Closure)
           (st : State) : Result ObjectHolder :=
  run Execute lhs_ closure st as obj_lhs closure st in
  run Execute rhs_ closure st as obj_rhs closure st in
  match obj_lhs, obj_rhs with
  | Some (Number a), Some (Number b) =>
      match obj_rhs with
      | Some (Number _) => (int_div a b, closure, st)
      | _ =>
          (runtime_error "Execute(): DIV --runtime_error --division by zero",
           closure, st)
      end
  | _, _ => (runtime_error "Execute(): DIV --runtime_error", closure, st)
  end.

Fixpoint Compound_loop (args : list Statement) (closure : Closure)
         (st : State) : Result ObjectHolder :=
  match args with
  | [] => (Normal None, closure, st)
  | arg :: rest =>
      run Execute arg closure st as _ closure st in
      Compound_loop rest closure st
  end.

Definition Compound_Execute (args_ : list Statement) :=
  Compound_loop args_.

(** [throw statement_->Execute(closure, context)] *)
Definition Return_Execute (statement_ : Statement) (closure : Closure)
           (st : State) : Result ObjectHolder :=
  run Execute statement_ closure st as v closure st in
  (Returning v, closure, st).

(** The first statement moves [cls_] into the closure; the second
    then calls [GetName] through the null pointer that [TryAs] gives
    for the emptied holder. *)
Definition ClassDefinition_Execute (cls_ : ObjectHolder)
           (closure : Closure) (st : State) : Result ObjectHolder :=
  match cls_ with
  | Some (ClassObject c) =>
      if String.eqb (class_name c) EmptyString
      then (runtime_error "Not implemented", closure, st)
      else (Undefined, <[class_name c := cls_]> closure, st)
  | _ => (Undefined, closure, st)
  end.

(** The right-hand side of the assignment is evaluated first. *)
Definition FieldAssignment_Execute (object_ : list string)
           (field_name_ : string) (rv_ : Statement) (closure : Closure)
           (st : State) : Result ObjectHolder :=
  run Execute rv_ closure st as v closure st in
  run VariableValue_Execute object_ closure st as obj closure st in
  match obj with
  | Some (ClassInstance self _) =>
      (Normal v, closure, set_field self field_name_ v st)
  | _ => (Undefined, closure, st)
  end.

Definition IfElse_Execute (condition_ if_body_ : Statement)
           (else_body_ : option Statement) (closure : Closure)
           (st : State) : Result ObjectHolder :=
  run Execute condition_ closure st as c closure st in
  if IsTrue c then Execute if_body_ closure st
  else
    match else_body_ with
    | Some else_body => Execute else_body closure st
    | None => (Normal None, closure, st)
    end.

(** [IsTrue(lhs) || IsTrue(rhs)]: the built-in [||] does not evaluate
    its right operand when the left one is true. *)
Definition Or_Execute (lhs_ rhs_ : Statement) (closure : Closure)
           (st : State) : Result ObjectHolder :=
  run Execute lhs_ closure st as l closure st in
  if IsTrue l then (Normal (Own (Bool true)), closure, st)
  else
    run Execute rhs_ closure st as r closure st in
    if IsTrue r then (Normal (Own (Bool true)), closure, st)
    else (Normal (Own (Bool false)), closure, st).

(** [IsTrue(lhs) && IsTrue(rhs)]: no right operand after a false
    left one. *)
Definition And_Execute (lhs_ rhs_ : Statement) (closure : Closure)
           (st : State) : Result ObjectHolder :=
  run Execute lhs_ closure st as l closure st in
  if IsTrue l then
    run Execute rhs_ closure st as r closure st in
    if IsTrue r then (Normal (Own (Bool true)), closure, st)
    else (Normal (Own (Bool false)), closure, st)
  else (Normal (Own (Bool false)), closure, st).

Definition Not_Execute (argument_ : Statement) (closure : Closure)
           (st : State) : Result ObjectHolder :=
  run Execute argument_ closure st as v closure st in
  (Normal (Own (Bool (negb (IsTrue v)))), closure, st).

(** [cmp_(lhs_->Execute(...), rhs_->Execute(...), context)]: the two
    operands are arguments of one call, and the order in which a call
    evaluates its arguments is unspecified in C++.  Both orders are
    kept: the one the build takes is read from [right_to_left_]. *)
Definition Comparison_Execute (cmp_ : Comparator) (lhs_ rhs_ : Statement)
           (closure : Closure) (st : State) : Result ObjectHolder :=
  if right_to_left_ st then
    run Execute rhs_ closure st as r closure st in
    run Execute lhs_ closure st as l closure st in
    run lift closure (compare Execute cmp_ l r st) as result closure st in
    (Normal (Own (Bool result)), closure, st)
  else
    run Execute lhs_ closure st as l closure st in
    run Execute rhs_ closure st as r closure st in
    run lift closure (compare Execute cmp_ l r st) as result closure st in
    (Normal (Own (Bool result)), closure, st).

(** The arguments are evaluated only inside the [if]. *)
Definition NewInstance_Execute (class_instance_ : nat) (class_ : Class)
           (args_ : list Statement) (closure : Closure) (st : State)
  : Result ObjectHolder :=
  if HasMethod class_ INIT_METHOD (length args_) then
    run Execute_args args_ closure st as args closure st in
    run lift closure
          (Call Execute class_instance_ class_ INIT_METHOD args st)
      as _ closure st in
    (Normal (Share (ClassInstance class_instance_ class_)), closure, st)
  else (Normal (Share (ClassInstance class_instance_ class_)), closure, st).

(** [try { body_->Execute(...); } catch (ObjectHolder obj) { return obj; }
    return {};] *)
Definition MethodBody_Execute (body_ : Statement) (closure : Closure)
           (st : State) : Result ObjectHolder :=
  match Execute body_ closure st with
  | (Normal _, closure, st) => (Normal None, closure, st)
  | (Returning obj, closure, st) => (Normal obj, closure, st)
  | (o, closure, st) => (o, closure, st)
  end.

(** Virtual dispatch of [Execute]. *)
Definition Execute_node (s : Statement) : Closure -> State -> Result ObjectHolder :=
  match s with
  | NumericConst v => fun closure st => (Normal (Share (Number v)), closure, st)
  | StringConst v => fun closure st => (Normal (Share (String v)), closure, st)
  | BoolConst v => fun closure st => (Normal (Share (Bool v)), closure, st)
  | None_ => fun closure st => (Normal None, closure, st)
  | VariableValue ids => VariableValue_Execute ids
  | Assignment var rv => Assignment_Execute var rv
  | FieldAssignment object field rv => FieldAssignment_Execute object field rv
  | Print args => Print_Execute args
  | MethodCall object method args => MethodCall_Execute object method args
  | NewInstance self cls args => NewInstance_Execute self cls args
  | Stringify arg => Stringify_Execute arg
  | Add l r => Add_Execute l r
  | Sub l r => Sub_Execute l r
  | Mult l r => Mult_Execute l r
  | Div l r => Div_Execute l r
  | Or l r => Or_Execute l r
  | And l r => And_Execute l r
  | Not arg => Not_Execute arg
  | Comparison cmp l r => Comparison_Execute cmp l r
  | Compound args => Compound_Execute args
  | MethodBody body => MethodBody_Execute body
  | Return stmt => Return_Execute stmt
  | ClassDefinition cls => ClassDefinition_Execute cls
  | IfElse c t e => IfElse_Execute c t e
  end.

End Nodes.

(** [Execute] with a bound on the nesting of calls: every call of
    [Execute], on a child or on a method body, uses one unit. *)
Fixpoint Execute (fuel : nat) (s : Statement) (closure : Closure)
         (st : State) : Result ObjectHolder :=
  match fuel with
  | O => (OutOfFuel, closure, st)
  | S fuel' => Execute_node fuel' (Execute fuel') s closure st
  end.

(** An evaluation that was not cut short by the bound. *)
Definition finished {A : Type} (o : Outcome A) : Prop :=
  is_OutOfFuel o = false.

(** [Execute(closure, context)] of [s] ends with outcome [o], leaving
    the closure [closure'] and the state [st']. *)
Definition evaluates (s : Statement) (closure : Closure) (st : State)
           (o : Outcome ObjectHolder) (closure' : Closure) (st' : State)
  : Prop :=
  exists fuel, Execute fuel s closure st = (o, closure', st') /\ finished o.

(** [cmp(lhs, rhs, context)] ends with outcome [o] in state [st']. *)
Definition compares (cmp : Comparator) (lhs rhs : ObjectHolder) (st : State)
           (o : Outcome bool) (st' : State) : Prop :=
  exists fuel,
    compare (Execute fuel) cmp lhs rhs st = (o, st') /\ finished o.

(** One evaluator agrees with another wherever the first finishes. *)
Definition extends
           (E E' : Statement -> Closure -> State -> Result ObjectHolder)
  : Prop :=
  forall s closure st,
    finished (E s closure st).1.1 -> E' s closure st = E s closure st.

(** The way from a statement down to one of the statements it is made
    of, through the blocks and the conditionals in between. *)
Inductive Path : Type :=
| Here
| InCompound (pre : list Statement) (inner : Path) (post : list Statement)
| InIfBody (condition : Statement) (inner : Path)
           (else_body : option Statement)
| InElseBody (condition if_body : Statement) (inner : Path).

(** The statement that has [s] at the end of the path [p]. *)
Fixpoint plug (p : Path) (s : Statement) : Statement :=
  match p with
  | Here => s
  | InCompound pre inner post => Compound (pre ++ plug inner s :: post)
  | InIfBody condition inner else_body =>
      IfElse condition (plug inner s) else_body
  | InElseBody condition if_body inner =>
      IfElse condition if_body (Some (plug inner s))
  end.

(** Execution started with [closure] and [st] comes to the end of the
    path [p] with [closure'] and [st']: the statements before it in
    each block have ended normally and each condition has chosen the
    branch the path goes through. *)
Fixpoint arrives (p : Path) (closure : Closure) (st : State)
         (closure' : Closure) (st' : State) : Prop :=
  match p with
  | Here => closure' = closure /\ st' = st
  | InCompound pre inner _ =>
      exists c1 st1,
        evaluates (Compound pre) closure st (Normal None) c1 st1
        /\ arrives inner c1 st1 closure' st'
  | InIfBody condition inner _ =>
      exists b c1 st1,
        evaluates condition closure st (Normal b) c1 st1
        /\ IsTrue b = true
        /\ arrives inner c1 st1 closure' st'
  | InElseBody condition _ inner =>
      exists b c1 st1,
        evaluates condition closure st (Normal b) c1 st1
        /\ IsTrue b = false
        /\ arrives inner c1 st1 closure' st'
  end.

End ast.

(** ** Sample programs and inputs *)

Module samples.

Import runtime ast.

Definition line (text : string) : string := text +:+ String.String LF "".

(** Nothing written, no instance has a field; arguments are evaluated
    from left to right. *)
Definition st0 : State := mk_State ∅ "" false.

(** [print "x"] *)
Definition say_x : Statement := Print [StringConst "x"].

(** [def __lt__(other): return <answer>] and nothing else. *)
Definition Ordered (answer : bool) : Class :=
  mk_Class "Ordered"
    [mk_Method "__lt__" ["other"] (MethodBody (Return (BoolConst answer)))]
    None.

Definition ordered (answer : bool) : ObjectHolder :=
  Some (ClassInstance 0 (Ordered answer)).

(** A class whose only constructor takes one argument. *)
Definition Point : Class :=
  mk_Class "Point"
    [mk_Method "__init__" ["x"]
       (MethodBody (FieldAssignment ["self"] "x" (VariableValue ["x"])))]
    None.

(** The closure after [x = 1] and [y = 2]. *)
Definition x1_y2 : Closure :=
  <["y" := Own (Number 2)]> (<["x" := Own (Number 1)]> ∅).

(** A line of one space and [b] after the line [a]. *)
Definition odd_indent : string := line "a" +:+ line " b".

(** An indented last line with no line terminator. *)
Definition unfinished_block : string := line "a" +:+ "  b".

(** A string literal with a line terminator before the closing quote. *)
Definition broken_string : string := line "'a" +:+ line "b'".

(** The lexer inside a block at level 1, after the [Newline] of the
    line [y] and the first of the three spaces that start the next
    line, [z]. *)
Definition three_spaces_at_level_1 : parse.Lexer :=
  parse.mk_Lexer SPACE
    (mk_istream [SPACE; LF; "y"; SPACE; SPACE; LF; ":"; "x"]%char
                [SPACE; SPACE; "z"; LF]%char false false)
    [token_type.Id "x"; token_type.Char ":"; token_type.Newline;
     token_type.Indent; token_type.Id "y"; token_type.Newline]
    1 false.

(** The lexer constructed on the input [x]. *)
Definition after_x : parse.Lexer :=
  parse.mk_Lexer "x" (mk_istream ["x"%char] [] true true)
                 [token_type.Id "x"] 0 false.




(** [print "a"], then [if True:] with [return 7] and [print "c"] in
    its body, then [print "b"]. *)
Definition return_in_if : Statement :=
  Compound
    [Print [StringConst "a"];
     IfElse (BoolConst true)
            (Compound [Return (NumericConst 7); Print [StringConst "c"]])
            None;
     Print [StringConst "b"]].

(** The way to the [return] of [return_in_if]. *)
Definition to_return_in_if : Path :=
  InCompound [Print [StringConst "a"]]
    (InIfBody (BoolConst true) (InCompound [] Here [Print [StringConst "c"]])
              None)
    [Print [StringConst "b"]].

End samples.

(** * Notions the properties are stated with *)

Module token_compare.
Import token_type.

(** [variant::index()] *)
Definition index (t : Token) : nat :=
  match t with
  | Number _ => 0 | Id _ => 1 | Char _ => 2 | String _ => 3
  | Class => 4 | Return => 5 | If => 6 | Else => 7 | Def => 8
  | Newline => 9 | Print => 10 | Indent => 11 | Dedent => 12
  | And => 13 | Or => 14 | Not => 15 | Eq => 16 | NotEq => 17
  | LessOrEq => 18 | GreaterOrEq => 19 | token_type.None => 20
  | token_type.True => 21 | token_type.False => 22 | Eof => 23
  end%nat.

(** [token.As<T>().value]: [std::get] throws [bad_variant_access] for a
    token of another kind, which is [None] here. *)
Definition As (T : Valued) (t : Token) : option (value_type T) := TryAs T t.

(** [lhs.As<T>().value == rhs.As<T>().value] *)
Definition same_value (T : Valued) (lhs rhs : Token) : option bool :=
  match As T lhs, As T rhs with
  | Some a, Some b => Some (value_eqb T a b)
  | _, _ => Datatypes.None
  end.

(** [operator==] on tokens; [None] when an [As] throws. *)
Definition operator_eq (lhs rhs : Token) : option bool :=
  if negb (index lhs =? index rhs)%nat then Some false
  else if Is VChar lhs then same_value VChar lhs rhs
  else if Is VNumber lhs then same_value VNumber lhs rhs
  else if Is VString lhs then same_value VString lhs rhs
  else if Is VId lhs then same_value VId lhs rhs
  else Some true.

(** [operator!=] *)
Definition operator_ne (lhs rhs : Token) : option bool :=
  match operator_eq lhs rhs with
  | Some b => Some (negb b)
  | Datatypes.None => Datatypes.None
  end.

End token_compare.

Module layout.

Import parse.

(** [lx'] has the tokens and the level of [lx]. *)
Definition same_tokens (lx lx' : Lexer) : Prop :=
  doc_ lx' = doc_ lx /\ last_indent_ lx' = last_indent_ lx.

(** What a token does to the indentation level. *)
Definition level_change (t : token_type.Token) : Z :=
  match t with
  | token_type.Indent => 1
  | token_type.Dedent => -1
  | _ => 0
  end.

(** Neither [Indent], [Dedent] nor [Eof]. *)
Definition plain (t : token_type.Token) : bool :=
  match t with
  | token_type.Indent | token_type.Dedent | token_type.Eof => false
  | _ => true
  end.

(** A lexeme function appends the token it returns, and only that; the
    token is no [Indent] or [Dedent] and the level stays. *)
Definition appends (lx : Lexer) (r : result token_type.Token) : Prop :=
  forall t lx', r = Ok t lx' ->
    doc_ lx' = doc_ lx ++ [t] /\ last_indent_ lx' = last_indent_ lx
    /\ plain t = true.

(** [Indent]s minus [Dedent]s. *)
Definition level_of (doc : list token_type.Token) : Z :=
  fold_right (fun t acc => level_change t + acc) 0 doc.

(** In every prefix of the tokens there are at least as many [Indent]s
    as [Dedent]s, and the surplus of the whole is the current level. *)
Definition well_nested (lx : Lexer) : Prop :=
  level_of (doc_ lx) = last_indent_ lx
  /\ forall pre post, doc_ lx = pre ++ post -> 0 <= level_of pre.


(** The input after its leading spaces. *)
Fixpoint skip_spaces (l : list ascii) : list ascii :=
  match l with
  | c :: l' => if Ascii.eqb c SPACE then skip_spaces l' else l
  | [] => []
  end.

(** Text made of blank lines and comment lines only; [in_comment] tells
    whether the text starts inside a comment. *)
Fixpoint blank_text (in_comment : bool) (l : list ascii) : bool :=
  match l with
  | [] => true
  | c :: l' =>
      if in_comment then blank_text (negb (Ascii.eqb c LF)) l'
      else if Ascii.eqb c HASH then blank_text true l'
      else (Ascii.eqb c SPACE || Ascii.eqb c LF) && blank_text false l'
  end.

(** A character that starts a token: neither blank nor the start of a
    comment. *)
Definition starts_token (c : ascii) : Prop :=
  c <> SPACE /\ c <> LF /\ c <> HASH.

(** A space or a line feed. *)
Definition blank_char (c : ascii) : Prop := c = SPACE \/ c = LF.

(** The characters an identifier goes on with. *)
Definition id_char (c : ascii) : bool :=
  negb (is_separator c) && negb (count lang_chars c).

(** The characters that end a number. *)
Definition ends_number (c : ascii) : bool :=
  is_separator c || count marks_chars c.

(** Nothing ahead, or a character for which [stop] holds. *)
Definition stops_at (stop : ascii -> bool) (tail : list ascii) : Prop :=
  match tail with
  | [] => True
  | c :: _ => stop c = true
  end.

(** A character of a string literal closed by [end_marker] that stands
    for itself. *)
Definition literal_char (end_marker c : ascii) : bool :=
  negb (Ascii.eqb c end_marker) && negb (Ascii.eqb c BACKSLASH).

(** The lexer before the first advance of its constructor. *)
Definition fresh_Lexer (text : string) : Lexer :=
  mk_Lexer "000"%char (istringstream (list_ascii_of_string text)) [] 0 false.

(** The lexer with [c_] read and [text] ahead, no token yet. *)
Definition reading (c : ascii) (text : string) : Lexer :=
  mk_Lexer c (mk_istream [c] (list_ascii_of_string text) false false)
           [] 0 false.

End layout.

Module scope.

Import runtime ast.

(** Numbers, strings, booleans, class objects and the empty holder:
    everything but a class instance. *)
Definition no_instance (h : ObjectHolder) : bool :=
  match h with
  | Some (ClassInstance _ _) => false
  | _ => true
  end.

(** The statement has an [Assignment] or [ClassDefinition] node. *)
Fixpoint assigns (s : Statement) : bool :=
  match s with
  | Assignment _ _ | ClassDefinition _ => true
  | NumericConst _ | StringConst _ | BoolConst _ | None_
  | VariableValue _ => false
  | FieldAssignment _ _ rv => assigns rv
  | Print args | Compound args | NewInstance _ _ args => existsb assigns args
  | MethodCall object _ args => assigns object || existsb assigns args
  | Stringify arg | Not arg | MethodBody arg | Return arg => assigns arg
  | Add l r | Sub l r | Mult l r | Div l r | Or l r | And l r
  | Comparison _ l r => assigns l || assigns r
  | IfElse c t e =>
      assigns c || assigns t
      || match e with Some e' => assigns e' | None => false end
  end.

(** A holder of a [Number]. *)
Definition is_number (h : ObjectHolder) : bool :=
  match h with
  | Some (Number _) => true
  | _ => false
  end.

(** The text of [st'] is the text of [st] with something appended. *)
Definition output_extends (st st' : State) : Prop :=
  exists text, output st' = output st +:+ text.

(** Every field that has a value in [st] has one in [st']. *)
Definition fields_kept (st st' : State) : Prop :=
  forall self field,
    is_Some (Fields st self !! field) -> is_Some (Fields st' self !! field).

End scope.

(** * Properties of the lexer *)

Import parse samples.

Section Indentation.

Lemma get_c_char lx c rest :
  good (input_ lx) = true ->
  pending (input_ lx) = c :: rest ->
  get_c lx
  = (true,
     mk_Lexer c (mk_istream (c :: consumed (input_ lx)) rest false false)
              (doc_ lx) (last_indent_ lx) (dedent_chain_ lx)).
Proof.
  intros Hg Hp. unfold get_c, get. by rewrite Hg, Hp.
Qed.

Lemma do_unget_keeps lx :
  doc_ (do_unget lx) = doc_ lx
  /\ last_indent_ (do_unget lx) = last_indent_ lx.
Proof. done. Qed.

Lemma half_step count L :
  1 <= count -> count ÷ 2 <= L -> (count + 1) ÷ 2 - 1 <> L ->
  (count + 1) ÷ 2 <= L.
Proof.
  intros H1 H2 H3. rewrite Z.quot_div_nonneg in * by lia.
  Z.div_mod_to_equations. lia.
Qed.

Lemma half_reached count j L :
  1 <= count -> (count + 1) ÷ 2 - 1 = L ->
  L < (count + Z.of_nat (S j)) ÷ 2.
Proof.
  intros H1 H2. rewrite Z.quot_div_nonneg in * by lia.
  Z.div_mod_to_equations. lia.
Qed.

(** The loop of [IsIndentLexeme] with [j] spaces still ahead, then a
    character that is no space. *)
Lemma IsIndentLexeme_loop_spec j : forall fuel count lx c rest,
  good (input_ lx) = true ->
  pending (input_ lx) = replicate j SPACE ++ c :: rest ->
  c <> SPACE ->
  (j < fuel)%nat ->
  1 <= count ->
  count ÷ 2 <= last_indent_ lx ->
  let s := count + Z.of_nat j in
  let r := IsIndentLexeme_loop fuel count lx in
  (s ÷ 2 = last_indent_ lx ->
   r.1 = false /\ doc_ r.2 = doc_ lx /\ last_indent_ r.2 = last_indent_ lx
   /\ c_ r.2 = c /\ pending (input_ r.2) = rest)
  /\ (last_indent_ lx < s ÷ 2 ->
      r.1 = true /\ doc_ r.2 = doc_ lx ++ [token_type.Indent]
      /\ last_indent_ r.2 = last_indent_ lx + 1)
  /\ (s ÷ 2 < last_indent_ lx ->
      r.1 = true /\ doc_ r.2 = doc_ lx ++ [token_type.Dedent]
      /\ last_indent_ r.2 = last_indent_ lx - 1).
Proof.
  induction j as [|j IH]; intros [|fuel] count lx c rest Hg Hp Hc Hf H1 Hq;
    try lia; intros s r; subst s r; cbn [IsIndentLexeme_loop].
  - rewrite (get_c_char lx c rest Hg Hp). cbn [c_ last_indent_].
    destruct (Ascii.eqb_spec c SPACE) as [|_]; [done|].
    rewrite Z.add_0_r.
    destruct (Z.eqb_spec (count ÷ 2) (last_indent_ lx)) as [He|Hne].
    + repeat split; try done; lia.
    + repeat split; try lia.
      all: destruct (negb _); done.
  - rewrite (get_c_char lx SPACE _ Hg Hp). cbn [c_ last_indent_].
    rewrite Ascii.eqb_refl.
    destruct (Z.eqb_spec ((count + 1) ÷ 2 - 1) (last_indent_ lx))
      as [He|Hne].
    + pose proof (half_reached count j _ H1 He). repeat split; try done; lia.
    + replace (count + Z.of_nat (S j)) with (count + 1 + Z.of_nat j) by lia.
      apply (IH fuel (count + 1)
                (mk_Lexer SPACE
                   (mk_istream (SPACE :: consumed (input_ lx))
                      (replicate j SPACE ++ c :: rest) false false)
                   (doc_ lx) (last_indent_ lx) (dedent_chain_ lx)) c rest);
        try done; try lia.
      by apply half_step.
Qed.

(** C8, as amended: no parity test is made.  On a line that follows a
    [Newline] and starts with [s >= 1] spaces, [IsIndentLexeme] (entered
    after the first space) throws nothing and compares [s / 2], the
    integer quotient, with the current level.  Equal, which an odd
    [s = 2 * level + 1] also gives: no token, the level stays [s / 2],
    and the first character after the spaces is the one to lex.
    Greater: one [Indent], the level goes up by one.  Smaller: one
    [Dedent], the level goes down by one.  So the new level is [s / 2]
    whenever [s / 2] is at most one step away from the old one. *)
Theorem IsIndentLexeme_halves lx k c rest :
  good (input_ lx) = true ->
  pending (input_ lx) = replicate k SPACE ++ c :: rest ->
  c <> SPACE ->
  0 <= last_indent_ lx ->
  let s := Z.of_nat (S k) in
  let r := IsIndentLexeme lx in
  (s ÷ 2 = last_indent_ lx ->
   r.1 = false /\ doc_ r.2 = doc_ lx /\ last_indent_ r.2 = last_indent_ lx
   /\ c_ r.2 = c /\ pending (input_ r.2) = rest)
  /\ (last_indent_ lx < s ÷ 2 ->
      r.1 = true /\ doc_ r.2 = doc_ lx ++ [token_type.Indent]
      /\ last_indent_ r.2 = last_indent_ lx + 1)
  /\ (s ÷ 2 < last_indent_ lx ->
      r.1 = true /\ doc_ r.2 = doc_ lx ++ [token_type.Dedent]
      /\ last_indent_ r.2 = last_indent_ lx - 1)
  /\ (Z.abs (s ÷ 2 - last_indent_ lx) <= 1 -> last_indent_ r.2 = s ÷ 2).
Proof.
  intros Hg Hp Hc HL s r.
  assert (H : (s ÷ 2 = last_indent_ lx ->
               r.1 = false /\ doc_ r.2 = doc_ lx
               /\ last_indent_ r.2 = last_indent_ lx
               /\ c_ r.2 = c /\ pending (input_ r.2) = rest)
              /\ (last_indent_ lx < s ÷ 2 ->
                  r.1 = true /\ doc_ r.2 = doc_ lx ++ [token_type.Indent]
                  /\ last_indent_ r.2 = last_indent_ lx + 1)
              /\ (s ÷ 2 < last_indent_ lx ->
                  r.1 = true /\ doc_ r.2 = doc_ lx ++ [token_type.Dedent]
                  /\ last_indent_ r.2 = last_indent_ lx - 1)).
  { subst s r. replace (Z.of_nat (S k)) with (1 + Z.of_nat k) by lia.
    apply IsIndentLexeme_loop_spec; try done.
    unfold loop_bound. rewrite Hp, length_app, length_replicate. simpl. lia. }
  destruct H as (Heq & Hgt & Hlt). repeat split; try tauto.
  intros Habs.
  destruct (Z.lt_total (s ÷ 2) (last_indent_ lx)) as [Hc1|[Hc2|Hc3]].
  - destruct (Hlt Hc1) as (_ & _ & ->). lia.
  - destruct (Heq Hc2) as (_ & _ & -> & _). lia.
  - destruct (Hgt Hc3) as (_ & _ & ->). lia.
Qed.

Lemma IsIndentLexeme_halves_witness :
  let r := IsIndentLexeme three_spaces_at_level_1 in
  r.1 = false /\ doc_ r.2 = doc_ three_spaces_at_level_1
  /\ last_indent_ r.2 = 1 /\ c_ r.2 = "z"%char
  /\ pending (input_ r.2) = [LF].
Proof.
  apply (IsIndentLexeme_halves three_spaces_at_level_1 2 "z"%char [LF]);
    [reflexivity|reflexivity|discriminate|simpl; lia|reflexivity].
Defined.

End Indentation.

(** C8, as stated, fails: a line indented by one space after a line at
    level 0 is lexed without any [LexerError], at level 0. *)
Lemma odd_indent_accepted :
  tokens_of (lex 10 odd_indent)
  = Some [token_type.Id "a"; token_type.Newline; token_type.Id "b";
          token_type.Newline; token_type.Eof].
Proof. reflexivity. Qed.


(** ** End of input *)

(** With levels still open the exhausted lexer emits a [Dedent] first,
    whatever the current token is. *)
Lemma NextToken_exhausted_open_level lx :
  0 < last_indent_ lx ->
  NextToken_exhausted lx
  = Ok token_type.Dedent
       (emplace_back token_type.Dedent
          (set_last_indent (last_indent_ lx - 1) lx)).
Proof.
  intros HL. unfold NextToken_exhausted.
  by destruct (Z.ltb_spec 0 (last_indent_ lx)); [|lia].
Qed.

(** At level 0 an unfinished line gets its [Newline]. *)
Lemma NextToken_exhausted_unfinished_line lx t :
  last_indent_ lx <= 0 ->
  last (doc_ lx) = Some t ->
  token_type.IsNewline t = false ->
  token_type.IsEof t = false ->
  token_type.IsDedent t = false ->
  NextToken_exhausted lx
  = Ok token_type.Newline (emplace_back token_type.Newline lx).
Proof.
  intros HL Ht Hn He Hd. unfold NextToken_exhausted.
  destruct (Z.ltb_spec 0 (last_indent_ lx)); [lia|].
  by rewrite Ht, Hn, He, Hd.
Qed.

(** Once [Eof] is the current token every further advance gives [Eof]
    again and appends nothing. *)
Lemma NextToken_after_Eof lx :
  last (doc_ lx) = Some token_type.Eof ->
  good (input_ lx) = false ->
  last_indent_ lx <= 0 ->
  exists lx',
    NextToken lx = Ok token_type.Eof lx'
    /\ doc_ lx' = doc_ lx
    /\ good (input_ lx') = false
    /\ last_indent_ lx' = last_indent_ lx.
Proof.
  intros Ht Hg HL. unfold NextToken. rewrite Ht. cbn [token_type.IsNewline].
  unfold get_c, get. rewrite Hg. unfold NextToken_exhausted.
  cbn [last_indent_ set_input doc_].
  destruct (Z.ltb_spec 0 (last_indent_ lx)); [lia|].
  rewrite Ht. cbn. eexists. repeat split.
  unfold good. cbn. apply negb_false_iff, orb_true_r.
Qed.

(** C4, at the failing input: the last line [b] is indented and has no
    line terminator.  At the end of the input the lexer emits the
    [Dedent] at once and then [Eof]; no [Newline] follows [b]. *)
Theorem unfinished_block_gets_no_Newline :
  tokens_of (lex 10 unfinished_block)
  = Some [token_type.Id "a"; token_type.Newline; token_type.Indent;
          token_type.Id "b"; token_type.Dedent; token_type.Eof].
Proof. reflexivity. Qed.

(** ** Expectations *)

Lemma Expect_value_other_kind T value lx t :
  last (doc_ lx) = Some t ->
  token_type.TryAs T t = None ->
  Expect_value T value lx = Ok tt lx.
Proof.
  intros Ht Hk. unfold Expect_value, CurrentToken, back. by rewrite Ht, Hk.
Qed.

Lemma Expect_value_other_value T value lx t v :
  last (doc_ lx) = Some t ->
  token_type.TryAs T t = Some v ->
  token_type.value_eqb T v value = false ->
  exists what, Expect_value T value lx = Throw (LexerError what).
Proof.
  intros Ht Hk Hv. unfold Expect_value, CurrentToken, back.
  rewrite Ht, Hk, Hv. by eexists.
Qed.

(** C6, at the failing input: the current token is [Id x] and a [Char]
    with value [:] is expected.  Neither [Expect<Char>(':')] nor, after
    the advance to [Newline], [ExpectNext<Char>(':')] throws. *)
Theorem Expect_value_lets_other_kind_pass :
  new_Lexer (istringstream ["x"%char]) = Ok (token_type.Id "x") after_x
  /\ Expect_value token_type.VChar ":"%char after_x = Ok tt after_x
  /\ ExpectNext_value token_type.VChar ":"%char after_x
     = Ok tt (emplace_back token_type.Newline after_x).
Proof. repeat split. Qed.

(** ** String literals *)

(** Input that ends before the closing quote is a [LexerError]. *)
Lemma GetStringLexeme_loop_unterminated fuel : forall end_marker lexeme lx,
  (length (pending (input_ lx)) < fuel)%nat ->
  ~ In end_marker (pending (input_ lx)) ->
  exists what,
    GetStringLexeme_loop fuel end_marker lexeme lx = Throw (LexerError what).
Proof.
  induction fuel as [|fuel IH]; intros end_marker lexeme lx Hlen Hin; [lia|].
  cbn [GetStringLexeme_loop]. unfold get_c at 1, get.
  destruct (good (input_ lx)); [|by eexists].
  destruct (pending (input_ lx)) as [|c p] eqn:Hp; [by eexists|].
  cbn [c_ set_input set_c].
  destruct (Ascii.eqb_spec c end_marker) as [->|_]; [by destruct Hin; left|].
  cbn [negb]. simpl in Hlen.
  assert (Hp' : ~ In end_marker p) by (intros ?; apply Hin; by right).
  destruct (Ascii.eqb c BACKSLASH).
  - unfold get_c, get. cbn [input_ set_input set_c good eofbit failbit orb negb
                            pending consumed].
    destruct p as [|d p'].
    + cbn [snd]. cbn [c_ set_input].
      destruct (Ascii.eqb _ _); [|destruct (Ascii.eqb _ _)];
        apply IH; cbn; try lia; by intros [].
    + cbn [snd c_ set_input set_c]. simpl in Hlen.
      assert (~ In end_marker p') by (intros ?; apply Hp'; by right).
      destruct (Ascii.eqb _ _); [|destruct (Ascii.eqb _ _)];
        apply IH; cbn; try lia; done.
  - apply IH; cbn; [lia|done].
Qed.

(** A line terminator inside the literal is taken like any other
    character: the only test for it sits in the branch for the closing
    quote. *)
Lemma GetStringLexeme_loop_LF fuel end_marker lexeme lx rest :
  good (input_ lx) = true ->
  pending (input_ lx) = LF :: rest ->
  end_marker <> LF ->
  GetStringLexeme_loop (S fuel) end_marker lexeme lx
  = GetStringLexeme_loop fuel end_marker (push_back lexeme LF)
      (mk_Lexer LF (mk_istream (LF :: consumed (input_ lx)) rest false false)
                (doc_ lx) (last_indent_ lx) (dedent_chain_ lx)).
Proof.
  intros Hg Hp Hm. cbn [GetStringLexeme_loop].
  rewrite (get_c_char lx LF rest Hg Hp). cbn [c_].
  destruct (Ascii.eqb_spec LF end_marker) as [<-|_]; [done|].
  reflexivity.
Qed.

Lemma GetStringLexeme_unterminated lx :
  ~ In (c_ lx) (pending (input_ lx)) ->
  exists what, GetStringLexeme lx = Throw (LexerError what).
Proof.
  intros Hin. apply GetStringLexeme_loop_unterminated; [|done].
  unfold loop_bound. lia.
Qed.

(** C7, at the failing input: the literal opens with a quote on one
    line and closes on the next.  No [LexerError] is thrown; the line
    terminator becomes part of the [String] token. *)
Theorem broken_string_is_a_String :
  tokens_of (lex 10 broken_string)
  = Some [token_type.String (line "a" +:+ "b"); token_type.Newline;
          token_type.Eof].
Proof. reflexivity. Qed.

(** * Further properties of the lexer *)

Import layout.

(** X1: [operator==] never throws and holds exactly of equal tokens;
    [operator!=] is its negation. *)
Lemma operator_eq_is_equality lhs rhs :
  exists b,
    token_compare.operator_eq lhs rhs = Some b
    /\ token_compare.operator_ne lhs rhs = Some (negb b)
    /\ (b = true <-> lhs = rhs).
Proof.
  unfold token_compare.operator_ne.
  destruct lhs, rhs; cbn;
    try (by eexists; split; [reflexivity|split; [reflexivity|split; done]]).
  - eexists; split; [reflexivity|split; [reflexivity|]].
    rewrite Z.eqb_eq. split; congruence.
  - eexists; split; [reflexivity|split; [reflexivity|]].
    rewrite String.eqb_eq. split; congruence.
  - eexists; split; [reflexivity|split; [reflexivity|]].
    rewrite Ascii.eqb_eq. split; congruence.
  - eexists; split; [reflexivity|split; [reflexivity|]].
    rewrite String.eqb_eq. split; congruence.
Qed.

(** ** What the helpers leave alone *)

Lemma same_tokens_refl lx : same_tokens lx lx.
Proof. done. Qed.

Lemma same_tokens_trans lx1 lx2 lx3 :
  same_tokens lx1 lx2 -> same_tokens lx2 lx3 -> same_tokens lx1 lx3.
Proof. intros [? ?] [? ?]. split; congruence. Qed.

Lemma get_c_same lx : same_tokens lx (get_c lx).2.
Proof. unfold get_c. by destruct (get (input_ lx)) as [[c|] s]. Qed.

Lemma do_unget_same lx : same_tokens lx (do_unget lx).
Proof. done. Qed.

Lemma iter_do_unget_same n lx : same_tokens lx (Nat.iter n do_unget lx).
Proof. induction n as [|n IH]; [done|]. by destruct IH. Qed.

Lemma RemoveSpaces_loop_same fuel : forall lx,
  same_tokens lx (RemoveSpaces_loop fuel lx).
Proof.
  induction fuel as [|fuel IH]; intros lx; [done|]. simpl.
  pose proof (get_c_same lx) as Hg.
  destruct (get_c lx) as [[] lx1]; simpl in Hg; [|done].
  destruct (negb _); [done|].
  eapply same_tokens_trans; [exact Hg|apply IH].
Qed.

Lemma RemoveSpaces_same lx : same_tokens lx (RemoveSpaces lx).
Proof. apply RemoveSpaces_loop_same. Qed.

Lemma RemoveComment_same lx : same_tokens lx (RemoveComment lx).
Proof. done. Qed.

Lemma RemoveEmptyLines_loop_same fuel : forall space_count lx,
  same_tokens lx (RemoveEmptyLines_loop fuel space_count lx).
Proof.
  induction fuel as [|fuel IH]; intros n lx; [done|]. simpl.
  pose proof (get_c_same lx) as Hg.
  destruct (get_c lx) as [[] lx1]; simpl in Hg; [|done].
  destruct (Ascii.eqb _ HASH).
  { eapply same_tokens_trans; [exact Hg|]. 
    eapply same_tokens_trans; [apply (RemoveComment_same lx1)|apply IH]. }
  destruct (negb _ && negb _).
  { eapply same_tokens_trans; [exact Hg|apply (iter_do_unget_same (S n))]. }
  destruct (Ascii.eqb _ LF);
    (eapply same_tokens_trans; [exact Hg|apply IH]).
Qed.

Lemma RemoveEmptyLines_same lx : same_tokens lx (RemoveEmptyLines lx).
Proof. apply RemoveEmptyLines_loop_same. Qed.

Lemma plain_level t : plain t = true -> level_change t = 0.
Proof. by destruct t. Qed.

Lemma back_after_emplace t lx lx1 :
  plain t = true ->
  same_tokens lx lx1 ->
  appends lx (back (RemoveSpaces (emplace_back t lx1))).
Proof.
  intros Ht [Hd Hl] t' lx' Hb. unfold back in Hb.
  destruct (RemoveSpaces_same (emplace_back t lx1)) as [Hd' Hl'].
  cbn [doc_ last_indent_ emplace_back] in Hd', Hl'.
  rewrite Hd', last_snoc in Hb. injection Hb as <- <-.
  rewrite Hd', Hl', Hd, Hl. done.
Qed.

Lemma emit_appends t lx lx1 :
  plain t = true -> same_tokens lx lx1 -> appends lx (emit t lx1).
Proof.
  intros Ht [Hd Hl] t' lx' [= <- <-]. cbn. by rewrite Hd, Hl.
Qed.

Lemma keyword_level s : plain (keyword s) = true.
Proof. unfold keyword. repeat (destruct (String.eqb _ _); [done|]). done. Qed.

Lemma GetCharLexeme_appends lx : appends lx (GetCharLexeme lx).
Proof. by apply back_after_emplace. Qed.

Lemma GetStringLexeme_loop_appends fuel : forall m lexeme lx0 lx,
  same_tokens lx0 lx ->
  appends lx0 (GetStringLexeme_loop fuel m lexeme lx).
Proof.
  induction fuel as [|fuel IH]; intros m lexeme lx0 lx Hs; [done|]. simpl.
  pose proof (get_c_same lx) as Hg.
  destruct (get_c lx) as [[] lx1]; simpl in Hg; [|done].
  pose proof (same_tokens_trans _ _ _ Hs Hg) as Hs1.
  destruct (negb _).
  - destruct (Ascii.eqb _ BACKSLASH); [|by apply IH].
    pose proof (get_c_same lx1) as Hg2.
    pose proof (same_tokens_trans _ _ _ Hs1 Hg2) as Hs2.
    destruct (Ascii.eqb _ _); [by apply IH|].
    destruct (Ascii.eqb _ _); by apply IH.
  - destruct (Ascii.eqb _ LF); [done|]. by apply back_after_emplace.
Qed.

Lemma GetStringLexeme_appends lx : appends lx (GetStringLexeme lx).
Proof. by apply GetStringLexeme_loop_appends. Qed.

Lemma GetNumberLexeme_loop_same fuel : forall lexeme lx s lx',
  GetNumberLexeme_loop fuel lexeme lx = Ok s lx' -> same_tokens lx lx'.
Proof.
  induction fuel as [|fuel IH]; intros lexeme lx s lx'; [done|]. simpl.
  pose proof (get_c_same lx) as Hg.
  destruct (get_c lx) as [[] lx1]; simpl in Hg.
  - destruct (negb _ && negb _).
    + destruct (isdigit _); [|done]. intros H%IH.
      by eapply same_tokens_trans.
    + by intros [= <- <-].
  - by intros [= <- <-].
Qed.

Lemma GetNumberLexeme_appends lx : appends lx (GetNumberLexeme lx).
Proof.
  unfold GetNumberLexeme.
  destruct (GetNumberLexeme_loop _ _ _) as [s lx1|] eqn:Hl; [|done].
  apply GetNumberLexeme_loop_same in Hl.
  destruct (stoi s); [done|]. by apply back_after_emplace.
Qed.

Lemma GetIdOrKeyLexeme_loop_same fuel : forall lexeme lx,
  same_tokens lx (GetIdOrKeyLexeme_loop fuel lexeme lx).2.
Proof.
  induction fuel as [|fuel IH]; intros lexeme lx; [done|]. simpl.
  pose proof (get_c_same lx) as Hg.
  destruct (get_c lx) as [[] lx1]; simpl in Hg; [|done].
  destruct (negb _ && negb _); [|done].
  eapply same_tokens_trans; [exact Hg|apply IH].
Qed.

Lemma GetIdOrKeyLexeme_appends lx : appends lx (GetIdOrKeyLexeme lx).
Proof.
  unfold GetIdOrKeyLexeme.
  pose proof (GetIdOrKeyLexeme_loop_same (loop_bound lx)
                (String.String (c_ lx) EmptyString) lx) as Hs.
  destruct (GetIdOrKeyLexeme_loop _ _ _) as [s lx1].
  apply back_after_emplace; [apply keyword_level|done].
Qed.

Lemma GetEqLexeme_appends lx :
  (Ascii.eqb (c_ lx) "="%char || Ascii.eqb (c_ lx) "!"%char
   || Ascii.eqb (c_ lx) "<"%char || Ascii.eqb (c_ lx) ">"%char) = true ->
  appends lx (GetEqLexeme lx).
Proof.
  intros Hc. unfold GetEqLexeme.
  destruct (get (input_ lx)) as [[next_c|] s]; [|done].
  destruct (Ascii.eqb next_c _); [|by apply back_after_emplace].
  destruct (Ascii.eqb (c_ lx) "="); [by apply back_after_emplace|].
  destruct (Ascii.eqb (c_ lx) "!"); [by apply back_after_emplace|].
  destruct (Ascii.eqb (c_ lx) "<"); [by apply back_after_emplace|].
  destruct (Ascii.eqb (c_ lx) ">"); [by apply back_after_emplace|done].
Qed.

Lemma ParseNextToken_dispatch_appends lx0 lx :
  same_tokens lx0 lx -> appends lx0 (ParseNextToken_dispatch lx).
Proof.
  intros [Hd Hl]. unfold ParseNextToken_dispatch.
  assert (Hw : forall r, appends lx r -> appends lx0 r).
  { intros r Hr t lx' Ht. destruct (Hr t lx' Ht) as (-> & -> & ?).
    by rewrite Hd, Hl. }
  cbv zeta.
  destruct (Ascii.eqb (c_ lx) "=" || Ascii.eqb (c_ lx) "!"
            || Ascii.eqb (c_ lx) "<" || Ascii.eqb (c_ lx) ">") eqn:Heq;
    [by apply Hw, GetEqLexeme_appends|].
  destruct (count lang_chars (c_ lx)); [apply Hw, GetCharLexeme_appends|].
  destruct (Ascii.eqb (c_ lx) QUOTE || Ascii.eqb (c_ lx) DQUOTE);
    [apply Hw, GetStringLexeme_appends|].
  destruct (isdigit (c_ lx)); [apply Hw, GetNumberLexeme_appends|].
  destruct (is_id_start (c_ lx)); [apply Hw, GetIdOrKeyLexeme_appends|].
  by destruct (Ascii.eqb (c_ lx) SPACE).
Qed.

Lemma ParseNextToken_appends lx0 lx :
  same_tokens lx0 lx -> appends lx0 (ParseNextToken lx).
Proof.
  intros Hs. unfold ParseNextToken.
  destruct (Ascii.eqb _ HASH).
  - unfold CurrentToken, back. destruct (last _); [|done].
    destruct (negb _); [by apply emit_appends|].
    by apply ParseNextToken_dispatch_appends.
  - destruct (Ascii.eqb _ LF); [by apply emit_appends|].
    by apply ParseNextToken_dispatch_appends.
Qed.

(** The loop of [IsIndentLexeme], on any input. *)
Lemma IsIndentLexeme_loop_effect fuel : forall count lx,
  1 <= count -> count ÷ 2 <= last_indent_ lx ->
  let r := IsIndentLexeme_loop fuel count lx in
  if r.1 then
    (doc_ r.2 = doc_ lx ++ [token_type.Indent]
     /\ last_indent_ r.2 = last_indent_ lx + 1)
    \/ (doc_ r.2 = doc_ lx ++ [token_type.Dedent]
        /\ last_indent_ r.2 = last_indent_ lx - 1 /\ 0 < last_indent_ lx)
  else same_tokens lx r.2.
Proof.
  induction fuel as [|fuel IH]; intros count lx H1 Hq; [done|].
  cbn [IsIndentLexeme_loop].
  pose proof (get_c_same lx) as [Hd Hl].
  destruct (get_c lx) as [[] lx1]; cbn [snd] in Hd, Hl; [|done].
  destruct (Ascii.eqb _ SPACE).
  - destruct (Z.eqb_spec ((count + 1) ÷ 2 - 1) (last_indent_ lx1)) as [He|Hne].
    + cbn. left. by rewrite Hd, Hl.
    + specialize (IH (count + 1) lx1). cbv zeta in IH.
      rewrite Hd, Hl in IH. rewrite Hl in Hne.
      specialize (IH ltac:(lia) (half_step _ _ H1 Hq Hne)).
      destruct (IsIndentLexeme_loop fuel (count + 1) lx1).1; [exact IH|].
      destruct IH. split; congruence.
  - destruct (Z.eqb_spec (count ÷ 2) (last_indent_ lx1)) as [He|Hne];
      [done|].
    cbn [fst snd]. right.
    assert (Hs : forall lx2, same_tokens lx1 lx2 ->
               doc_ (emplace_back token_type.Dedent
                       (set_last_indent (last_indent_ (do_unget lx2) - 1)
                          (do_unget lx2)))
               = doc_ lx ++ [token_type.Dedent]
               /\ last_indent_ (emplace_back token_type.Dedent
                       (set_last_indent (last_indent_ (do_unget lx2) - 1)
                          (do_unget lx2)))
                  = last_indent_ lx - 1).
    { intros lx2 [Hd2 Hl2]. cbn. by rewrite Hd2, Hl2, Hd, Hl. }
    assert (0 <= count ÷ 2) by (apply Z.quot_pos; lia).
    destruct (negb _);
      [destruct (Hs (Nat.iter 2 do_unget lx1) (iter_do_unget_same 2 lx1))
      |destruct (Hs lx1 (same_tokens_refl lx1))];
      repeat split; try done; lia.
Qed.

Lemma back_last lx t lx' : back lx = Ok t lx' -> lx' = lx /\ last (doc_ lx) = Some t.
Proof. unfold back. destruct (last (doc_ lx)); [|done]. by intros [= -> ->]. Qed.

(** One advance: either the token returned is appended and the level
    follows it, or [Eof] is returned once more and nothing changes. *)
Lemma NextToken_step lx t lx' :
  0 <= last_indent_ lx ->
  NextToken lx = Ok t lx' ->
  0 <= last_indent_ lx'
  /\ (t = token_type.Eof -> last_indent_ lx' = 0)
  /\ ((doc_ lx' = doc_ lx ++ [t]
       /\ last_indent_ lx' = last_indent_ lx + level_change t)
      \/ (t = token_type.Eof /\ doc_ lx' = doc_ lx
          /\ last (doc_ lx) = Some token_type.Eof
          /\ last_indent_ lx' = last_indent_ lx)).
Proof.
  intros HL. unfold NextToken.
  set (lx0 := match last (doc_ lx) with
              | Some t0 => if token_type.IsNewline t0 then RemoveEmptyLines lx
                           else lx
              | None => RemoveEmptyLines lx
              end).
  assert (Hs0 : same_tokens lx lx0).
  { subst lx0. destruct (last (doc_ lx)) as [t0|];
      [destruct (token_type.IsNewline t0)|];
      auto using RemoveEmptyLines_same, same_tokens_refl. }
  pose proof (same_tokens_trans _ _ _ Hs0 (get_c_same lx0)) as Hs1.
  destruct (get_c lx0) as [[] lx1]; cbn [snd] in Hs1.
  - assert (Hparse : forall lx2, same_tokens lx lx2 ->
              NextToken_parse lx2 = Ok t lx' ->
              0 <= last_indent_ lx'
              /\ (t = token_type.Eof -> last_indent_ lx' = 0)
              /\ ((doc_ lx' = doc_ lx ++ [t]
                   /\ last_indent_ lx' = last_indent_ lx + level_change t)
                  \/ (t = token_type.Eof /\ doc_ lx' = doc_ lx
                      /\ last (doc_ lx) = Some token_type.Eof
                      /\ last_indent_ lx' = last_indent_ lx))).
    { intros lx2 Hs2 Hp.
      destruct (ParseNextToken_appends lx (set_dedent_chain false lx2)
                  Hs2 t lx' Hp) as (Hd & Hl & Ht).
      pose proof (plain_level t Ht).
      split; [lia|]. split; [by intros ->|]. left. split; [done|lia]. }
    destruct Hs1 as [Hd1 Hl1].
    destruct (Ascii.eqb (c_ lx1) SPACE).
    + unfold current_is_newline, CurrentToken, back.
      destruct (last (doc_ lx1)) as [t1|]; [|done].
      destruct (token_type.IsNewline t1); [|by apply Hparse].
      assert (Hq : 1 ÷ 2 <= last_indent_ lx1)
        by (change (1 ÷ 2) with 0; lia).
      pose proof (IsIndentLexeme_loop_effect (loop_bound lx1) 1 lx1
                    ltac:(lia) Hq) as He.
      cbv zeta in He. unfold IsIndentLexeme.
      destruct (IsIndentLexeme_loop (loop_bound lx1) 1 lx1) as [[] lx2];
        cbn [fst snd] in He.
      * intros [-> Hlast]%back_last.
        destruct He as [[Hd Hl]|(Hd & Hl & Hpos)];
          rewrite Hd, last_snoc in Hlast; injection Hlast as <-;
          clear Hq;
          (split; [lia|split; [done|left; split; [congruence|simpl; lia]]]).
      * apply Hparse. destruct He. split; congruence.
    + destruct (Z.ltb_spec 0 (last_indent_ lx1)); [|by apply Hparse].
      unfold current_is_newline, CurrentToken, back.
      destruct (last (doc_ lx1)) as [t1|]; [|done].
      destruct (token_type.IsNewline t1 || dedent_chain_ lx1);
        [|by apply Hparse].
      intros [= <- <-]. cbn. rewrite Hd1, Hl1.
      split; [lia|split; [done|left; split; [done|lia]]].
  - destruct Hs1 as [Hd1 Hl1]. unfold NextToken_exhausted.
    destruct (Z.ltb_spec 0 (last_indent_ lx1)).
    + intros [= <- <-]. cbn. rewrite Hd1, Hl1.
      split; [lia|split; [done|left; split; [done|lia]]].
    + rewrite Hd1. destruct (last (doc_ lx)) as [t0|] eqn:Hlast.
      * destruct (negb _ && negb _ && negb _).
        { intros [= <- <-]. cbn. rewrite Hd1, Hl1. split; [lia|].
          split; [done|]. left. split; [done|lia]. }
        destruct (token_type.IsEof t0) eqn:Heof; cbn [negb].
        { intros [= <- <-]. split; [lia|]. split; [lia|]. right.
          destruct t0; try done. }
        { intros [= <- <-]. cbn. rewrite Hd1, Hl1. split; [lia|].
          split; [lia|]. left. split; [done|lia]. }
      * intros [= <- <-]. cbn. rewrite Hd1, Hl1. split; [lia|].
        split; [lia|]. left. split; [done|lia].
Qed.

Lemma level_of_app doc1 doc2 :
  level_of (doc1 ++ doc2) = level_of doc1 + level_of doc2.
Proof. induction doc1 as [|t doc1 IH]; simpl; lia. Qed.

Lemma well_nested_level lx : well_nested lx -> 0 <= last_indent_ lx.
Proof.
  intros [<- Hp]. apply (Hp (doc_ lx) []). by rewrite app_nil_r.
Qed.

Lemma well_nested_step lx t lx' :
  well_nested lx -> NextToken lx = Ok t lx' -> well_nested lx'.
Proof.
  intros Hw Hn. pose proof (well_nested_level lx Hw) as HL.
  destruct (NextToken_step lx t lx' HL Hn)
    as (HL' & _ & [[Hd Hl]|(_ & Hd & _ & Hl)]); destruct Hw as [Hlev Hpre].
  - split.
    + rewrite Hd, level_of_app, Hlev, Hl. simpl. lia.
    + intros pre post Hpp. rewrite Hd in Hpp.
      destruct (decide (post = [])) as [->|Hne].
      * rewrite app_nil_r in Hpp. subst pre.
        rewrite level_of_app, Hlev. simpl. lia.
      * destruct (exists_last Hne) as (post' & t' & ->).
        rewrite app_assoc in Hpp. apply app_inj_tail in Hpp as [Hpp _].
        by apply (Hpre pre post').
  - split; [by rewrite Hd, Hl|]. intros pre post. rewrite Hd. apply Hpre.
Qed.

(** X12: every advance keeps the tokens well nested. *)
Theorem NextToken_keeps_nesting lx t lx' :
  well_nested lx -> NextToken lx = Ok t lx' -> well_nested lx'.
Proof. apply well_nested_step. Qed.

Lemma NextToken_keeps_nesting_witness :
  exists t lx', NextToken (fresh_Lexer "x") = Ok t lx' /\ well_nested lx'.
Proof.
  eexists _, _. split; [reflexivity|].
  apply (NextToken_keeps_nesting (fresh_Lexer "x") (token_type.Id "x"));
    [|reflexivity].
  split; [reflexivity|].
  intros [|t pre] post H; [simpl; lia|discriminate H].
Defined.

Lemma NextToken_current lx t lx' :
  0 <= last_indent_ lx -> NextToken lx = Ok t lx' ->
  last (doc_ lx') = Some t.
Proof.
  intros HL Hn.
  destruct (NextToken_step lx t lx' HL Hn)
    as (_ & _ & [[Hd _]|(-> & Hd & Hlast & _)]).
  - by rewrite Hd, last_snoc.
  - by rewrite Hd.
Qed.

(** X11: the token an advance returns is appended to the tokens and is
    the current token afterwards; only a repeated [Eof] appends nothing. *)
Theorem NextToken_appends_current lx t lx' :
  0 <= last_indent_ lx ->
  NextToken lx = Ok t lx' ->
  CurrentToken lx' = Ok t lx'
  /\ (doc_ lx' = doc_ lx ++ [t]
      \/ (t = token_type.Eof /\ doc_ lx' = doc_ lx
          /\ CurrentToken lx = Ok token_type.Eof lx)).
Proof.
  intros HL Hn. split.
  - unfold CurrentToken, back. by rewrite (NextToken_current lx t lx' HL Hn).
  - destruct (NextToken_step lx t lx' HL Hn)
      as (_ & _ & [[Hd _]|(-> & Hd & Hlast & _)]); [by left|].
    right. repeat split; [done|]. unfold CurrentToken, back. by rewrite Hlast.
Qed.

Lemma NextToken_appends_current_witness :
  exists t lx',
    NextToken after_x = Ok t lx'
    /\ (CurrentToken lx' = Ok t lx'
        /\ (doc_ lx' = doc_ after_x ++ [t]
            \/ (t = token_type.Eof /\ doc_ lx' = doc_ after_x
                /\ CurrentToken after_x = Ok token_type.Eof after_x))).
Proof.
  eexists _, _. split; [reflexivity|].
  apply (NextToken_appends_current after_x); [simpl; lia|reflexivity].
Defined.



Lemma last_removelast {A} (l : list A) x :
  last l = Some x -> l = removelast l ++ [x].
Proof.
  destruct l as [|y l _] using rev_ind; [done|].
  rewrite last_snoc, removelast_last. by intros [= ->].
Qed.

(** The driver stops at [Eof] only. *)
Lemma advance_to_eof_shape fuel : forall t lx t' lx',
  well_nested lx ->
  last (doc_ lx) = Some t ->
  ~ In token_type.Eof (removelast (doc_ lx)) ->
  (t = token_type.Eof -> last_indent_ lx = 0) ->
  advance_to_eof fuel (Ok t lx) = Ok t' lx' ->
  t' = token_type.Eof
  /\ well_nested lx'
  /\ last_indent_ lx' = 0
  /\ exists body, doc_ lx' = body ++ [token_type.Eof]
                  /\ ~ In token_type.Eof body.
Proof.
  assert (Hstop : forall t lx t' lx',
             well_nested lx -> last (doc_ lx) = Some t ->
             ~ In token_type.Eof (removelast (doc_ lx)) ->
             (t = token_type.Eof -> last_indent_ lx = 0) ->
             token_type.IsEof t = true -> Ok t lx = Ok t' lx' ->
             t' = token_type.Eof /\ well_nested lx' /\ last_indent_ lx' = 0
             /\ exists body, doc_ lx' = body ++ [token_type.Eof]
                             /\ ~ In token_type.Eof body).
  { intros t lx t' lx' Hw Hlast Hno Hz He [= <- <-].
    destruct t; try done.
    split; [done|]. split; [done|]. split; [by apply Hz|].
    exists (removelast (doc_ lx)). split; [|done].
    by apply last_removelast. }
  induction fuel as [|fuel IH]; intros t lx t' lx' Hw Hlast Hno Hz; simpl.
  - destruct (token_type.IsEof t) eqn:He; [|done]. by apply Hstop.
  - destruct (token_type.IsEof t) eqn:He; [by apply Hstop|].
    destruct (NextToken lx) as [t1 lx1|] eqn:Hn; [|by destruct fuel].
    pose proof (well_nested_level lx Hw) as HL.
    destruct (NextToken_step lx t1 lx1 HL Hn)
      as (_ & Hz1 & [[Hd _]|(_ & _ & Hlast' & _)]).
    + apply IH; [by eapply well_nested_step| | |done].
      * by rewrite Hd, last_snoc.
      * rewrite Hd, removelast_last. intros Hin.
        rewrite (last_removelast _ _ Hlast) in Hin.
        apply in_app_or in Hin as [Hin|[Hin|[]]]; [done|]. by subst t.
    + rewrite Hlast in Hlast'. by injection Hlast' as ->.
Qed.

(** X13: the tokens of a whole input end with the one and only [Eof],
    every prefix of them has at least as many [Indent]s as [Dedent]s,
    and the whole has as many of the one as of the other. *)
Theorem lex_ends_with_Eof_balanced fuel text t lx :
  lex fuel text = Ok t lx ->
  t = token_type.Eof
  /\ (exists body, doc_ lx = body ++ [token_type.Eof]
                   /\ ~ In token_type.Eof body)
  /\ level_of (doc_ lx) = 0
  /\ (forall pre post, doc_ lx = pre ++ post -> 0 <= level_of pre).
Proof.
  unfold lex, new_Lexer.
  set (lx0 := mk_Lexer "000"%char _ [] 0 false).
  assert (Hw0 : well_nested lx0).
  { split; [done|]. intros pre post Hpp. cbn in Hpp.
    symmetry in Hpp. apply app_eq_nil in Hpp as [-> _]. done. }
  destruct (NextToken lx0) as [t1 lx1|] eqn:Hn; [|by destruct fuel].
  destruct (NextToken_step lx0 t1 lx1 ltac:(done) Hn)
    as (_ & Hz1 & [[Hd _]|(_ & _ & Hlast & _)]); [|done].
  intros Ha.
  destruct (advance_to_eof_shape fuel t1 lx1 t lx) as (-> & Hw & Hz & Hb);
    [by eapply well_nested_step|by rewrite Hd|rewrite Hd; by intros []
    |done|done|].
  destruct Hw as [Hlev Hpre]. repeat split; try done. by rewrite Hlev.
Qed.

Lemma lex_ends_with_Eof_balanced_witness :
  exists t lx,
    lex 10 unfinished_block = Ok t lx
    /\ (t = token_type.Eof
        /\ (exists body, doc_ lx = body ++ [token_type.Eof]
                         /\ ~ In token_type.Eof body)
        /\ level_of (doc_ lx) = 0
        /\ (forall pre post, doc_ lx = pre ++ post -> 0 <= level_of pre)).
Proof.
  eexists _, _. split; [vm_compute; reflexivity|].
  apply (lex_ends_with_Eof_balanced 10 unfinished_block).
  vm_compute. reflexivity.
Defined.

(** ** Reading and putting back *)

Lemma good_bits s : good s = true -> eofbit s = false /\ failbit s = false.
Proof. unfold good. destruct (eofbit s), (failbit s); done. Qed.

Lemma get_c_fail lx :
  pending (input_ lx) = [] \/ good (input_ lx) = false ->
  (get_c lx).1 = false /\ good (input_ (get_c lx).2) = false
  /\ pending (input_ (get_c lx).2) = pending (input_ lx)
  /\ c_ (get_c lx).2 = c_ lx
  /\ failbit (input_ (get_c lx).2) = true.
Proof.
  unfold get_c, get. intros [Hp|Hg].
  - rewrite Hp. destruct (good (input_ lx)) eqn:Hg; cbn; [done|].
    unfold good. cbn. by rewrite orb_true_r.
  - rewrite Hg. cbn. unfold good. cbn. by rewrite orb_true_r.
Qed.

Lemma RemoveSpaces_loop_pending fuel : forall lx,
  good (input_ lx) = true ->
  (length (pending (input_ lx)) < fuel)%nat ->
  pending (input_ (RemoveSpaces_loop fuel lx)) = skip_spaces (pending (input_ lx)).
Proof.
  induction fuel as [|fuel IH]; intros lx Hg Hf; [lia|].
  cbn [RemoveSpaces_loop].
  destruct (pending (input_ lx)) as [|c p] eqn:Hp.
  - destruct (get_c_fail lx (or_introl Hp)) as (H1 & _ & H3 & _ & _).
    destruct (get_c lx) as [[] lx1]; [done|]. cbn in *. by rewrite H3, Hp.
  - rewrite (get_c_char lx c p Hg Hp). cbn [c_]. simpl skip_spaces.
    destruct (Ascii.eqb c SPACE); cbn [negb].
    + rewrite IH; [done|done|]. cbn. simpl in Hf. lia.
    + done.
Qed.

(** X2: [RemoveSpaces] drops the spaces ahead, nothing else, and leaves
    the tokens and the level alone. *)
Theorem RemoveSpaces_skips lx :
  good (input_ lx) = true ->
  pending (input_ (RemoveSpaces lx)) = skip_spaces (pending (input_ lx))
  /\ doc_ (RemoveSpaces lx) = doc_ lx
  /\ last_indent_ (RemoveSpaces lx) = last_indent_ lx.
Proof.
  intros Hg. split.
  - apply RemoveSpaces_loop_pending; [done|]. unfold loop_bound. lia.
  - apply RemoveSpaces_same.
Qed.

Lemma RemoveSpaces_skips_witness :
  pending (input_ (RemoveSpaces (reading "x" "  y"))) = ["y"%char]
  /\ doc_ (RemoveSpaces (reading "x" "  y")) = []
  /\ last_indent_ (RemoveSpaces (reading "x" "  y")) = 0.
Proof. apply (RemoveSpaces_skips (reading "x" "  y")). reflexivity. Defined.

(** ** Blank lines *)

Lemma replicate_shift {A} n (x : A) l :
  replicate n x ++ x :: l = x :: replicate n x ++ l.
Proof. induction n as [|n IH]; [done|]. simpl. by rewrite IH. Qed.

Lemma iter_unget_spaces n : forall cons0 pend,
  Nat.iter n unget (mk_istream (replicate n SPACE ++ cons0) pend false false)
  = mk_istream cons0 (replicate n SPACE ++ pend) false false.
Proof.
  induction n as [|n IH]; intros cons0 pend; [done|].
  rewrite Nat.iter_succ_r. cbn [replicate app]. unfold unget at 2.
  cbn [failbit consumed pending]. rewrite IH. by rewrite replicate_shift.
Qed.

Lemma iter_do_unget n lx :
  Nat.iter n do_unget lx = set_input (Nat.iter n unget (input_ lx)) lx.
Proof.
  induction n as [|n IH]; [by destruct lx|]. simpl. rewrite IH. done.
Qed.

(** With [n] spaces of the line already read and [k] more ahead, the
    loop of [RemoveEmptyLines] puts the whole line back. *)
Lemma RemoveEmptyLines_loop_line k : forall fuel n lx cons0 c rest,
  input_ lx = mk_istream (replicate n SPACE ++ cons0)
                         (replicate k SPACE ++ c :: rest) false false ->
  starts_token c ->
  (k < fuel)%nat ->
  RemoveEmptyLines_loop fuel n lx
  = mk_Lexer c
      (mk_istream cons0 (replicate (n + k) SPACE ++ c :: rest) false false)
      (doc_ lx) (last_indent_ lx) (dedent_chain_ lx).
Proof.
  induction k as [|k IH]; intros [|fuel] n lx cons0 c rest Hi Hc Hf;
    try lia; cbn [RemoveEmptyLines_loop].
  - rewrite (get_c_char lx c rest) by (by rewrite Hi). cbn [c_].
    destruct Hc as (Hs & Hl & Hh).
    destruct (Ascii.eqb_spec c HASH); [done|].
    destruct (Ascii.eqb_spec c SPACE); [done|].
    destruct (Ascii.eqb_spec c LF); [done|]. cbn [negb andb].
    rewrite iter_do_unget. cbn [input_ set_input].
    rewrite Nat.iter_succ_r. unfold unget at 2.
    cbn [failbit consumed pending]. rewrite Hi. cbn [consumed].
    rewrite iter_unget_spaces. by rewrite Nat.add_0_r.
  - rewrite (get_c_char lx SPACE (replicate k SPACE ++ c :: rest))
      by (by rewrite Hi).
    cbn [c_]. change (Ascii.eqb SPACE HASH) with false.
    change (Ascii.eqb SPACE SPACE) with true.
    change (Ascii.eqb SPACE LF) with false. cbn [negb andb].
    rewrite (IH fuel (S n) _ cons0 c rest); [|by rewrite Hi|done|lia].
    cbn. by rewrite Nat.add_succ_r.
Qed.

Lemma RemoveEmptyLines_loop_blank_lines l : forall fuel n lx cons k c rest,
  input_ lx = mk_istream cons (l ++ LF :: replicate k SPACE ++ c :: rest)
                         false false ->
  Forall blank_char l ->
  starts_token c ->
  (length l + 1 + k < fuel)%nat ->
  RemoveEmptyLines_loop fuel n lx
  = mk_Lexer c
      (mk_istream (LF :: rev l ++ cons) (replicate k SPACE ++ c :: rest)
                  false false)
      (doc_ lx) (last_indent_ lx) (dedent_chain_ lx).
Proof.
  induction l as [|x l IH]; intros [|fuel] n lx cons k c rest Hi Hl Hc Hf;
    try (simpl in Hf; lia); cbn [RemoveEmptyLines_loop].
  - rewrite (get_c_char lx LF (replicate k SPACE ++ c :: rest))
      by (by rewrite Hi).
    cbn [c_]. change (Ascii.eqb LF HASH) with false.
    change (Ascii.eqb LF SPACE) with false.
    change (Ascii.eqb LF LF) with true. cbn [negb andb].
    rewrite (RemoveEmptyLines_loop_line k fuel 0 _ (LF :: cons) c rest);
      [done|by rewrite Hi|done|simpl in Hf; lia].
  - apply Forall_cons in Hl as [Hx Hl].
    rewrite (get_c_char lx x (l ++ LF :: replicate k SPACE ++ c :: rest))
      by (by rewrite Hi).
    cbn [c_]. simpl in Hf.
    destruct Hx as [-> | ->].
    + change (Ascii.eqb SPACE HASH) with false.
      change (Ascii.eqb SPACE SPACE) with true.
      change (Ascii.eqb SPACE LF) with false. cbn [negb andb].
      rewrite (IH fuel (S n) _ (SPACE :: cons) k c rest);
        [|by rewrite Hi|done|done|lia].
      cbn. by rewrite <- app_assoc.
    + change (Ascii.eqb LF HASH) with false.
      change (Ascii.eqb LF SPACE) with false.
      change (Ascii.eqb LF LF) with true. cbn [negb andb].
      rewrite (IH fuel 0%nat _ (LF :: cons) k c rest);
        [|by rewrite Hi|done|done|lia].
      cbn. by rewrite <- app_assoc.
Qed.

Lemma RemoveEmptyLines_line lx cons blanks k c rest :
  input_ lx = mk_istream cons (blanks ++ replicate k SPACE ++ c :: rest)
                         false false ->
  Forall blank_char blanks ->
  blanks = [] \/ last blanks = Some LF ->
  starts_token c ->
  RemoveEmptyLines lx
  = mk_Lexer c
      (mk_istream (rev blanks ++ cons) (replicate k SPACE ++ c :: rest)
                  false false)
      (doc_ lx) (last_indent_ lx) (dedent_chain_ lx).
Proof.
  intros Hi Hb Hlast Hc. unfold RemoveEmptyLines, loop_bound.
  destruct Hlast as [->|Hlast].
  - rewrite (RemoveEmptyLines_loop_line k _ 0 lx cons c rest); [done|done|done|].
    rewrite Hi. cbn. rewrite length_app, length_replicate. lia.
  - apply last_removelast in Hlast. revert Hlast.
    generalize (removelast blanks). intros l ->.
    rewrite <- app_assoc in Hi. cbn [app] in Hi.
    apply Forall_app in Hb as [Hb _].
    rewrite (RemoveEmptyLines_loop_blank_lines l _ 0 lx cons k c rest);
      [|done|done|done|].
    + by rewrite rev_unit.
    + rewrite Hi. cbn [pending]. rewrite length_app. cbn [length].
      rewrite length_app, length_replicate. cbn [length]. lia.
Qed.

(** X3: [RemoveEmptyLines] reads over blank lines and puts the stream
    back at the start of the first line that has a token, spaces and
    all; [c_] holds the first character of that token. *)
Theorem RemoveEmptyLines_finds_line lx cons blanks k c rest :
  input_ lx = mk_istream cons (blanks ++ replicate k SPACE ++ c :: rest)
                         false false ->
  Forall blank_char blanks ->
  blanks = [] \/ last blanks = Some LF ->
  starts_token c ->
  RemoveEmptyLines lx
  = mk_Lexer c
      (mk_istream (rev blanks ++ cons) (replicate k SPACE ++ c :: rest)
                  false false)
      (doc_ lx) (last_indent_ lx) (dedent_chain_ lx).
Proof. apply RemoveEmptyLines_line. Qed.

Lemma RemoveEmptyLines_finds_line_witness :
  RemoveEmptyLines (fresh_Lexer (line " " +:+ line "" +:+ line "  x"))
  = mk_Lexer "x"
      (mk_istream [LF; LF; SPACE] [SPACE; SPACE; "x"; LF]%char false false)
      [] 0 false.
Proof.
  apply (RemoveEmptyLines_finds_line
           (fresh_Lexer (line " " +:+ line "" +:+ line "  x")) []
           [SPACE; LF; LF] 2 "x"%char [LF]).
  - reflexivity.
  - repeat (constructor; [first [left; reflexivity|right; reflexivity]|]).
    constructor.
  - right. reflexivity.
  - repeat split; discriminate.
Defined.

(** On text that holds blank and comment lines only the loop of
    [RemoveEmptyLines] uses up the input. *)
Lemma RemoveEmptyLines_loop_blank_text fuel : forall n lx,
  (length (pending (input_ lx)) < fuel)%nat ->
  good (input_ lx) = false \/ blank_text false (pending (input_ lx)) = true ->
  (get_c (RemoveEmptyLines_loop fuel n lx)).1 = false.
Proof.
  induction fuel as [|fuel IH]; intros n lx Hf Hb; [lia|].
  cbn [RemoveEmptyLines_loop].
  destruct (good (input_ lx)) eqn:Hg; cycle 1.
  { destruct (get_c_fail lx (or_intror Hg)) as (H1 & H2 & _ & _ & _).
    destruct (get_c lx) as [[] lx1]; [done|].
    by destruct (get_c_fail lx1 (or_intror H2)). }
  destruct Hb as [|Hb]; [done|].
  destruct (pending (input_ lx)) as [|c p] eqn:Hp.
  { destruct (get_c_fail lx (or_introl Hp)) as (H1 & H2 & _ & _ & _).
    destruct (get_c lx) as [[] lx1]; [done|].
    by destruct (get_c_fail lx1 (or_intror H2)). }
  rewrite (get_c_char lx c p Hg Hp). cbn [c_]. simpl in Hb, Hf.
  destruct (Ascii.eqb c HASH).
  - apply IH.
    + cbn. unfold getline. cbn [good eofbit failbit orb negb pending].
      destruct p as [|d p']; [cbn; lia|].
      destruct (split_line (d :: p')) as [[ln rest] found] eqn:Hs. cbn.
      assert (length rest <= length (d :: p'))%nat; [|simpl in *; lia].
      clear -Hs. revert ln rest found Hs.
      generalize (d :: p'). intros l. induction l as [|x l IHl];
        intros ln rest found; simpl; [by intros [= <- <- <-]|].
      destruct (Ascii.eqb x LF); [intros [= <- <- <-]; lia|].
      destruct (split_line l) as [[ln' rest'] f'].
      intros [= <- <- <-]. specialize (IHl _ _ _ eq_refl). lia.
    + cbn. unfold getline. cbn [good eofbit failbit orb negb pending].
      destruct p as [|d p']; [left; by cbn|].
      destruct (split_line (d :: p')) as [[ln rest] found] eqn:Hs. cbn.
      right. clear -Hs Hb. revert ln rest found Hs Hb.
      generalize (d :: p'). intros l. induction l as [|x l IHl];
        intros ln rest found; simpl; [by intros [= <- <- <-]|].
      destruct (Ascii.eqb x LF); [by intros [= <- <- <-]|].
      destruct (split_line l) as [[ln' rest'] f'].
      intros [= <- <- <-]. cbn [negb]. by apply (IHl _ _ _ eq_refl).
  - apply andb_true_iff in Hb as [Hc Hb].
    destruct (Ascii.eqb c SPACE) eqn:Hs; cbn [negb andb orb] in *.
    + destruct (Ascii.eqb c LF); apply IH; cbn; try lia; by right.
    + rewrite Hc. cbn [negb]. apply IH; cbn; try lia; by right.
Qed.

(** X4: an input of blank lines and comment lines only gives the single
    token [Eof]. *)
Theorem blank_input_gives_Eof text :
  blank_text false text = true ->
  exists lx,
    new_Lexer (istringstream text) = Ok token_type.Eof lx
    /\ doc_ lx = [token_type.Eof].
Proof.
  intros Hb. unfold new_Lexer, NextToken. cbn [doc_ last].
  set (lx0 := mk_Lexer _ _ _ _ _).
  pose proof (RemoveEmptyLines_same lx0) as [Hd Hl].
  pose proof (RemoveEmptyLines_loop_blank_text (loop_bound lx0) 0
                lx0 ltac:(unfold loop_bound; lia) (or_intror Hb)) as Hg.
  fold (RemoveEmptyLines lx0) in Hg.
  pose proof (get_c_same (RemoveEmptyLines lx0)) as [Hd1 Hl1].
  destruct (get_c (RemoveEmptyLines lx0)) as [[] lx1]; [done|].
  cbn [snd] in Hd1, Hl1. unfold NextToken_exhausted.
  rewrite Hl1, Hl, Hd1, Hd. cbn. eexists. split; [done|]. cbn.
  by rewrite Hd1, Hd.
Qed.

Lemma blank_input_gives_Eof_witness :
  exists lx,
    new_Lexer (istringstream
                 (list_ascii_of_string (line "  # note" +:+ line "")))
    = Ok token_type.Eof lx
    /\ doc_ lx = [token_type.Eof].
Proof. apply blank_input_gives_Eof. reflexivity. Defined.

(** ** Indentation by more than one level *)

(** With [m >= 1] spaces to go until the next level is reached, and at
    least that many ahead, the loop of [IsIndentLexeme] stops right
    after them with an [Indent]. *)
Lemma IsIndentLexeme_loop_indent m : forall fuel count lx cons tail,
  input_ lx = mk_istream cons (replicate (S m) SPACE ++ tail) false false ->
  1 <= count ->
  count + Z.of_nat (S m) = 2 * last_indent_ lx + 2 ->
  (m < fuel)%nat ->
  IsIndentLexeme_loop fuel count lx
  = (true,
     mk_Lexer SPACE (mk_istream (replicate (S m) SPACE ++ cons) tail false false)
              (doc_ lx ++ [token_type.Indent]) (last_indent_ lx + 1)
              (dedent_chain_ lx)).
Proof.
  induction m as [|m IH]; intros [|fuel] count lx cons tail Hi H1 Hc Hf;
    try lia; cbn [IsIndentLexeme_loop];
    (assert (Hg : good (input_ lx) = true) by (by rewrite Hi)).
  - assert (Hp : pending (input_ lx) = SPACE :: tail) by (by rewrite Hi).
    rewrite (get_c_char lx SPACE _ Hg Hp).
    cbn [c_ last_indent_]. rewrite Ascii.eqb_refl.
    destruct (Z.eqb_spec ((count + 1) ÷ 2 - 1) (last_indent_ lx)) as [_|Hne].
    + rewrite Hi. done.
    + exfalso. apply Hne.
      replace (count + 1) with (2 * (last_indent_ lx + 1)) by lia.
      rewrite Z.mul_comm, Z.quot_mul by lia. lia.
  - assert (Hp : pending (input_ lx)
                 = SPACE :: replicate (S m) SPACE ++ tail) by (by rewrite Hi).
    rewrite (get_c_char lx SPACE _ Hg Hp).
    cbn [c_ last_indent_]. rewrite Ascii.eqb_refl.
    destruct (Z.eqb_spec ((count + 1) ÷ 2 - 1) (last_indent_ lx)) as [He|_].
    + exfalso. rewrite Z.quot_div_nonneg in He by lia.
      revert He Hc H1. generalize (last_indent_ lx). intros L He Hc H1.
      Z.div_mod_to_equations. lia.
    + rewrite (IH fuel (count + 1) _ (SPACE :: cons) tail);
        [|by rewrite Hi|lia|cbn [last_indent_]; lia|lia].
      cbn [doc_ last_indent_ dedent_chain_].
      by rewrite (replicate_shift (S m)).
Qed.

(** X10: a line that starts more than one level deeper than the one
    before (by [2 * level + 3] spaces or more) gets one [Indent]; the
    advance after that throws a [LexerError]. *)
Theorem deeper_indent_is_an_error lx cons level extra c rest :
  last (doc_ lx) = Some token_type.Newline ->
  last_indent_ lx = Z.of_nat level ->
  input_ lx
  = mk_istream cons (replicate (2 * level + 2 + S extra) SPACE ++ c :: rest)
               false false ->
  starts_token c ->
  exists lx1,
    NextToken lx = Ok token_type.Indent lx1
    /\ NextToken lx1
       = Throw (LexerError "ParseNextToken(): FLAG error-- ").
Proof.
  intros Hlast HL Hi Hc.
  eexists. split.
  - unfold NextToken. rewrite Hlast. cbn [token_type.IsNewline].
    rewrite (RemoveEmptyLines_line lx cons [] _ c rest Hi);
      [|done|by left|done].
    cbn [rev app].
    replace (2 * level + 2 + S extra)%nat with (S (S (2 * level) + S extra))
      by lia.
    cbn [replicate app].
    rewrite (get_c_char _ SPACE
               (replicate (S (2 * level) + S extra) SPACE ++ c :: rest));
      [|reflexivity|reflexivity].
    cbn [c_ doc_ input_ last_indent_ dedent_chain_ consumed].
    rewrite Ascii.eqb_refl.
    unfold current_is_newline, CurrentToken, back. cbn [doc_].
    rewrite Hlast. cbn [token_type.IsNewline].
    unfold IsIndentLexeme.
    rewrite replicate_add, <- app_assoc.
    rewrite (IsIndentLexeme_loop_indent (2 * level) _ 1 _ (SPACE :: cons)
               (replicate (S extra) SPACE ++ c :: rest));
      [|done|lia|cbn [last_indent_]; lia|].
    + unfold back. cbn [doc_]. rewrite last_snoc. reflexivity.
    + unfold loop_bound. cbn [input_ pending].
      rewrite length_app, length_replicate. lia.
  - unfold NextToken. cbn [doc_]. rewrite last_snoc.
    cbn [token_type.IsNewline replicate app].
    rewrite (get_c_char _ SPACE (replicate extra SPACE ++ c :: rest));
      [|reflexivity|reflexivity].
    cbn [c_ doc_ input_ last_indent_ dedent_chain_ consumed].
    rewrite Ascii.eqb_refl.
    unfold current_is_newline, CurrentToken, back. cbn [doc_].
    rewrite last_snoc. cbn [token_type.IsNewline]. reflexivity.
Qed.

Lemma deeper_indent_is_an_error_witness :
  exists lx1,
    NextToken
      (mk_Lexer LF
         (mk_istream [LF; "a"%char] [SPACE; SPACE; SPACE; "b"%char]
                     false false)
         [token_type.Id "a"; token_type.Newline] 0 false)
    = Ok token_type.Indent lx1
    /\ NextToken lx1
       = Throw (LexerError "ParseNextToken(): FLAG error-- ").
Proof.
  apply (deeper_indent_is_an_error _ [LF; "a"%char] 0 0 "b"%char []);
    [reflexivity|reflexivity|reflexivity|repeat split; discriminate].
Defined.

(** ** Lexemes *)

Lemma append_cons d s t :
  String.String d s +:+ t = String.String d (s +:+ t).
Proof. reflexivity. Qed.

Lemma push_back_append s c : push_back s c = s +:+ String.String c "".
Proof.
  induction s as [|d s IH]; [done|]. rewrite append_cons, <- IH. done.
Qed.

Lemma append_empty_r s : s +:+ "" = s.
Proof. induction s as [|d s IH]; [done|]. by rewrite append_cons, IH. Qed.

Lemma append_assoc s1 s2 s3 : (s1 +:+ s2) +:+ s3 = s1 +:+ (s2 +:+ s3).
Proof.
  induction s1 as [|d s IH]; [done|]. by rewrite !append_cons, IH.
Qed.

Lemma push_back_chars s l :
  fold_left push_back l s = s +:+ string_of_list_ascii l.
Proof.
  revert s. induction l as [|c l IH]; intros s; simpl.
  - by rewrite append_empty_r.
  - by rewrite IH, push_back_append, append_assoc.
Qed.

Lemma RemoveSpaces_pending lx :
  good (input_ lx) = true \/ pending (input_ lx) = [] ->
  pending (input_ (RemoveSpaces lx)) = skip_spaces (pending (input_ lx)).
Proof.
  intros [Hg|Hp];
    [apply RemoveSpaces_loop_pending; [done|unfold loop_bound; lia]|].
  unfold RemoveSpaces, loop_bound. rewrite Hp. cbn [length RemoveSpaces_loop].
  destruct (get_c_fail lx (or_introl Hp)) as (H1 & _ & H3 & _ & _).
  destruct (get_c lx) as [[] lx1]; [done|]. cbn in *. by rewrite H3, Hp.
Qed.

Lemma GetIdOrKeyLexeme_loop_spec body : forall fuel lexeme lx cons tail,
  input_ lx = mk_istream cons (body ++ tail) false false ->
  forallb id_char body = true ->
  stops_at (fun c => negb (id_char c)) tail ->
  (length body < fuel)%nat ->
  let r := GetIdOrKeyLexeme_loop fuel lexeme lx in
  r.1 = fold_left push_back body lexeme
  /\ pending (input_ r.2) = tail
  /\ (good (input_ r.2) = true \/ tail = []).
Proof.
  induction body as [|b body IH]; intros [|fuel] lexeme lx cons tail Hi Hb Ht Hf;
    try (simpl in Hf; lia); cbn [GetIdOrKeyLexeme_loop].
  - destruct tail as [|c rest].
    + assert (Hp : pending (input_ lx) = []) by (by rewrite Hi).
      destruct (get_c_fail lx (or_introl Hp)) as (H1 & _ & H3 & _ & _).
      destruct (get_c lx) as [[] lx1]; [done|]. cbn in *.
      rewrite H3, Hi. auto.
    + rewrite (get_c_char lx c rest) by (by rewrite Hi). cbn [c_].
      cbn in Ht. unfold id_char in Ht. apply negb_true_iff in Ht.
      rewrite Ht. cbn. auto.
  - rewrite (get_c_char lx b (body ++ tail)) by (by rewrite Hi). cbn [c_].
    cbn in Hb. apply andb_true_iff in Hb as [Hb1 Hb]. unfold id_char in Hb1.
    rewrite Hb1.
    apply (IH fuel (push_back lexeme b) _ (b :: cons) tail);
      [by rewrite Hi|done|done|simpl in Hf; lia].
Qed.

(** X5: [GetIdOrKeyLexeme] takes the longest run of identifier
    characters, appends the keyword token or [Id] of the run, and skips
    the spaces after it. *)
Theorem GetIdOrKeyLexeme_longest_run lx cons body tail :
  input_ lx = mk_istream cons (body ++ tail) false false ->
  forallb id_char body = true ->
  stops_at (fun c => negb (id_char c)) tail ->
  let t := keyword (string_of_list_ascii (c_ lx :: body)) in
  exists lx',
    GetIdOrKeyLexeme lx = Ok t lx'
    /\ doc_ lx' = doc_ lx ++ [t]
    /\ last_indent_ lx' = last_indent_ lx
    /\ pending (input_ lx') = skip_spaces tail.
Proof.
  intros Hi Hb Ht t.
  pose proof (GetIdOrKeyLexeme_loop_spec body (loop_bound lx)
                (String.String (c_ lx) "") lx cons tail Hi Hb Ht) as Hl.
  pose proof (GetIdOrKeyLexeme_loop_same (loop_bound lx)
                (String.String (c_ lx) "") lx) as [Hd HL].
  unfold GetIdOrKeyLexeme.
  destruct (GetIdOrKeyLexeme_loop _ _ _) as [s lx1]. cbn [fst snd] in *.
  destruct Hl as (-> & Hp & Hg).
  { unfold loop_bound. rewrite Hi. cbn. rewrite length_app. lia. }
  rewrite push_back_chars.
  change (String.String (c_ lx) "" +:+ string_of_list_ascii body)
    with (string_of_list_ascii (c_ lx :: body)). fold t.
  destruct (RemoveSpaces_same (emplace_back t lx1)) as [Hd2 HL2].
  cbn [doc_ last_indent_ emplace_back] in Hd2, HL2.
  exists (RemoveSpaces (emplace_back t lx1)). unfold back.
  rewrite Hd2, last_snoc, Hd, HL2, HL. repeat split.
  rewrite RemoveSpaces_pending; cbn [input_ emplace_back].
  - by rewrite Hp.
  - destruct Hg as [Hg| ->]; [by left|right; by rewrite Hp].
Qed.

Lemma GetIdOrKeyLexeme_longest_run_witness :
  exists lx',
    GetIdOrKeyLexeme (reading "i" "f x") = Ok token_type.If lx'
    /\ doc_ lx' = [token_type.If]
    /\ last_indent_ lx' = 0
    /\ pending (input_ lx') = ["x"%char].
Proof.
  apply (GetIdOrKeyLexeme_longest_run (reading "i" "f x") ["i"%char]
           ["f"%char] [SPACE; "x"%char]); reflexivity.
Defined.

(** ** Numbers *)

Lemma digit_goes_on c : isdigit c = true -> ends_number c = false.
Proof. destruct c as [[] [] [] [] [] [] [] []]; by vm_compute. Qed.

Lemma GetNumberLexeme_loop_digits ds : forall fuel lexeme lx cons tail,
  input_ lx = mk_istream cons (ds ++ tail) false false ->
  forallb isdigit ds = true ->
  (length ds < fuel)%nat ->
  exists lx1,
    input_ lx1 = mk_istream (rev ds ++ cons) tail false false
    /\ same_tokens lx lx1
    /\ GetNumberLexeme_loop fuel lexeme lx
       = GetNumberLexeme_loop (fuel - length ds)
           (fold_left push_back ds lexeme) lx1.
Proof.
  induction ds as [|d ds IH]; intros fuel lexeme lx cons tail Hi Hd Hf.
  - exists lx. rewrite Nat.sub_0_r. by rewrite Hi.
  - destruct fuel as [|fuel]; [simpl in Hf; lia|].
    cbn in Hd. apply andb_true_iff in Hd as [Hd1 Hd].
    destruct (IH fuel (push_back lexeme d)
                (mk_Lexer d (mk_istream (d :: cons) (ds ++ tail) false false)
                   (doc_ lx) (last_indent_ lx) (dedent_chain_ lx))
                (d :: cons) tail eq_refl Hd ltac:(simpl in Hf; lia))
      as (lx1 & Hi1 & Hs1 & Hl1).
    exists lx1. split; [rewrite Hi1; cbn [rev]; by rewrite <- app_assoc|].
    split; [by destruct Hs1|].
    cbn [GetNumberLexeme_loop].
    rewrite (get_c_char lx d (ds ++ tail)) by (by rewrite Hi). cbn [c_].
    pose proof (digit_goes_on d Hd1) as Hn. unfold ends_number in Hn.
    apply orb_false_iff in Hn as [-> ->]. cbn [negb andb]. rewrite Hd1.
    rewrite Hi. cbn [consumed]. exact Hl1.
Qed.

(** X7: digits followed at once by a character that is neither a digit
    nor one that may end a number are a [LexerError]. *)
Theorem GetNumberLexeme_rejects_letter lx cons ds c rest :
  input_ lx = mk_istream cons (ds ++ c :: rest) false false ->
  forallb isdigit ds = true ->
  isdigit c = false ->
  ends_number c = false ->
  GetNumberLexeme lx
  = Throw (LexerError "GetNumberLexeme(): Wrong number format").
Proof.
  intros Hi Hd Hc He. unfold GetNumberLexeme.
  destruct (GetNumberLexeme_loop_digits ds (loop_bound lx)
              (String.String (c_ lx) "") lx cons (c :: rest) Hi Hd)
    as (lx1 & Hi1 & _ & ->).
  { unfold loop_bound. rewrite Hi. cbn. rewrite length_app. lia. }
  unfold loop_bound. rewrite Hi. cbn [pending]. rewrite length_app.
  replace (S (length ds + length (c :: rest)) - length ds)%nat
    with (S (length (c :: rest))) by lia.
  cbn [GetNumberLexeme_loop].
  rewrite (get_c_char lx1 c rest) by (by rewrite Hi1). cbn [c_].
  unfold ends_number in He. apply orb_false_iff in He as [-> ->].
  cbn [negb andb]. by rewrite Hc.
Qed.

Lemma GetNumberLexeme_rejects_letter_witness :
  GetNumberLexeme (reading "1" "2a")
  = Throw (LexerError "GetNumberLexeme(): Wrong number format").
Proof.
  apply (GetNumberLexeme_rejects_letter (reading "1" "2a") ["1"%char]
           ["2"%char] "a"%char []); reflexivity.
Defined.

Lemma digits_value_acc s : forall acc,
  digits_value acc s
  = acc * 10 ^ Z.of_nat (String.length s) + digits_value 0 s.
Proof.
  induction s as [|d s IH]; intros acc.
  - cbn. lia.
  - cbn [digits_value String.length]. rewrite IH, (IH (10 * 0 + _)).
    rewrite Nat2Z.inj_succ, Z.pow_succ_r by lia. lia.
Qed.

Lemma pretty_N_char_code x :
  (x < 10)%N -> code (pretty_N_char x) - 48 = Z.of_N x.
Proof.
  intros Hx.
  assert (x = 0 \/ x = 1 \/ x = 2 \/ x = 3 \/ x = 4 \/ x = 5 \/ x = 6
          \/ x = 7 \/ x = 8 \/ x = 9)%N as Hc by lia.
  repeat (destruct Hc as [->|Hc]; [done|]). by subst.
Qed.

Lemma pretty_N_char_digit x : isdigit (pretty_N_char x) = true.
Proof. unfold pretty_N_char. by repeat case_match. Qed.

Lemma pretty_N_go_value x : forall s,
  digits_value 0 (pretty_N_go x s)
  = Z.of_N x * 10 ^ Z.of_nat (String.length s) + digits_value 0 s.
Proof.
  induction (N.lt_wf_0 x) as [x _ IH]; intros s.
  destruct (decide (x = 0%N)) as [->|Hx].
  - rewrite pretty_N_go_0. lia.
  - rewrite pretty_N_go_step by lia.
    rewrite IH by (apply N.div_lt; lia).
    cbn [digits_value String.length].
    rewrite digits_value_acc, pretty_N_char_code by (apply N.mod_lt; lia).
    rewrite Nat2Z.inj_succ, Z.pow_succ_r by lia.
    rewrite (N.div_mod x 10) at 3 by lia.
    rewrite N2Z.inj_add, N2Z.inj_mul. change (Z.of_N 10) with 10. lia.
Qed.

Lemma pretty_N_go_digits x : forall s,
  forallb isdigit (list_ascii_of_string s) = true ->
  forallb isdigit (list_ascii_of_string (pretty_N_go x s)) = true.
Proof.
  induction (N.lt_wf_0 x) as [x _ IH]; intros s Hs.
  destruct (decide (x = 0%N)) as [->|Hx].
  - by rewrite pretty_N_go_0.
  - rewrite pretty_N_go_step by lia. apply IH; [apply N.div_lt; lia|].
    cbn. by rewrite pretty_N_char_digit.
Qed.

(** The decimal text of a number that is not negative is digits only and
    reads back as the number. *)
Lemma pretty_Z_digits n :
  0 <= n ->
  forallb isdigit (list_ascii_of_string (pretty n)) = true
  /\ digits_value 0 (pretty n) = n.
Proof.
  intros Hn. destruct n as [|p|p]; [done| |lia].
  unfold pretty, pretty_Z, pretty, pretty_positive, pretty, pretty_N.
  destruct (decide (N.pos p = 0%N)); [done|]. split.
  - by apply pretty_N_go_digits.
  - rewrite pretty_N_go_value. cbn. lia.
Qed.

Lemma digits_value_bounds s : forall acc,
  forallb isdigit (list_ascii_of_string s) = true ->
  0 <= acc -> 0 <= digits_value acc s.
Proof.
  induction s as [|d s IH]; intros acc Hd Ha; [done|].
  cbn in Hd. apply andb_true_iff in Hd as [Hd1 Hd]. cbn [digits_value].
  apply IH; [done|]. unfold isdigit in Hd1.
  apply andb_true_iff in Hd1 as [H1%Z.leb_le _]. lia.
Qed.

Lemma leading_digits_all s :
  forallb isdigit (list_ascii_of_string s) = true -> leading_digits s = s.
Proof.
  induction s as [|d s IH]; [done|]. cbn. intros [-> Hd]%andb_true_iff.
  by rewrite IH.
Qed.

Lemma digit_is_plain d :
  isdigit d = true ->
  isspace d = false /\ Ascii.eqb d "-" = false /\ Ascii.eqb d "+" = false.
Proof. destruct d as [[] [] [] [] [] [] [] []]; by vm_compute. Qed.

(** On a text that is digits only and not empty, [stoi] gives the
    decimal value, or [std::out_of_range] above [INT_MAX]. *)
Lemma stoi_digits d s :
  isdigit d = true ->
  forallb isdigit (list_ascii_of_string s) = true ->
  stoi (String.String d s)
  = if digits_value 0 (String.String d s) <=? INT_MAX
    then inr (digits_value 0 (String.String d s))
    else inl out_of_range.
Proof.
  intros Hd Hs. destruct (digit_is_plain d Hd) as (H1 & H2 & H3).
  unfold stoi. cbn [skip_isspace]. rewrite H1, H2, H3.
  cbn [leading_digits]. rewrite Hd, (leading_digits_all s Hs).
  assert (Hv : 0 <= digits_value 0 (String.String d s)).
  { apply digits_value_bounds; [|done]. cbn. by rewrite Hd. }
  destruct (Z.leb_spec INT_MIN (digits_value 0 (String.String d s)));
    [done|unfold INT_MIN in *; lia].
Qed.

Lemma GetNumberLexeme_value lx cons ds tail :
  input_ lx = mk_istream cons (ds ++ tail) false false ->
  forallb isdigit ds = true ->
  stops_at ends_number tail ->
  exists lx1,
    same_tokens lx lx1
    /\ pending (input_ lx1) = tail
    /\ (good (input_ lx1) = true \/ tail = [])
    /\ GetNumberLexeme lx
       = match stoi (string_of_list_ascii (c_ lx :: ds)) with
         | inr v =>
             back (RemoveSpaces (emplace_back (token_type.Number v) lx1))
         | inl e => Throw e
         end.
Proof.
  intros Hi Hd Ht. unfold GetNumberLexeme.
  destruct (GetNumberLexeme_loop_digits ds (loop_bound lx)
              (String.String (c_ lx) "") lx cons tail Hi Hd)
    as (lx1 & Hi1 & Hs1 & ->).
  { unfold loop_bound. rewrite Hi. cbn. rewrite length_app. lia. }
  unfold loop_bound. rewrite Hi. cbn [pending]. rewrite length_app.
  replace (S (length ds + length tail) - length ds)%nat
    with (S (length tail)) by lia.
  cbn [GetNumberLexeme_loop]. rewrite push_back_chars.
  change (String.String (c_ lx) "" +:+ string_of_list_ascii ds)
    with (string_of_list_ascii (c_ lx :: ds)).
  destruct tail as [|c rest].
  - assert (Hp : pending (input_ lx1) = []) by (by rewrite Hi1).
    destruct (get_c_fail lx1 (or_introl Hp)) as (H1 & H2 & H3 & _ & H5).
    pose proof (get_c_same lx1) as Hs2.
    destruct (get_c lx1) as [[] lx2]; [done|]. cbn [fst snd] in *.
    exists (do_unget lx2). split; [by eapply same_tokens_trans|].
    split; [|split; [by right|done]].
    cbn. unfold unget. by rewrite H5, H3, Hp.
  - rewrite (get_c_char lx1 c rest) by (by rewrite Hi1). cbn [c_].
    cbn in Ht. unfold ends_number in Ht.
    assert (Hn : negb (is_separator c) && negb (count marks_chars c) = false)
      by (by destruct (is_separator c), (count marks_chars c)).
    rewrite Hn.
    eexists. split; [|split; [|split; [|reflexivity]]].
    + destruct Hs1. by split.
    + done.
    + by left.
Qed.

(** X6: when [c_] is a digit, it and the run of digits after it, up to
    a character that may end a number or up to the end of the input,
    give the [Number] token of their decimal value, and the spaces
    after them are skipped; a value above [INT_MAX] makes [stoi] throw
    [std::out_of_range], which is no [LexerError]. *)
Theorem GetNumberLexeme_reads_digits lx cons ds tail :
  isdigit (c_ lx) = true ->
  input_ lx = mk_istream cons (ds ++ tail) false false ->
  forallb isdigit ds = true ->
  stops_at ends_number tail ->
  let v := digits_value 0 (string_of_list_ascii (c_ lx :: ds)) in
  (v <= INT_MAX ->
   exists lx',
     GetNumberLexeme lx = Ok (token_type.Number v) lx'
     /\ doc_ lx' = doc_ lx ++ [token_type.Number v]
     /\ last_indent_ lx' = last_indent_ lx
     /\ pending (input_ lx') = skip_spaces tail)
  /\ (INT_MAX < v -> GetNumberLexeme lx = Throw out_of_range).
Proof.
  intros Hc Hi Hd Ht v.
  destruct (GetNumberLexeme_value lx cons ds tail Hi Hd Ht)
    as (lx1 & [Hd1 HL1] & Hp & Hg & ->).
  cbn [string_of_list_ascii] in *.
  rewrite (stoi_digits (c_ lx) (string_of_list_ascii ds) Hc)
    by (by rewrite list_ascii_of_string_of_list_ascii).
  fold v. split; intros Hv.
  - destruct (Z.leb_spec v INT_MAX); [|lia].
    destruct (RemoveSpaces_same (emplace_back (token_type.Number v) lx1))
      as [Hd2 HL2].
    cbn [doc_ last_indent_ emplace_back] in Hd2, HL2.
    eexists. unfold back. rewrite Hd2, last_snoc. split; [done|].
    rewrite Hd2, HL2, Hd1, HL1. repeat split.
    rewrite RemoveSpaces_pending; cbn [input_ emplace_back]; [by rewrite Hp|].
    destruct Hg as [Hg| ->]; [by left|right; by rewrite Hp].
  - by destruct (Z.leb_spec v INT_MAX); [lia|].
Qed.

Lemma GetNumberLexeme_reads_digits_witness :
  exists lx',
    GetNumberLexeme (reading "4" "2 x") = Ok (token_type.Number 42) lx'
    /\ doc_ lx' = [token_type.Number 42]
    /\ last_indent_ lx' = 0
    /\ pending (input_ lx') = ["x"%char].
Proof.
  apply (GetNumberLexeme_reads_digits (reading "4" "2 x") ["4"%char]
           ["2"%char] [SPACE; "x"%char]);
    [reflexivity|reflexivity|reflexivity|reflexivity
    |vm_compute; discriminate].
Defined.

(** X8: the decimal text that printing gives for a number from [0] to
    [INT_MAX] is lexed back to the [Number] token of that number. *)
Theorem printed_number_is_lexed_back n lx cons ds tail :
  0 <= n <= INT_MAX ->
  string_of_list_ascii (c_ lx :: ds) = pretty n ->
  input_ lx = mk_istream cons (ds ++ tail) false false ->
  stops_at ends_number tail ->
  exists lx',
    GetNumberLexeme lx = Ok (token_type.Number n) lx'
    /\ doc_ lx' = doc_ lx ++ [token_type.Number n]
    /\ pending (input_ lx') = skip_spaces tail.
Proof.
  intros Hn Hs Hi Ht.
  destruct (pretty_Z_digits n ltac:(lia)) as [Hdig Hval].
  rewrite <- Hs in Hdig, Hval.
  rewrite list_ascii_of_string_of_list_ascii in Hdig.
  cbn in Hdig. apply andb_true_iff in Hdig as [Hc Hd].
  destruct (GetNumberLexeme_value lx cons ds tail Hi Hd Ht)
    as (lx1 & [Hd1 HL1] & Hp & Hg & ->).
  cbn [string_of_list_ascii] in *.
  rewrite (stoi_digits (c_ lx) (string_of_list_ascii ds) Hc)
    by (by rewrite list_ascii_of_string_of_list_ascii).
  rewrite Hval.
  destruct (Z.leb_spec n INT_MAX); [|lia].
  destruct (RemoveSpaces_same (emplace_back (token_type.Number n) lx1))
    as [Hd2 HL2].
  cbn [doc_ last_indent_ emplace_back] in Hd2, HL2.
  eexists. unfold back. rewrite Hd2, last_snoc. split; [done|].
  rewrite Hd2, Hd1. split; [done|].
  rewrite RemoveSpaces_pending; cbn [input_ emplace_back]; [by rewrite Hp|].
  destruct Hg as [Hg| ->]; [by left|right; by rewrite Hp].
Qed.

Lemma printed_number_is_lexed_back_witness :
  exists lx',
    GetNumberLexeme (reading "2" "026)") = Ok (token_type.Number 2026) lx'
    /\ doc_ lx' = [token_type.Number 2026]
    /\ pending (input_ lx') = [")"%char].
Proof.
  apply (printed_number_is_lexed_back 2026 (reading "2" "026)") ["2"%char]
           ["0"; "2"; "6"]%char [")"%char]);
    [unfold INT_MAX; lia|vm_compute; reflexivity|reflexivity|reflexivity].
Defined.

Lemma GetStringLexeme_loop_body body : forall fuel m lexeme lx cons tail,
  input_ lx = mk_istream cons (body ++ m :: tail) false false ->
  forallb (literal_char m) body = true ->
  m <> LF ->
  (length body < fuel)%nat ->
  let t := token_type.String (fold_left push_back body lexeme) in
  exists lx',
    GetStringLexeme_loop fuel m lexeme lx = Ok t lx'
    /\ doc_ lx' = doc_ lx ++ [t]
    /\ last_indent_ lx' = last_indent_ lx
    /\ pending (input_ lx') = skip_spaces tail.
Proof.
  induction body as [|b body IH]; intros [|fuel] m lexeme lx cons tail Hi Hb Hm Hf;
    try (simpl in Hf; lia); cbn [GetStringLexeme_loop].
  - rewrite (get_c_char lx m tail) by (by rewrite Hi). cbn [c_].
    rewrite Ascii.eqb_refl. cbn [negb].
    destruct (Ascii.eqb m LF) eqn:Hlf; [by apply Ascii.eqb_eq in Hlf|].
    cbn [fold_left].
    match goal with
    | |- context [RemoveSpaces ?l] =>
        destruct (RemoveSpaces_same l) as [Hd2 HL2];
        exists (RemoveSpaces l); unfold back;
        rewrite Hd2, HL2; cbn [doc_ last_indent_ emplace_back];
        rewrite last_snoc; repeat split;
        by rewrite RemoveSpaces_pending by (by left)
    end.
  - rewrite (get_c_char lx b (body ++ m :: tail)) by (by rewrite Hi).
    cbn [c_]. cbn in Hb. apply andb_true_iff in Hb as [Hb1 Hb].
    unfold literal_char in Hb1. apply andb_true_iff in Hb1 as [Hb1 Hb2].
    rewrite Hb1. apply negb_true_iff in Hb2. rewrite Hb2.
    match goal with
    | |- context [GetStringLexeme_loop fuel m _ ?l] =>
        destruct (IH fuel m (push_back lexeme b) l (b :: cons) tail)
          as (lx' & H1 & H2 & H3 & H4);
          [by rewrite Hi|done|done|simpl in Hf; lia|]
    end.
    exists lx'. by rewrite H1.
Qed.

(** X9: a literal whose characters up to the closing quote are neither
    that quote nor a backslash gives the [String] token of exactly
    these characters, the other kind of quote and line feeds included,
    and the spaces after the closing quote are skipped. *)
Theorem GetStringLexeme_reads_body lx cons body tail :
  input_ lx = mk_istream cons (body ++ c_ lx :: tail) false false ->
  forallb (literal_char (c_ lx)) body = true ->
  c_ lx <> LF ->
  let t := token_type.String (string_of_list_ascii body) in
  exists lx',
    GetStringLexeme lx = Ok t lx'
    /\ doc_ lx' = doc_ lx ++ [t]
    /\ last_indent_ lx' = last_indent_ lx
    /\ pending (input_ lx') = skip_spaces tail.
Proof.
  intros Hi Hb Hm t. unfold GetStringLexeme.
  destruct (GetStringLexeme_loop_body body (loop_bound lx) (c_ lx) "" lx
              cons tail Hi Hb Hm) as (lx' & H1 & H2 & H3 & H4).
  { unfold loop_bound. rewrite Hi. cbn. rewrite length_app. lia. }
  exists lx'. rewrite push_back_chars in H1, H2. by rewrite H1.
Qed.

Lemma GetStringLexeme_reads_body_witness :
  let body := ["a"%char; DQUOTE; LF; "b"%char] in
  let lx := reading QUOTE (string_of_list_ascii body +:+ "' x") in
  exists lx',
    GetStringLexeme lx = Ok (token_type.String (string_of_list_ascii body)) lx'
    /\ doc_ lx' = [token_type.String (string_of_list_ascii body)]
    /\ last_indent_ lx' = 0
    /\ pending (input_ lx') = ["x"%char].
Proof.
  intros body lx.
  apply (GetStringLexeme_reads_body lx [QUOTE] body [SPACE; "x"%char]);
    [reflexivity|reflexivity|discriminate].
Defined.

(** * Properties of the evaluator *)

Import runtime ast.

(** ** More fuel never changes a finished evaluation *)

Section Monotone.
Variables (E E' : Statement -> Closure -> State -> Result ObjectHolder).
Hypothesis HE : extends E E'.

Ltac exec_step :=
  match goal with
  | |- context [E ?s ?c ?st] =>
      let He := fresh "He" in
      destruct (E s c st) as [[[] ?] ?] eqn:He;
      try (rewrite (HE s c st) by (rewrite He; done); rewrite ?He);
      simpl; try done
  end.

Lemma bind_finished {A B} (r : Result A)
      (k : A -> Closure -> State -> Result B) :
  finished (bind r k).1.1 -> finished r.1.1.
Proof. by destruct r as [[[] ?] ?]. Qed.

Lemma Call_extends self cls method args st :
  finished (Call E self cls method args st).1 ->
  Call E' self cls method args st = Call E self cls method args st.
Proof.
  unfold Call. destruct (HasMethod _ _ _); [|done].
  destruct (GetMethod _ _) as [m|]; [|done].
  exec_step.
Qed.

Ltac call_step :=
  match goal with
  | |- context [Call E ?a ?c ?m ?args ?st] =>
      let Hc := fresh "Hc" in
      destruct (Call E a c m args st) as [[] ?] eqn:Hc;
      try (rewrite (Call_extends a c m args st) by (rewrite Hc; done);
           rewrite ?Hc);
      simpl; try done
  end.

Lemma Object_Print_extends d d' obj st :
  (d <= d')%nat ->
  finished (Object_Print E d obj st).1.1 ->
  Object_Print E' d' obj st = Object_Print E d obj st.
Proof.
  revert d' obj st. induction d as [|d IH]; intros [|d'] obj st Hd;
    try lia; destruct obj; simpl; try done;
    destruct (HasMethod _ _ _); try done.
  call_step. destruct a; [|done]. intros Hf. apply IH; [lia|done].
Qed.

Lemma Equal_extends lhs rhs st :
  finished (Equal E lhs rhs st).1 ->
  Equal E' lhs rhs st = Equal E lhs rhs st.
Proof.
  unfold Equal. destruct lhs as [[]|]; try done.
  destruct (HasMethod _ _ _); [|done]. call_step.
Qed.

Lemma Less_extends lhs rhs st :
  finished (Less E lhs rhs st).1 ->
  Less E' lhs rhs st = Less E lhs rhs st.
Proof.
  unfold Less. destruct lhs as [[]|]; try done.
  destruct (HasMethod _ _ _); [|done]. call_step.
Qed.

Lemma negate_finished r : finished (negate r).1 -> finished r.1.
Proof. by destruct r as [[] ?]. Qed.

Lemma Greater_extends lhs rhs st :
  finished (Greater E lhs rhs st).1 ->
  Greater E' lhs rhs st = Greater E lhs rhs st.
Proof.
  unfold Greater. intros Hf.
  destruct (Less E lhs rhs st) as [o st'] eqn:Hl.
  rewrite Less_extends; rewrite Hl; [|by destruct o as [[]| | | |]].
  destruct o as [[]| | | |]; try done.
  rewrite Equal_extends; [done|]. by apply negate_finished.
Qed.

Lemma compare_extends cmp lhs rhs st :
  finished (compare E cmp lhs rhs st).1 ->
  compare E' cmp lhs rhs st = compare E cmp lhs rhs st.
Proof.
  destruct cmp; simpl; unfold NotEqual, LessOrEqual, GreaterOrEqual;
    intros Hf; try apply negate_finished in Hf;
    rewrite ?Equal_extends, ?Less_extends, ?Greater_extends; done.
Qed.

Lemma Execute_args_extends args closure st :
  finished (Execute_args E args closure st).1.1 ->
  Execute_args E' args closure st = Execute_args E args closure st.
Proof.
  revert closure st. induction args as [|arg args IH]; intros closure st;
    simpl; [done|].
  exec_step. intros Hf. by rewrite IH by (eapply bind_finished, Hf).
Qed.

Lemma Compound_loop_extends args closure st :
  finished (Compound_loop E args closure st).1.1 ->
  Compound_loop E' args closure st = Compound_loop E args closure st.
Proof.
  revert closure st. induction args as [|arg args IH]; intros closure st;
    simpl; [done|].
  exec_step. apply IH.
Qed.

Section Depth.
Variables (d d' : nat).
Hypothesis Hd : (d <= d')%nat.

Ltac print_step :=
  match goal with
  | |- context [Object_Print E d ?obj ?st] =>
      let Hp := fresh "Hp" in
      destruct (Object_Print E d obj st) as [[[] ?] ?] eqn:Hp;
      try (rewrite (Object_Print_extends d d' obj st Hd)
             by (rewrite Hp; done);
           rewrite ?Hp);
      simpl; try done
  end.

Lemma Print_loop_extends args first obj closure st :
  finished (Print_loop d E args first obj closure st).1.1 ->
  Print_loop d' E' args first obj closure st
  = Print_loop d E args first obj closure st.
Proof.
  revert first obj closure st.
  induction args as [|arg args IH]; intros first obj closure st;
    simpl; [done|].
  exec_step. destruct a; [|apply IH]. print_step. apply IH.
Qed.

Lemma Execute_node_extends s closure st :
  finished (Execute_node d E s closure st).1.1 ->
  Execute_node d' E' s closure st = Execute_node d E s closure st.
Proof.
  destruct s; simpl; try done.
  - unfold Assignment_Execute. exec_step.
  - unfold FieldAssignment_Execute. exec_step.
  - apply Print_loop_extends.
  - unfold MethodCall_Execute. intros Hf.
    rewrite Execute_args_extends by (eapply bind_finished, Hf).
    revert Hf. destruct (Execute_args E _ _ _) as [[[] ?] ?]; simpl; try done.
    exec_step. destruct a0 as [[]|]; try done. unfold lift. call_step.
  - unfold NewInstance_Execute. destruct (HasMethod _ _ _); [|done].
    intros Hf.
    rewrite Execute_args_extends by (eapply bind_finished, Hf).
    revert Hf. destruct (Execute_args E _ _ _) as [[[] ?] ?]; simpl; try done.
    unfold lift. call_step.
  - unfold Stringify_Execute. exec_step. destruct a; [|done]. print_step.
  - unfold Add_Execute. exec_step. exec_step.
    destruct a as [[]|], a0 as [[]|]; try done;
      repeat (exec_step;
              repeat match goal with
                | |- context [match ?x with _ => _ end] =>
                    is_var x; destruct x; try done
                | |- context [if HasMethod ?a ?b ?c then _ else _] =>
                    destruct (HasMethod a b c); try done
                end); unfold lift; try call_step.
  - unfold Sub_Execute. exec_step. exec_step.
  - unfold Mult_Execute. exec_step. exec_step.
  - unfold Div_Execute. exec_step. exec_step.
  - unfold Or_Execute. exec_step. destruct (IsTrue _); [done|]. exec_step.
  - unfold And_Execute. exec_step. destruct (IsTrue _); [|done]. exec_step.
  - unfold Not_Execute. exec_step.
  - unfold Comparison_Execute.
    destruct (right_to_left_ st); exec_step; exec_step; unfold lift;
    match goal with
    | |- context [compare E ?c ?l ?r ?st] =>
        destruct (compare E c l r st) as [[] ?] eqn:Hc;
        try (rewrite (compare_extends c l r st) by (rewrite Hc; done);
             rewrite ?Hc);
        simpl; done
    end.
  - apply Compound_loop_extends.
  - unfold MethodBody_Execute. exec_step.
  - unfold Return_Execute. exec_step.
  - unfold IfElse_Execute. exec_step. destruct (IsTrue _).
    + intros Hf. by apply HE.
    + destruct else_body_; [|done]. intros Hf. by apply HE.
Qed.
End Depth.


End Monotone.

Lemma Execute_mono fuel fuel' s closure st :
  (fuel <= fuel')%nat ->
  finished (Execute fuel s closure st).1.1 ->
  Execute fuel' s closure st = Execute fuel s closure st.
Proof.
  revert fuel' s closure st.
  induction fuel as [|fuel IH]; intros [|fuel'] s closure st Hle;
    try done; try lia.
  simpl. apply Execute_node_extends; [|lia].
  intros s' c' st' Hf. apply IH; [lia|done].
Qed.

Lemma evaluates_at s closure st o closure' st' :
  evaluates s closure st o closure' st' ->
  exists fuel, forall fuel', (fuel <= fuel')%nat ->
    Execute fuel' s closure st = (o, closure', st').
Proof.
  intros (fuel & He & Hf). exists fuel. intros fuel' Hle.
  rewrite (Execute_mono fuel fuel') by (rewrite ?He; done). done.
Qed.

Lemma evaluates_deterministic s closure st o1 c1 st1 o2 c2 st2 :
  evaluates s closure st o1 c1 st1 ->
  evaluates s closure st o2 c2 st2 ->
  (o1, c1, st1) = (o2, c2, st2).
Proof.
  intros [n1 H1]%evaluates_at [n2 H2]%evaluates_at.
  rewrite <- (H1 (n1 `max` n2)%nat), <- (H2 (n1 `max` n2)%nat) by lia. done.
Qed.

(** ** Building evaluations of a node from those of its children *)

Lemma evaluates_intro fuel s closure st o closure' st' :
  Execute fuel s closure st = (o, closure', st') ->
  finished o ->
  evaluates s closure st o closure' st'.
Proof. intros He Hf. by exists fuel. Qed.

Lemma evaluates_finished s closure st o closure' st' :
  evaluates s closure st o closure' st' -> finished o.
Proof. by intros (? & ? & ?). Qed.

(** Two evaluations can be run with one and the same fuel. *)
Lemma evaluates_both s1 c1 st1 o1 c1' st1' s2 c2 st2 o2 c2' st2' :
  evaluates s1 c1 st1 o1 c1' st1' ->
  evaluates s2 c2 st2 o2 c2' st2' ->
  exists fuel,
    Execute fuel s1 c1 st1 = (o1, c1', st1')
    /\ Execute fuel s2 c2 st2 = (o2, c2', st2').
Proof.
  intros [n1 H1]%evaluates_at [n2 H2]%evaluates_at.
  exists (n1 `max` n2)%nat. split; [apply H1|apply H2]; lia.
Qed.

Lemma Or_true lhs rhs closure st l c1 st1 :
  evaluates lhs closure st (Normal l) c1 st1 ->
  IsTrue l = true ->
  evaluates (Or lhs rhs) closure st (Normal (Own (Bool true))) c1 st1.
Proof.
  intros (fuel & He & _) Hl. exists (S fuel). split; [|done].
  simpl. unfold Or_Execute. rewrite He. simpl. by rewrite Hl.
Qed.

Lemma And_false lhs rhs closure st l c1 st1 :
  evaluates lhs closure st (Normal l) c1 st1 ->
  IsTrue l = false ->
  evaluates (And lhs rhs) closure st (Normal (Own (Bool false))) c1 st1.
Proof.
  intros (fuel & He & _) Hl. exists (S fuel). split; [|done].
  simpl. unfold And_Execute. rewrite He. simpl. by rewrite Hl.
Qed.

Lemma Or_false lhs rhs closure st l c1 st1 r c2 st2 :
  evaluates lhs closure st (Normal l) c1 st1 ->
  IsTrue l = false ->
  evaluates rhs c1 st1 (Normal r) c2 st2 ->
  evaluates (Or lhs rhs) closure st
            (Normal (Own (Bool (IsTrue l || IsTrue r)))) c2 st2.
Proof.
  intros Hl Hf Hr. destruct (evaluates_both _ _ _ _ _ _ _ _ _ _ _ _ Hl Hr)
    as (fuel & El & Er).
  exists (S fuel). split; [|done]. simpl. unfold Or_Execute.
  rewrite El. simpl. rewrite Hf, Er. simpl. by destruct (IsTrue r).
Qed.

Lemma And_true lhs rhs closure st l c1 st1 r c2 st2 :
  evaluates lhs closure st (Normal l) c1 st1 ->
  IsTrue l = true ->
  evaluates rhs c1 st1 (Normal r) c2 st2 ->
  evaluates (And lhs rhs) closure st
            (Normal (Own (Bool (IsTrue l && IsTrue r)))) c2 st2.
Proof.
  intros Hl Hf Hr. destruct (evaluates_both _ _ _ _ _ _ _ _ _ _ _ _ Hl Hr)
    as (fuel & El & Er).
  exists (S fuel). split; [|done]. simpl. unfold And_Execute.
  rewrite El. simpl. rewrite Hf, Er. simpl. by destruct (IsTrue r).
Qed.

(** C1, as amended: [Or] and [And] evaluate the left operand first and
    the right operand only when the left one does not decide the result
    (left false for [Or], left true for [And]); each value is coerced
    with [IsTrue] and the result is a [Bool] holding the disjunction,
    resp. the conjunction.  When the left operand decides, the closure
    and the state are those the left operand left. *)
Theorem And_Or_short_circuit lhs rhs closure st l c1 st1 :
  evaluates lhs closure st (Normal l) c1 st1 ->
  (IsTrue l = true ->
   evaluates (Or lhs rhs) closure st (Normal (Own (Bool true))) c1 st1)
  /\ (IsTrue l = false ->
      evaluates (And lhs rhs) closure st (Normal (Own (Bool false))) c1 st1)
  /\ (forall r c2 st2,
        evaluates rhs c1 st1 (Normal r) c2 st2 ->
        (IsTrue l = false ->
         evaluates (Or lhs rhs) closure st
                   (Normal (Own (Bool (IsTrue l || IsTrue r)))) c2 st2)
        /\ (IsTrue l = true ->
            evaluates (And lhs rhs) closure st
                      (Normal (Own (Bool (IsTrue l && IsTrue r)))) c2 st2)).
Proof.
  intros Hl. repeat split; eauto using Or_true, And_false, Or_false, And_true.
Qed.

Lemma And_Or_short_circuit_witness :
  evaluates (BoolConst true) ∅ st0 (Normal (Own (Bool true))) ∅ st0
  /\ evaluates (Or (BoolConst true) say_x) ∅ st0
               (Normal (Own (Bool true))) ∅ st0.
Proof.
  assert (H : evaluates (BoolConst true) ∅ st0 (Normal (Own (Bool true))) ∅ st0)
    by (exists 1%nat; split; reflexivity).
  split; [exact H|].
  apply (And_Or_short_circuit (BoolConst true) say_x ∅ st0 _ ∅ st0 H).
  reflexivity.
Defined.

(** C1, as stated, fails: [print "x"] alone writes a line, yet as the
    right operand of [True or ...] and of [False and ...] it is not
    executed and nothing is written. *)
Lemma Or_And_skip_right_operand :
  evaluates say_x ∅ st0 (Normal (Own (String "x"))) ∅
            (mk_State ∅ (line "x") false)
  /\ evaluates (Or (BoolConst true) say_x) ∅ st0
               (Normal (Own (Bool true))) ∅ st0
  /\ evaluates (And (BoolConst false) say_x) ∅ st0
               (Normal (Own (Bool false))) ∅ st0.
Proof. repeat split; exists 3%nat; split; reflexivity. Qed.

(** ** Division *)

Lemma Div_numbers lhs rhs closure st a c1 st1 b c2 st2 :
  evaluates lhs closure st (Normal (Some (Number a))) c1 st1 ->
  evaluates rhs c1 st1 (Normal (Some (Number b))) c2 st2 ->
  finished (int_div a b) ->
  evaluates (Div lhs rhs) closure st (int_div a b) c2 st2.
Proof.
  intros Hl Hr Hf. destruct (evaluates_both _ _ _ _ _ _ _ _ _ _ _ _ Hl Hr)
    as (fuel & El & Er).
  exists (S fuel). split; [|done]. simpl. unfold Div_Execute.
  rewrite El. simpl. by rewrite Er.
Qed.

(** The quotient is the truncating one whenever it is defined. *)
Lemma int_div_quot a b :
  b <> 0 -> in_int (a ÷ b) = true -> int_div a b = Normal (Own (Number (a ÷ b))).
Proof.
  intros Hb Hq. unfold int_div, int_result.
  destruct (Z.eqb_spec b 0); [done|]. by rewrite Hq.
Qed.

(** C2, at the failing input [1 / 0]: [Div::Execute] throws nothing; it
    performs the [int] division by zero, whose behaviour is undefined.
    No zero test on the right-hand value precedes the division. *)
Theorem Div_by_zero_is_undefined closure st :
  evaluates (Div (NumericConst 1) (NumericConst 0)) closure st
            Undefined closure st.
Proof. exists 2%nat. split; reflexivity. Qed.

(** ** [return] and method bodies *)

Lemma Return_value stmt closure st v c1 st1 :
  evaluates stmt closure st (Normal v) c1 st1 ->
  evaluates (Return stmt) closure st (Returning v) c1 st1.
Proof.
  intros (fuel & He & _). exists (S fuel). split; [|done].
  simpl. unfold Return_Execute. by rewrite He.
Qed.

Lemma MethodBody_outcome body closure st o c1 st1 :
  evaluates body closure st o c1 st1 ->
  evaluates (MethodBody body) closure st
            match o with
            | Normal _ => Normal None
            | Returning obj => Normal obj
            | _ => o
            end c1 st1.
Proof.
  intros (fuel & He & Hf). exists (S fuel). simpl.
  unfold MethodBody_Execute. rewrite He. by destruct o.
Qed.

(** A [return] inside a compound statement ends it at once: the
    statements after it are not executed. *)
Lemma Compound_loop_returning E pre s post closure st c1 st1 v c2 st2 :
  Compound_loop E pre closure st = (Normal None, c1, st1) ->
  E s c1 st1 = (Returning v, c2, st2) ->
  Compound_loop E (pre ++ s :: post) closure st = (Returning v, c2, st2).
Proof.
  revert closure st. induction pre as [|p pre IH]; intros closure st; simpl.
  - intros [= -> ->] Hs. by rewrite Hs.
  - destruct (E p closure st) as [[[] ?] ?]; simpl; try done. apply IH.
Qed.

Lemma Compound_returning pre stmt post closure st c1 st1 v c2 st2 :
  evaluates (Compound pre) closure st (Normal None) c1 st1 ->
  evaluates stmt c1 st1 (Normal v) c2 st2 ->
  evaluates (Compound (pre ++ Return stmt :: post)) closure st
            (Returning v) c2 st2.
Proof.
  intros Hp Hs%Return_value.
  destruct (evaluates_both _ _ _ _ _ _ _ _ _ _ _ _ Hp Hs) as (fuel & Ep & Es).
  destruct fuel as [|fuel]; [done|].
  exists (S (S fuel)). split; [|done].
  change (Compound_loop (Execute (S fuel)) (pre ++ Return stmt :: post)
                        closure st = (Returning v, c2, st2)).
  apply Compound_loop_returning with c1 st1; [|done].
  assert (Hp' : Execute (S (S fuel)) (Compound pre) closure st
                = (Normal None, c1, st1)).
  { rewrite (Execute_mono (S fuel)); [done|lia|by rewrite Ep]. }
  exact Hp'.
Qed.

(** An exit from a statement of a block ends the block at once: the
    statements after it are not executed. *)
Lemma Compound_loop_exit E pre s post closure st c1 st1 o c2 st2 :
  Compound_loop E pre closure st = (Normal None, c1, st1) ->
  E s c1 st1 = (o, c2, st2) ->
  (forall a, o <> Normal a) ->
  Compound_loop E (pre ++ s :: post) closure st = (o, c2, st2).
Proof.
  revert closure st. induction pre as [|p pre IH]; intros closure st; simpl.
  - intros [= -> ->] Hs Ho. rewrite Hs. destruct o; try done.
    by destruct (Ho a).
  - destruct (E p closure st) as [[[] ?] ?]; simpl; try done. apply IH.
Qed.

Lemma Compound_exit pre s post closure st c1 st1 o c2 st2 :
  evaluates (Compound pre) closure st (Normal None) c1 st1 ->
  evaluates s c1 st1 o c2 st2 ->
  (forall a, o <> Normal a) ->
  evaluates (Compound (pre ++ s :: post)) closure st o c2 st2.
Proof.
  intros Hp Hs Ho. pose proof (evaluates_finished _ _ _ _ _ _ Hs) as Hf.
  destruct (evaluates_both _ _ _ _ _ _ _ _ _ _ _ _ Hp Hs) as (fuel & Ep & Es).
  destruct fuel as [|fuel]; [done|].
  exists (S (S fuel)). split; [|done].
  change (Compound_loop (Execute (S fuel)) (pre ++ s :: post) closure st
          = (o, c2, st2)).
  apply Compound_loop_exit with c1 st1; [|done|done].
  assert (Hp' : Execute (S (S fuel)) (Compound pre) closure st
                = (Normal None, c1, st1)).
  { rewrite (Execute_mono (S fuel)); [done|lia|by rewrite Ep]. }
  exact Hp'.
Qed.

(** A conditional ends as the branch it takes. *)
Lemma IfElse_branch condition if_body else_body closure st b c1 st1 o c2 st2 :
  evaluates condition closure st (Normal b) c1 st1 ->
  evaluates (if IsTrue b then if_body
             else match else_body with
                  | Some else_body => else_body
                  | None => None_
                  end) c1 st1 o c2 st2 ->
  evaluates (IfElse condition if_body else_body) closure st o c2 st2.
Proof.
  intros Hc Hb. pose proof (evaluates_finished _ _ _ _ _ _ Hb) as Hf.
  destruct (evaluates_both _ _ _ _ _ _ _ _ _ _ _ _ Hc Hb) as (fuel & Ec & Eb).
  exists (S fuel). split; [|done]. cbn [Execute Execute_node].
  unfold IfElse_Execute. rewrite Ec. cbn [bind].
  destruct (IsTrue b); [done|]. destruct else_body as [else_body|]; [done|].
  destruct fuel as [|fuel]; [by simplify_eq/=|]. by simplify_eq/=.
Qed.

(** An exit from the statement at the end of a path is an exit from
    the whole. *)
Lemma plug_exit p : forall s closure st c1 st1 o c2 st2,
  arrives p closure st c1 st1 ->
  evaluates s c1 st1 o c2 st2 ->
  (forall a, o <> Normal a) ->
  evaluates (plug p s) closure st o c2 st2.
Proof.
  induction p as [|pre inner IH post|condition inner IH else_body
                  |condition if_body inner IH];
    intros s closure st c1 st1 o c2 st2 Ha Hs Ho; cbn [plug arrives] in *.
  - by destruct Ha as [-> ->].
  - destruct Ha as (c & t & Hp & Ha).
    apply Compound_exit with c t; [done| |done]. by eapply IH.
  - destruct Ha as (b & c & t & Hc & Hb & Ha).
    apply IfElse_branch with b c t; [done|]. rewrite Hb. by eapply IH.
  - destruct Ha as (b & c & t & Hc & Hb & Ha).
    apply IfElse_branch with b c t; [done|]. rewrite Hb. by eapply IH.
Qed.

(** ** No node but [MethodBody] catches the exit of a [return] *)

Section Passing.

Variable v : ObjectHolder.
Variables E E' : Statement -> Closure -> State -> Result ObjectHolder.
Hypothesis HE : forall s closure st,
  E' s closure st = E s closure st \/ (E' s closure st).1.1 = Returning v.

Ltac pass_step :=
  match goal with
  | |- context [E' ?s ?c ?st] =>
      let H := fresh "H" in
      destruct (HE s c st) as [H|H];
      [ rewrite H; clear H; destruct (E s c st) as [[[] ?] ?];
        cbn [bind abrupt fst snd]; try (left; reflexivity)
      | right; destruct (E' s c st) as [[? ?] ?]; cbn [fst snd] in H;
        subst; reflexivity ]
  end.

Lemma Call_passes self cls method args st :
  Call E' self cls method args st = Call E self cls method args st
  \/ (Call E' self cls method args st).1 = Returning v.
Proof.
  unfold Call. destruct (HasMethod _ _ _); [|by left].
  destruct (GetMethod _ _); [|by left]. pass_step.
Qed.

Ltac call_pass :=
  match goal with
  | |- context [Call E' ?a ?b ?c ?d ?st] =>
      let H := fresh "H" in
      destruct (Call_passes a b c d st) as [H|H];
      [ rewrite H; clear H; destruct (Call E a b c d st) as [[] ?];
        cbn [lift bind abrupt fst snd]; try (left; reflexivity)
      | right; destruct (Call E' a b c d st) as [? ?]; cbn [fst snd] in H;
        subst; reflexivity ]
  end.

Lemma Object_Print_passes d : forall obj st,
  Object_Print E' d obj st = Object_Print E d obj st
  \/ (Object_Print E' d obj st).1.1 = Returning v.
Proof.
  induction d as [|d IH]; intros obj st; destruct obj; cbn;
    try (by left); destruct (HasMethod _ _ _); try (by left).
  call_pass. destruct a; [|by left]. apply IH.
Qed.

Lemma Equal_passes lhs rhs st :
  Equal E' lhs rhs st = Equal E lhs rhs st
  \/ (Equal E' lhs rhs st).1 = Returning v.
Proof.
  unfold Equal. destruct lhs as [[]|], rhs as [[]|]; try (by left);
    destruct (HasMethod _ _ _); try (by left); call_pass;
    by destruct a as [[]|]; left.
Qed.

Lemma Less_passes lhs rhs st :
  Less E' lhs rhs st = Less E lhs rhs st
  \/ (Less E' lhs rhs st).1 = Returning v.
Proof.
  unfold Less. destruct lhs as [[]|], rhs as [[]|]; try (by left);
    destruct (HasMethod _ _ _); try (by left); call_pass;
    by destruct a as [[]|]; left.
Qed.

Lemma negate_passes (r' r : Outcome bool * State) :
  r' = r \/ r'.1 = Returning v ->
  negate r' = negate r \/ (negate r').1 = Returning v.
Proof.
  intros [->|H]; [by left|]. right. destruct r' as [[] ?]; by simplify_eq/=.
Qed.

Lemma Greater_passes lhs rhs st :
  Greater E' lhs rhs st = Greater E lhs rhs st
  \/ (Greater E' lhs rhs st).1 = Returning v.
Proof.
  unfold Greater. destruct (Less_passes lhs rhs st) as [->|H].
  - destruct (Less E lhs rhs st) as [[[]| | | |] st1]; try (by left).
    apply negate_passes, Equal_passes.
  - right. destruct (Less E' lhs rhs st) as [[] ?]; by simplify_eq/=.
Qed.

Lemma compare_passes cmp lhs rhs st :
  compare E' cmp lhs rhs st = compare E cmp lhs rhs st
  \/ (compare E' cmp lhs rhs st).1 = Returning v.
Proof.
  destruct cmp; cbn [compare]; unfold NotEqual, LessOrEqual, GreaterOrEqual;
    auto using negate_passes, Equal_passes, Less_passes, Greater_passes.
Qed.

Lemma Execute_args_passes args : forall closure st,
  Execute_args E' args closure st = Execute_args E args closure st
  \/ (Execute_args E' args closure st).1.1 = Returning v.
Proof.
  induction args as [|arg args IH]; intros closure st; [by left|].
  cbn [Execute_args]. pass_step.
  match goal with
  | |- context [Execute_args E' args ?c ?s] =>
      destruct (IH c s) as [->|H];
      [by left
      |right; destruct (Execute_args E' args c s) as [[[] ?] ?];
       by simplify_eq/=]
  end.
Qed.

Lemma Compound_loop_passes args : forall closure st,
  Compound_loop E' args closure st = Compound_loop E args closure st
  \/ (Compound_loop E' args closure st).1.1 = Returning v.
Proof.
  induction args as [|arg args IH]; intros closure st; [by left|].
  cbn [Compound_loop]. pass_step. apply IH.
Qed.

Section Node.

Variable depth : nat.

Ltac print_pass :=
  match goal with
  | |- context [Object_Print E' depth ?o ?st] =>
      let H := fresh "H" in
      destruct (Object_Print_passes depth o st) as [H|H];
      [ rewrite H; clear H;
        destruct (Object_Print E depth o st) as [[[] ?] ?];
        cbn [bind abrupt fst snd]; try (left; reflexivity)
      | right; destruct (Object_Print E' depth o st) as [[? ?] ?];
        cbn [fst snd] in H; subst; reflexivity ]
  end.

Lemma Print_loop_passes args : forall first obj closure st,
  Print_loop depth E' args first obj closure st
  = Print_loop depth E args first obj closure st
  \/ (Print_loop depth E' args first obj closure st).1.1 = Returning v.
Proof.
  induction args as [|arg args IH]; intros first obj closure st; [by left|].
  cbn [Print_loop]. cbv zeta. pass_step.
  destruct a as [o|]; [|apply IH]. print_pass. apply IH.
Qed.

Ltac pass_auto :=
  repeat first
    [ left; reflexivity
    | match goal with
      | |- context [match ?a with Some _ => _ | None => _ end] =>
          is_var a; destruct a as [[]|]
      | |- context [if HasMethod ?a ?b ?c then _ else _] =>
          destruct (HasMethod a b c)
      | |- context [if IsTrue ?a then _ else _] => destruct (IsTrue a)
      | |- context [if right_to_left_ ?a then _ else _] =>
          destruct (right_to_left_ a)
      end
    | pass_step
    | call_pass
    | print_pass ].

(** Every node but [MethodBody] lets the exit of a [return] through:
    when the evaluation of a part is changed into such an exit, the
    node does not notice (it does not evaluate that part) or leaves by
    that very exit. *)
Lemma Execute_node_passes s closure st :
  (forall body, s <> MethodBody body) ->
  Execute_node depth E' s closure st = Execute_node depth E s closure st
  \/ (Execute_node depth E' s closure st).1.1 = Returning v.
Proof.
  intros Hs. destruct s; cbn [Execute_node]; try (by left).
  - unfold Assignment_Execute. pass_auto.
  - unfold FieldAssignment_Execute. pass_auto.
  - apply Print_loop_passes.
  - unfold MethodCall_Execute.
    destruct (Execute_args_passes args_ closure st) as [->|H];
      [|right; destruct (Execute_args E' args_ closure st) as [[[] ?] ?];
        by simplify_eq/=].
    destruct (Execute_args E args_ closure st) as [[[] ?] ?];
      cbn [bind abrupt]; pass_auto.
  - unfold NewInstance_Execute. destruct (HasMethod _ _ _); [|by left].
    destruct (Execute_args_passes args_ closure st) as [->|H];
      [|right; destruct (Execute_args E' args_ closure st) as [[[] ?] ?];
        by simplify_eq/=].
    destruct (Execute_args E args_ closure st) as [[[] ?] ?];
      cbn [bind abrupt]; pass_auto.
  - unfold Stringify_Execute. pass_auto.
  - unfold Add_Execute. pass_auto.
  - unfold Sub_Execute. pass_auto.
  - unfold Mult_Execute. pass_auto.
  - unfold Div_Execute. pass_auto.
  - unfold Or_Execute. pass_auto.
  - unfold And_Execute. pass_auto.
  - unfold Not_Execute. pass_auto.
  - unfold Comparison_Execute.
    destruct (right_to_left_ st); pass_step; pass_step; unfold lift;
    match goal with
    | |- context [compare E' ?c ?l ?r ?s] =>
        destruct (compare_passes c l r s) as [->|H];
        [by left
        |right; destruct (compare E' c l r s) as [[] ?]; by simplify_eq/=]
    end.
  - apply Compound_loop_passes.
  - by destruct (Hs s).
  - unfold Return_Execute. pass_auto.
  - unfold IfElse_Execute. pass_step.
    destruct (IsTrue _); [|destruct else_body_ as [e|]; [|by left]];
    match goal with
    | |- context [E' ?x ?c ?t] =>
        destruct (HE x c t) as [->|H]; [by left|by right]
    end.
Qed.

End Node.

End Passing.

(** C3: [Return::Execute] leaves by a non-local exit that carries the
    value of its statement.  The exit passes through whatever lies
    between the [return] and the [MethodBody] around it: through the
    blocks and the conditionals on the way, however deeply nested,
    whose remaining statements are not executed; and through every
    other kind of node, none of which catches it (a node whose part is
    made to leave by such an exit does not evaluate that part or leaves
    by that very exit).  [MethodBody::Execute] catches it and returns
    the value carried, so that it goes no further than the nearest
    one.  A body that ends without [return] gives the empty holder; a
    [runtime_error] raised in the body leaves [MethodBody::Execute]
    unchanged. *)
Theorem Return_reaches_MethodBody closure st :
  (forall stmt v c1 st1,
      evaluates stmt closure st (Normal v) c1 st1 ->
      evaluates (Return stmt) closure st (Returning v) c1 st1)
  /\ (forall body v c1 st1,
        evaluates body closure st (Returning v) c1 st1 ->
        evaluates (MethodBody body) closure st (Normal v) c1 st1)
  /\ (forall p stmt c1 st1 v c2 st2,
        arrives p closure st c1 st1 ->
        evaluates stmt c1 st1 (Normal v) c2 st2 ->
        evaluates (plug p (Return stmt)) closure st (Returning v) c2 st2
        /\ evaluates (MethodBody (plug p (Return stmt))) closure st
                     (Normal v) c2 st2)
  /\ (forall pre stmt post c1 st1 v c2 st2,
        evaluates (Compound pre) closure st (Normal None) c1 st1 ->
        evaluates stmt c1 st1 (Normal v) c2 st2 ->
        evaluates (MethodBody (Compound (pre ++ Return stmt :: post)))
                  closure st (Normal v) c2 st2)
  /\ (forall depth E E' s v,
        (forall body, s <> MethodBody body) ->
        (forall x c t,
            E' x c t = E x c t \/ (E' x c t).1.1 = Returning v) ->
        Execute_node depth E' s closure st = Execute_node depth E s closure st
        \/ (Execute_node depth E' s closure st).1.1 = Returning v)
  /\ (forall body v c1 st1,
        evaluates body closure st (Normal v) c1 st1 ->
        evaluates (MethodBody body) closure st (Normal None) c1 st1)
  /\ (forall body what c1 st1,
        evaluates body closure st (runtime_error what) c1 st1 ->
        evaluates (MethodBody body) closure st (runtime_error what) c1 st1).
Proof.
  repeat split.
  - intros * H. by apply Return_value.
  - intros * H. apply (MethodBody_outcome _ _ _ _ _ _ H).
  - eapply plug_exit; [done|by apply Return_value|done].
  - apply (MethodBody_outcome _ _ _ (Returning v)).
    eapply plug_exit; [done|by apply Return_value|done].
  - intros * Hp Hs.
    apply (MethodBody_outcome _ _ _ _ _ _
             (Compound_returning _ _ post _ _ _ _ _ _ _ Hp Hs)).
  - intros * Hs HE. by apply Execute_node_passes.
  - intros * H. apply (MethodBody_outcome _ _ _ _ _ _ H).
  - intros * H. apply (MethodBody_outcome _ _ _ _ _ _ H).
Qed.

Lemma Return_reaches_MethodBody_witness :
  arrives to_return_in_if ∅ st0 ∅ (write (line "a") st0)
  /\ evaluates (MethodBody return_in_if) ∅ st0 (Normal (Own (Number 7))) ∅
               (write (line "a") st0).
Proof.
  assert (Ha : arrives to_return_in_if ∅ st0 ∅ (write (line "a") st0)).
  { exists ∅, (write (line "a") st0).
    split; [exists 3%nat; split; reflexivity|].
    exists (Share (Bool true)), ∅, (write (line "a") st0).
    split; [exists 1%nat; split; reflexivity|]. split; [reflexivity|].
    exists ∅, (write (line "a") st0).
    split; [exists 1%nat; split; reflexivity|]. split; reflexivity. }
  split; [exact Ha|].
  destruct (Return_reaches_MethodBody ∅ st0) as (_ & _ & H & _).
  apply (H to_return_in_if (NumericConst 7) ∅ (write (line "a") st0)
           (Own (Number 7)) ∅ (write (line "a") st0) Ha).
  exists 1%nat. split; reflexivity.
Defined.

(** ** Dotted names *)

(** A name that is not in the table searched is a [runtime_error]. *)
Lemma VariableValue_loop_missing val rest (local_closer : Closure) found st :
  local_closer !! val = None ->
  exists what,
    VariableValue_loop (val :: rest) local_closer found st = runtime_error what.
Proof. intros Hm. simpl. rewrite Hm. by eexists. Qed.

(** After a name bound to an instance the search goes on in the fields
    of that instance. *)
Lemma VariableValue_loop_instance val rest (local_closer : Closure) found st
      self cls :
  local_closer !! val = Some (Some (ClassInstance self cls)) ->
  VariableValue_loop (val :: rest) local_closer found st
  = VariableValue_loop rest (Fields st self)
                       (Some (ClassInstance self cls)) st.
Proof. intros Hm. simpl. by rewrite Hm. Qed.

(** After a name bound to anything else the table searched stays the
    same: the next name is looked up next to the previous one. *)
Lemma VariableValue_loop_other val rest (local_closer : Closure) found st h :
  local_closer !! val = Some h ->
  (forall self cls, h <> Some (ClassInstance self cls)) ->
  VariableValue_loop (val :: rest) local_closer found st
  = VariableValue_loop rest local_closer h st.
Proof.
  intros Hm Hh. simpl. rewrite Hm.
  destruct h as [[]|]; try done. by destruct (Hh self cls_).
Qed.

(** C5, at the failing input [x.y] after [x = 1] and [y = 2]: the
    intermediate value [1] is not an instance, yet no [runtime_error] is
    thrown; [y] is found in the closure itself and its value returned. *)
Theorem VariableValue_through_number st :
  evaluates (VariableValue ["x"; "y"]) x1_y2 st
            (Normal (Own (Number 2))) x1_y2 st.
Proof.
  exists 1%nat. split; [|done].
  cbn [Execute Execute_node]. unfold VariableValue_Execute.
  rewrite (VariableValue_loop_other _ _ _ _ _ (Own (Number 1)));
    [|reflexivity|done].
  rewrite (VariableValue_loop_other _ _ _ _ _ (Own (Number 2)));
    [|reflexivity|done].
  done.
Qed.

(** ** Method lookup *)

Lemma GetMethod_all_methods :
  forall (c : Class) (name : string) (m : Method),
    GetMethod c name = Some m ->
    In m (all_methods c) /\ String.eqb (method_name m) name = true.
Proof.
  fix IH 1. intros [n ms p] name m. simpl.
  destruct (find_method name ms) as [m'|] eqn:Hf.
  - intros [= ->]. apply find_some in Hf as [Hin Hn].
    split; [apply in_or_app; by left|done].
  - destruct p as [parent|]; [|done].
    intros [Hin Hn]%IH. split; [apply in_or_app; by right|done].
Qed.

Lemma HasMethod_provides cls method argument_count :
  HasMethod cls method argument_count = true ->
  provides cls method argument_count = true.
Proof.
  unfold HasMethod, provides.
  destruct (GetMethod cls method) as [m|] eqn:Hg; [|done].
  apply GetMethod_all_methods in Hg as [Hin Hn]. intros Ha.
  apply existsb_exists. exists m. split; [done|]. by rewrite Hn, Ha.
Qed.

Lemma not_provides_HasMethod cls method argument_count :
  provides cls method argument_count = false ->
  HasMethod cls method argument_count = false.
Proof.
  intros Hp. destruct (HasMethod cls method argument_count) eqn:Hh; [|done].
  apply HasMethod_provides in Hh. congruence.
Qed.

(** ** Comparison of an instance that has [__lt__] but no [__eq__] *)

Lemma Equal_without_eq E self cls rhs st :
  HasMethod cls "__eq__" 1 = false ->
  exists what,
    Equal E (Some (ClassInstance self cls)) rhs st = (runtime_error what, st).
Proof. intros Hh. unfold Equal. rewrite Hh. by eexists. Qed.

(** C9: for [lhs] an instance whose class provides [__lt__] of one
    argument and no [__eq__] of one argument, and any [rhs]: when [Less]
    returns true, [Greater] returns false and throws nothing; when [Less]
    returns false, [Greater] goes on to [Equal], which has no case for
    this pair and throws a [runtime_error]. *)
Theorem Greater_without_eq self cls rhs st st' :
  provides cls "__lt__" 1 = true ->
  provides cls "__eq__" 1 = false ->
  let lhs := Some (ClassInstance self cls) in
  (compares CmpLess lhs rhs st (Normal true) st' ->
   compares CmpGreater lhs rhs st (Normal false) st')
  /\ (compares CmpLess lhs rhs st (Normal false) st' ->
      exists what, compares CmpGreater lhs rhs st (runtime_error what) st').
Proof.
  intros _ Heq%not_provides_HasMethod lhs. split.
  - intros (fuel & Hl & _). exists fuel. split; [|done].
    cbn [compare] in *. unfold Greater. by rewrite Hl.
  - intros (fuel & Hl & _).
    destruct (Equal_without_eq (Execute fuel) self cls rhs st' Heq)
      as [what Hw].
    exists what, fuel. split; [|done].
    cbn [compare] in *. unfold Greater. rewrite Hl.
    cbn [negate]. fold lhs in Hw. by rewrite Hw.
Qed.

Lemma Greater_without_eq_witness :
  (compares CmpLess (ordered true) (Own (Number 1)) st0 (Normal true) st0
   /\ compares CmpGreater (ordered true) (Own (Number 1)) st0
                (Normal false) st0)
  /\ (compares CmpLess (ordered false) (Own (Number 1)) st0 (Normal false) st0
      /\ exists what,
          compares CmpGreater (ordered false) (Own (Number 1)) st0
                   (runtime_error what) st0).
Proof.
  assert (Ht : compares CmpLess (ordered true) (Own (Number 1)) st0
                        (Normal true) st0)
    by (exists 3%nat; split; reflexivity).
  assert (Hf : compares CmpLess (ordered false) (Own (Number 1)) st0
                        (Normal false) st0)
    by (exists 3%nat; split; reflexivity).
  split; (split; [done|]).
  - apply (Greater_without_eq 0%nat (Ordered true) (Own (Number 1)) st0 st0);
      [reflexivity|reflexivity|exact Ht].
  - apply (Greater_without_eq 0%nat (Ordered false) (Own (Number 1)) st0 st0);
      [reflexivity|reflexivity|exact Hf].
Defined.

(** ** Instance creation *)




(** * Further properties of the evaluator *)

Import scope.

(** ** Method lookup and calls *)

Lemma find_method_app name ms1 ms2 :
  find_method name (ms1 ++ ms2)
  = match find_method name ms1 with
    | Some m => Some m
    | None => find_method name ms2
    end.
Proof.
  unfold find_method. induction ms1 as [|m ms1 IH]; [done|]. cbn.
  by destruct (String.eqb _ _).
Qed.

(** X15: [GetMethod] finds the first method of that name among the
    methods of the class followed by those of its ancestors: the
    nearest declaration wins. *)
Theorem GetMethod_nearest_first :
  forall (c : Class) (name : string),
    GetMethod c name = find_method name (all_methods c).
Proof.
  fix IH 1. intros [n ms p] name. cbn [GetMethod all_methods].
  rewrite find_method_app.
  destruct (find_method name ms); [done|].
  destruct p as [parent|]; [apply IH|done].
Qed.

Lemma bind_params_other ps : forall (as_ : list ObjectHolder) (c : Closure) x,
  ~ In x ps -> bind_params ps as_ c !! x = c !! x.
Proof.
  induction ps as [|p ps IH]; intros [|a as_] c x Hx; try done.
  cbn [bind_params]. rewrite IH by (intros ?; apply Hx; by right).
  apply lookup_insert_ne. intros ->. apply Hx. by left.
Qed.

Lemma bind_params_lookup ps : forall (as_ : list ObjectHolder) (c : Closure) i p a,
  NoDup ps ->
  ps !! i = Some p -> as_ !! i = Some a ->
  bind_params ps as_ c !! p = Some a.
Proof.
  induction ps as [|q ps IH]; intros [|b as_] c i p a Hn Hp Ha; try done.
  apply NoDup_cons in Hn as [Hq Hn]. cbn [bind_params].
  destruct i as [|i]; cbn in Hp, Ha.
  - injection Hp as ->. injection Ha as ->.
    rewrite bind_params_other by (by rewrite <- list_elem_of_In).
    apply lookup_insert_eq.
  - by apply (IH as_ _ i).
Qed.

(** X16: a call runs the body of the method found in a new closure that
    holds [self] and the formals bound positionally to the actuals, and
    nothing else; the closure is gone when the call returns. *)
Theorem Call_binds_arguments E self cls method actual_args st m :
  GetMethod cls method = Some m ->
  length (method_params m) = length actual_args ->
  NoDup (method_params m) ->
  ~ In "self" (method_params m) ->
  exists args : Closure,
    Call E self cls method actual_args st
    = ((E (method_body m) args st).1.1, (E (method_body m) args st).2)
    /\ args !! "self" = Some (Some (ClassInstance self cls))
    /\ (forall i p a, method_params m !! i = Some p ->
                      actual_args !! i = Some a -> args !! p = Some a)
    /\ (forall x, x <> "self" -> ~ In x (method_params m) -> args !! x = None).
Proof.
  intros Hg Hlen Hn Hs.
  exists (bind_params (method_params m) actual_args
            (<["self" := Share (ClassInstance self cls)]> ∅)).
  split; [|split; [|split]].
  - unfold Call, HasMethod. rewrite Hg, Hlen, Nat.eqb_refl.
    by destruct (E _ _ _) as [[o c] st'].
  - rewrite bind_params_other by done. apply lookup_insert_eq.
  - intros i p a Hp Ha. by apply (bind_params_lookup _ _ _ i).
  - intros x Hx Hin. rewrite bind_params_other by done.
    rewrite lookup_insert_ne by done. apply lookup_empty.
Qed.

Lemma Call_binds_arguments_witness :
  let m :=
    mk_Method "__lt__" ["other"] (MethodBody (Return (BoolConst true))) in
  let actual_args := [Own (Number 1)] in
  exists args : Closure,
    Call (Execute 3) 0 (Ordered true) "__lt__" actual_args st0
    = ((Execute 3 (method_body m) args st0).1.1,
       (Execute 3 (method_body m) args st0).2)
    /\ args !! "self" = Some (Some (ClassInstance 0 (Ordered true)))
    /\ (forall i p a, method_params m !! i = Some p ->
                      actual_args !! i = Some a -> args !! p = Some a)
    /\ (forall x, x <> "self" -> ~ In x (method_params m) -> args !! x = None).
Proof.
  intros m actual_args.
  apply (Call_binds_arguments (Execute 3) 0%nat (Ordered true) "__lt__"
           actual_args st0 m);
    [reflexivity|reflexivity|apply NoDup_singleton
    |intros [H|[]]; discriminate H].
Defined.

(** ** Comparisons of values that are no instances *)

(** X17: [Equal] is symmetric, errors included, and leaves the state
    alone. *)
Theorem Equal_symmetric E lhs rhs st :
  no_instance lhs = true -> no_instance rhs = true ->
  Equal E lhs rhs st = Equal E rhs lhs st /\ (Equal E lhs rhs st).2 = st.
Proof.
  intros Hl Hr. destruct lhs as [[]|], rhs as [[]|]; try done; cbn.
  - by rewrite Z.eqb_sym.
  - by rewrite String.eqb_sym.
  - by destruct value, value0.
Qed.

Lemma Equal_symmetric_witness :
  Equal (Execute 0) (Own (Number 1)) (Own (String "a")) st0
  = Equal (Execute 0) (Own (String "a")) (Own (Number 1)) st0
  /\ (Equal (Execute 0) (Own (Number 1)) (Own (String "a")) st0).2 = st0.
Proof. apply Equal_symmetric; reflexivity. Defined.

Lemma string_compare_refl a : String.compare a a = Eq.
Proof.
  pose proof (String.compare_antisym a a) as H.
  by destruct (String.compare a a).
Qed.

Lemma string_ltb_flip a b :
  negb (String.ltb a b) && negb (String.eqb a b) = String.ltb b a.
Proof.
  unfold String.ltb. destruct (String.eqb_spec a b) as [->|Hne].
  - by rewrite string_compare_refl.
  - rewrite (String.compare_antisym b a).
    destruct (String.compare a b) eqn:Hc; try done.
    by apply String.compare_eq_iff in Hc.
Qed.

(** X18: [Greater(lhs, rhs)] is [Less(rhs, lhs)], and [LessOrEqual(lhs,
    rhs)] its negation, errors included. *)
Theorem Greater_is_flipped_Less E lhs rhs st :
  no_instance lhs = true -> no_instance rhs = true ->
  Greater E lhs rhs st = Less E rhs lhs st
  /\ LessOrEqual E lhs rhs st = negate (Less E rhs lhs st).
Proof.
  intros Hl Hr.
  assert (H : Greater E lhs rhs st = Less E rhs lhs st).
  { destruct lhs as [[]|], rhs as [[]|]; try done; unfold Greater; cbn.
    - destruct (Z.ltb_spec value value0), (Z.ltb_spec value0 value),
        (Z.eqb_spec value value0); try done; lia.
    - pose proof (string_ltb_flip value value0) as H.
      destruct (String.ltb value value0), (String.eqb value value0);
        cbn in *; by rewrite <- H.
    - by destruct value, value0. }
  split; [done|]. unfold LessOrEqual. by rewrite H.
Qed.

Lemma Greater_is_flipped_Less_witness :
  Greater (Execute 0) (Own (Number 2)) (Own (Number 1)) st0
  = Less (Execute 0) (Own (Number 1)) (Own (Number 2)) st0
  /\ LessOrEqual (Execute 0) (Own (Number 2)) (Own (Number 1)) st0
     = negate (Less (Execute 0) (Own (Number 1)) (Own (Number 2)) st0).
Proof. apply Greater_is_flipped_Less; reflexivity. Defined.

Lemma string_compare_lt_trans a : forall b c,
  String.compare a b = Lt -> String.compare b c = Lt ->
  String.compare a c = Lt.
Proof.
  induction a as [|x a IH]; intros [|y b] [|z c]; try done. cbn.
  unfold Ascii.compare.
  destruct (N.compare_spec (N_of_ascii x) (N_of_ascii y)) as [Hxy|Hxy|Hxy];
    try done;
    destruct (N.compare_spec (N_of_ascii y) (N_of_ascii z)) as [Hyz|Hyz|Hyz];
    try done; intros H1 H2.
  - rewrite Hxy, Hyz, N.compare_refl. by apply (IH b c).
  - rewrite Hxy. by apply N.compare_lt_iff in Hyz as ->.
  - rewrite <- Hyz. by apply N.compare_lt_iff in Hxy as ->.
  - assert (N_of_ascii x < N_of_ascii z)%N as ->%N.compare_lt_iff by lia.
    done.
Qed.

(** X19: on numbers, strings and booleans [Less] is a strict order: never
    true of a value and itself, and transitive. *)
Theorem Less_strict_order E a b c st :
  no_instance a = true -> no_instance b = true ->
  Less E a a st <> (Normal true, st)
  /\ (Less E a b st = (Normal true, st) ->
      Less E b c st = (Normal true, st) ->
      Less E a c st = (Normal true, st)).
Proof.
  intros Ha Hb. split.
  - destruct a as [[]|]; try done; cbn; intros [= H].
    + lia.
    + unfold String.ltb in H. by rewrite string_compare_refl in H.
    + by destruct value.
  - destruct a as [[]|], b as [[]|]; try done; destruct c as [[]|];
      try done; cbn; intros [= H1] [= H2]; do 2 f_equal.
    + lia.
    + unfold String.ltb in *.
      destruct (String.compare value value0) eqn:C1; try done.
      destruct (String.compare value0 value1) eqn:C2; try done.
      by rewrite (string_compare_lt_trans _ _ _ C1 C2).
    + by destruct value, value0, value1.
Qed.

Lemma Less_strict_order_witness :
  Less (Execute 0) (Own (String "a")) (Own (String "a")) st0
  <> (Normal true, st0)
  /\ (Less (Execute 0) (Own (String "a")) (Own (String "b")) st0
      = (Normal true, st0) ->
      Less (Execute 0) (Own (String "b")) (Own (String "c")) st0
      = (Normal true, st0) ->
      Less (Execute 0) (Own (String "a")) (Own (String "c")) st0
      = (Normal true, st0)).
Proof. apply Less_strict_order; reflexivity. Defined.

(** ** What a statement leaves alone *)

Section ClosureFrame.

Variable depth : nat.
Variable E : Statement -> Closure -> State -> Result ObjectHolder.
Hypothesis HE : forall s closure st,
  assigns s = false -> (E s closure st).1.2 = closure.

Ltac frame_step :=
  match goal with
  | |- context [E ?s ?c ?st] =>
      let H := fresh "H" in
      let He := fresh "He" in
      assert (H := HE s c st ltac:(done));
      destruct (E s c st) as [[[] ?] ?] eqn:He; cbn in H; subst;
      cbn [bind abrupt fst snd]; try done
  end.

Ltac frame_auto :=
  repeat first
    [ done
    | frame_step
    | match goal with
      | |- context [match ?a with Some _ => _ | None => _ end] =>
          is_var a; destruct a as [[]|]
      | |- context [if HasMethod ?a ?b ?c then _ else _] =>
          destruct (HasMethod a b c)
      | |- context [Call E ?a ?b ?c ?d ?e] =>
          unfold lift; destruct (Call E a b c d e) as [[] ?]
      | |- context [int_result ?z] =>
          unfold int_result; destruct (in_int z)
      end ].

Lemma Execute_args_frame args closure st :
  existsb assigns args = false ->
  (Execute_args E args closure st).1.2 = closure.
Proof.
  revert closure st. induction args as [|arg args IH]; intros closure st;
    [done|]. cbn [existsb Execute_args]. intros [Ha Hr]%orb_false_iff.
  frame_step.
  match goal with
  | |- context [Execute_args E args closure ?s] =>
      specialize (IH closure s Hr);
      by destruct (Execute_args E args closure s) as [[[] ?] ?]
  end.
Qed.

Lemma Compound_loop_frame args closure st :
  existsb assigns args = false ->
  (Compound_loop E args closure st).1.2 = closure.
Proof.
  revert closure st. induction args as [|arg args IH]; intros closure st;
    [done|]. cbn [existsb Compound_loop]. intros [Ha Hr]%orb_false_iff.
  frame_step. by apply IH.
Qed.

Lemma Print_loop_frame args first obj closure st :
  existsb assigns args = false ->
  (Print_loop depth E args first obj closure st).1.2 = closure.
Proof.
  revert first obj closure st.
  induction args as [|arg args IH]; intros first obj closure st;
    [done|]. cbn [existsb Print_loop]. intros [Ha Hr]%orb_false_iff.
  frame_step. destruct a as [o|]; [|by apply IH].
  destruct (Object_Print _ _ _ _) as [[[] ?] ?]; try done. by apply IH.
Qed.

Lemma Execute_node_frame s closure st :
  assigns s = false ->
  (Execute_node depth E s closure st).1.2 = closure.
Proof.
  destruct s; cbn [assigns Execute_node]; try done; intros Ha;
    repeat match goal with
      | H : _ || _ = false |- _ => apply orb_false_iff in H as [? ?]
      end.
  - unfold VariableValue_Execute. by destruct dotted_ids_.
  - unfold FieldAssignment_Execute. frame_step.
    unfold VariableValue_Execute. destruct object_; [done|].
    cbn [bind]. destruct (VariableValue_loop _ _ _ _) as [[[]|]| | | |]; done.
  - by apply Print_loop_frame.
  - unfold MethodCall_Execute.
    pose proof (Execute_args_frame args_ closure st ltac:(done)) as Hargs.
    destruct (Execute_args E args_ closure st) as [[[] ?] ?]; cbn in Hargs;
      subst; cbn [bind abrupt]; try done.
    frame_step. by destruct a0 as [[]|].
  - unfold NewInstance_Execute. destruct (HasMethod _ _ _); [|done].
    pose proof (Execute_args_frame args_ closure st ltac:(done)) as Hargs.
    destruct (Execute_args E args_ closure st) as [[[] ?] ?]; cbn in Hargs;
      subst; cbn [bind abrupt]; try done.
    unfold lift. by destruct (Call _ _ _ _ _ _) as [[] ?].
  - unfold Stringify_Execute. frame_step. destruct a; [|done].
    by destruct (Object_Print _ _ _ _) as [[[] ?] ?].
  - unfold Add_Execute. frame_auto.
  - unfold Sub_Execute. frame_auto.
  - unfold Mult_Execute. frame_auto.
  - unfold Div_Execute. frame_auto.
  - unfold Or_Execute. frame_step. destruct (IsTrue a); [done|].
    frame_step. by destruct (IsTrue a0).
  - unfold And_Execute. frame_step. destruct (IsTrue a); [|done].
    frame_step. by destruct (IsTrue a0).
  - unfold Not_Execute. frame_step.
  - unfold Comparison_Execute.
    destruct (right_to_left_ st); frame_step; frame_step; unfold lift;
      by destruct (compare _ _ _ _ _) as [[] ?].
  - by apply Compound_loop_frame.
  - unfold MethodBody_Execute.
    pose proof (HE s closure st Ha) as H.
    by destruct (E s closure st) as [[[] ?] ?].
  - unfold Return_Execute. frame_step.
  - unfold IfElse_Execute. frame_step. destruct (IsTrue a); [by apply HE|].
    destruct else_body_; [by apply HE|done].
Qed.

End ClosureFrame.

(** X20: a statement without an [Assignment] or [ClassDefinition] node
    of its own leaves the closure as it was, whatever it calls and
    however it ends: the variables of the methods it runs live in
    closures of their own. *)
Lemma Execute_frame fuel : forall s closure st,
  assigns s = false -> (Execute fuel s closure st).1.2 = closure.
Proof.
  induction fuel as [|fuel IH]; intros s closure st Ha; [done|].
  by apply Execute_node_frame.
Qed.

Lemma Execute_frame_witness :
  (Execute 5
     (MethodCall (NewInstance 0 Point [NumericConst 1]) "__init__"
                 [NumericConst 2])
     x1_y2 st0).1.2 = x1_y2.
Proof. apply Execute_frame. reflexivity. Defined.

(** A relation between states that every write and every store into a
    field respects is respected by every evaluation. *)
Section StateRelation.

Variable R : State -> State -> Prop.
Hypothesis R_refl : forall st, R st st.
Hypothesis R_trans : forall st1 st2 st3, R st1 st2 -> R st2 st3 -> R st1 st3.
Hypothesis R_write : forall text st, R st (write text st).
Hypothesis R_set_field : forall self field v st,
  R st (set_field self field v st).

Section Node.

Variable depth : nat.
Variable E : Statement -> Closure -> State -> Result ObjectHolder.
Hypothesis HE : forall s closure st, R st (E s closure st).2.

Ltac rel_step :=
  match goal with
  | Hacc : R ?st0 ?st |- context [E ?s ?c ?st] =>
      let H := fresh "Hacc" in
      assert (H := R_trans _ _ _ Hacc (HE s c st));
      destruct (E s c st) as [[[] ?] ?]; cbn [snd fst] in H;
      cbn [bind abrupt fst snd]; clear Hacc; try done
  end.

Lemma Call_rel st0 self cls method args st :
  R st0 st -> R st0 (Call E self cls method args st).2.
Proof.
  intros Hacc. unfold Call. destruct (HasMethod _ _ _); [|done].
  destruct (GetMethod _ _); [|done]. rel_step.
Qed.

Ltac call_step :=
  match goal with
  | Hacc : R ?st0 ?st |- context [Call E ?a ?b ?c ?d ?st] =>
      let H := fresh "Hacc" in
      assert (H := Call_rel st0 a b c d st Hacc);
      destruct (Call E a b c d st) as [[] ?]; cbn [snd fst] in H;
      cbn [lift bind abrupt fst snd]; clear Hacc; try done
  end.

Lemma Object_Print_rel d : forall st0 obj st,
  R st0 st -> R st0 (Object_Print E d obj st).2.
Proof.
  induction d as [|d IH]; intros st0 obj st Hacc; destruct obj; cbn;
    try done; try (by destruct (String.eqb _ _));
    destruct (HasMethod _ _ _); try done.
  call_step. destruct a; [|done]. by apply IH.
Qed.

Lemma Equal_rel st0 lhs rhs st : R st0 st -> R st0 (Equal E lhs rhs st).2.
Proof.
  intros Hacc. unfold Equal. destruct lhs as [[]|], rhs as [[]|]; try done;
    destruct (HasMethod _ _ _); try done; call_step;
    by destruct a as [[]|].
Qed.

Lemma Less_rel st0 lhs rhs st : R st0 st -> R st0 (Less E lhs rhs st).2.
Proof.
  intros Hacc. unfold Less. destruct lhs as [[]|], rhs as [[]|]; try done;
    destruct (HasMethod _ _ _); try done; call_step;
    by destruct a as [[]|].
Qed.

Lemma negate_rel st0 r : R st0 r.2 -> R st0 (negate r).2.
Proof. by destruct r as [[] ?]. Qed.

Lemma Greater_rel st0 lhs rhs st : R st0 st -> R st0 (Greater E lhs rhs st).2.
Proof.
  intros Hacc. unfold Greater.
  pose proof (Less_rel st0 lhs rhs st Hacc) as Hl.
  destruct (Less E lhs rhs st) as [[[]| | | |] st1]; try done.
  by apply negate_rel, Equal_rel.
Qed.

Lemma compare_rel st0 cmp lhs rhs st :
  R st0 st -> R st0 (compare E cmp lhs rhs st).2.
Proof.
  intros Hacc. destruct cmp; cbn [compare];
    unfold NotEqual, LessOrEqual, GreaterOrEqual;
    auto using negate_rel, Equal_rel, Less_rel, Greater_rel.
Qed.

Lemma Execute_args_rel args : forall st0 closure st,
  R st0 st -> R st0 (Execute_args E args closure st).2.
Proof.
  induction args as [|arg args IH]; intros st0 closure st Hacc; [done|].
  cbn [Execute_args]. rel_step.
  match goal with
  | |- context [Execute_args E args ?c ?s] =>
      specialize (IH st0 c s Hacc0);
      by destruct (Execute_args E args c s) as [[[] ?] ?]
  end.
Qed.

Lemma Compound_loop_rel args : forall st0 closure st,
  R st0 st -> R st0 (Compound_loop E args closure st).2.
Proof.
  induction args as [|arg args IH]; intros st0 closure st Hacc; [done|].
  cbn [Compound_loop]. rel_step. by apply IH.
Qed.

Lemma Print_loop_rel args : forall st0 first obj closure st,
  R st0 st -> R st0 (Print_loop depth E args first obj closure st).2.
Proof.
  induction args as [|arg args IH]; intros st0 first obj closure st Hacc.
  { cbn. by eapply R_trans. }
  cbn [Print_loop].
  assert (Hacc' : R st0 (if first then st else write " " st))
    by (destruct first; [done|by eapply R_trans]).
  clear Hacc. revert Hacc'. generalize (if first then st else write " " st).
  intros st1 Hacc. rel_step.
  destruct a as [o|]; [|apply IH; by eapply R_trans].
  pose proof (Object_Print_rel depth st0 o _ Hacc0) as Hp.
  destruct (Object_Print E depth o _) as [[[] text] st2]; cbn [snd] in Hp;
    try (cbn; by eapply R_trans).
  apply IH. by eapply R_trans.
Qed.

Ltac rel_auto :=
  repeat first
    [ done
    | match goal with
      | |- context [match ?a with Some _ => _ | None => _ end] =>
          is_var a; destruct a as [[]|]
      | |- context [if HasMethod ?a ?b ?c then _ else _] =>
          destruct (HasMethod a b c)
      | |- context [if IsTrue ?a then _ else _] => destruct (IsTrue a)
      | |- context [int_result ?z] =>
          unfold int_result; destruct (in_int z)
      end
    | rel_step
    | call_step ].

Lemma Execute_node_rel s : forall st0 closure st,
  R st0 st -> R st0 (Execute_node depth E s closure st).2.
Proof.
  intros st0 closure st Hacc. destruct s; cbn [Execute_node]; try done.
  - unfold VariableValue_Execute. by destruct dotted_ids_.
  - unfold Assignment_Execute. rel_auto.
  - unfold FieldAssignment_Execute. rel_step.
    unfold VariableValue_Execute. destruct object_; [done|]. cbn [bind].
    destruct (VariableValue_loop _ _ _ _) as [[[]|]| | | |]; try done.
    cbn. by eapply R_trans.
  - by apply Print_loop_rel.
  - unfold MethodCall_Execute.
    pose proof (Execute_args_rel args_ st0 closure st Hacc) as Ha.
    destruct (Execute_args E args_ closure st) as [[[] ?] ?]; cbn [snd] in Ha;
      cbn [bind abrupt]; try done. clear Hacc. rel_auto.
  - unfold NewInstance_Execute. destruct (HasMethod _ _ _); [|done].
    pose proof (Execute_args_rel args_ st0 closure st Hacc) as Ha.
    destruct (Execute_args E args_ closure st) as [[[] ?] ?]; cbn [snd] in Ha;
      cbn [bind abrupt]; try done. clear Hacc. rel_auto.
  - unfold Stringify_Execute. rel_step. destruct a as [o|]; [|done].
    pose proof (Object_Print_rel depth st0 o _ Hacc0) as Hp.
    by destruct (Object_Print E depth o _) as [[[] text] st2].
  - unfold Add_Execute. rel_auto.
  - unfold Sub_Execute. rel_auto.
  - unfold Mult_Execute. rel_auto.
  - unfold Div_Execute. rel_auto.
  - unfold Or_Execute. rel_auto.
  - unfold And_Execute. rel_auto.
  - unfold Not_Execute. rel_auto.
  - unfold Comparison_Execute.
    destruct (right_to_left_ st); rel_step; rel_step; unfold lift;
    match goal with
    | |- context [compare E ?c ?l ?r ?s] =>
        pose proof (compare_rel st0 c l r s Hacc) as Hc;
        by destruct (compare E c l r s) as [[] ?]
    end.
  - by apply Compound_loop_rel.
  - unfold MethodBody_Execute.
    pose proof (R_trans _ _ _ Hacc (HE s closure st)) as H.
    by destruct (E s closure st) as [[[] ?] ?].
  - unfold Return_Execute. rel_auto.
  - unfold ClassDefinition_Execute. destruct cls_ as [[]|]; try done.
    by destruct (String.eqb _ _).
  - unfold IfElse_Execute. rel_step. destruct (IsTrue a).
    + by eapply R_trans.
    + destruct else_body_; [by eapply R_trans|done].
Qed.

End Node.

Lemma Execute_rel fuel : forall s closure st,
  R st (Execute fuel s closure st).2.
Proof.
  induction fuel as [|fuel IH]; intros s closure st; [by cbn|].
  by apply Execute_node_rel.
Qed.

End StateRelation.

Lemma IsTrue_Bool b : IsTrue (Own (Bool b)) = b.
Proof. done. Qed.

(** X23: de Morgan's laws hold of [not], [and] and [or] as programs: the
    two sides run the same operands in the same order, skip the same
    ones, and end alike, whatever the bound. *)
Lemma De_Morgan fuel a b closure st :
  Execute fuel (Not (Or a b)) closure st
  = Execute fuel (And (Not a) (Not b)) closure st
  /\ Execute fuel (Not (And a b)) closure st
     = Execute fuel (Or (Not a) (Not b)) closure st.
Proof.
  destruct fuel as [|[|fuel]]; [done|done|].
  do 2 (cbn [Execute Execute_node];
        unfold Not_Execute, Or_Execute, And_Execute).
  split.
  - destruct (Execute fuel a closure st) as [[[l| | | |] c1] st1];
      cbn [bind abrupt]; rewrite ?IsTrue_Bool; try done.
    destruct (IsTrue l); cbn [negb bind abrupt]; [done|].
    destruct (Execute fuel b c1 st1) as [[[r| | | |] c2] st2];
      cbn [bind abrupt]; rewrite ?IsTrue_Bool; try done.
    by destruct (IsTrue r).
  - destruct (Execute fuel a closure st) as [[[l| | | |] c1] st1];
      cbn [bind abrupt]; rewrite ?IsTrue_Bool; try done.
    destruct (IsTrue l); cbn [negb bind abrupt]; [|done].
    destruct (Execute fuel b c1 st1) as [[[r| | | |] c2] st2];
      cbn [bind abrupt]; rewrite ?IsTrue_Bool; try done.
    by destruct (IsTrue r).
Qed.

Lemma evaluates_S s closure st o closure' st' :
  evaluates s closure st o closure' st' ->
  exists fuel, Execute (S fuel) s closure st = (o, closure', st').
Proof.
  intros (fuel & He & Hf). destruct fuel as [|fuel]; [|by exists fuel].
  cbn in He. by simplify_eq.
Qed.

Lemma bind_Normal {A B} (r : Result A)
      (k : A -> Closure -> State -> Result B) b c st :
  bind r k = (Normal b, c, st) ->
  exists a c1 st1, r = (Normal a, c1, st1) /\ k a c1 st1 = (Normal b, c, st).
Proof.
  destruct r as [[[a| | | |] c1] st1]; cbn; try done. by exists a, c1, st1.
Qed.

Lemma VariableValue_loop_nil (local_closer : Closure) found st :
  VariableValue_loop [] local_closer found st = Normal found.
Proof. done. Qed.

Lemma VariableValue_loop_last val (local_closer : Closure) found st h :
  local_closer !! val = Some h ->
  VariableValue_loop [val] local_closer found st = Normal h.
Proof.
  intros Hl. cbn [VariableValue_loop]. rewrite Hl. by destruct h as [[]|].
Qed.

(** X25: a name is read back as the value it was assigned. *)
Lemma Assignment_then_VariableValue var rv closure st v closure' st' :
  evaluates (Assignment var rv) closure st (Normal v) closure' st' ->
  evaluates (VariableValue [var]) closure' st' (Normal v) closure' st'.
Proof.
  intros [fuel He]%evaluates_S. cbn [Execute Execute_node] in He.
  unfold Assignment_Execute in He.
  apply bind_Normal in He as (a & c1 & st1 & _ & He). simplify_eq.
  exists 1%nat. split; [|done]. cbn [Execute Execute_node].
  unfold VariableValue_Execute.
  by rewrite (VariableValue_loop_last var _ _ _ v) by apply lookup_insert_eq.
Qed.

Lemma Assignment_then_VariableValue_witness :
  evaluates (VariableValue ["z"]) (<["z" := Share (Number 5)]> x1_y2) st0
            (Normal (Share (Number 5))) (<["z" := Share (Number 5)]> x1_y2)
            st0.
Proof.
  apply (Assignment_then_VariableValue "z" (NumericConst 5) x1_y2 st0).
  exists 2%nat. split; reflexivity.
Defined.

(** X26: a field is read back through the same name as the value it was
    assigned. *)
Lemma FieldAssignment_then_VariableValue object field rv closure st v
      closure' st' :
  evaluates (FieldAssignment [object] field rv) closure st (Normal v)
            closure' st' ->
  evaluates (VariableValue [object; field]) closure' st' (Normal v)
            closure' st'.
Proof.
  intros [fuel He]%evaluates_S. cbn [Execute Execute_node] in He.
  unfold FieldAssignment_Execute in He.
  apply bind_Normal in He as (a & c1 & st1 & _ & He).
  unfold VariableValue_Execute in He. cbn [bind VariableValue_loop] in He.
  destruct (c1 !! object) as [h|] eqn:Hl; [|done].
  assert (exists self cls, h = Some (ClassInstance self cls)
            /\ v = a /\ closure' = c1 /\ st' = set_field self field a st1)
    as (self & cls & -> & -> & -> & ->).
  { destruct h as [[]|]; cbn in He; try done. simplify_eq. by eexists _, _. }
  exists 1%nat. split; [|done]. cbn [Execute Execute_node].
  unfold VariableValue_Execute.
  rewrite (VariableValue_loop_instance _ _ _ _ _ self cls) by done.
  rewrite (VariableValue_loop_last field _ _ _ a); [done|].
  unfold Fields, set_field. cbn. rewrite lookup_insert_eq. cbn.
  apply lookup_insert_eq.
Qed.

Lemma FieldAssignment_then_VariableValue_witness :
  let closure : Closure := <["p" := Share (ClassInstance 0 Point)]> ∅ in
  let st := set_field 0 "x" (Share (Number 5)) st0 in
  evaluates (VariableValue ["p"; "x"]) closure st
            (Normal (Share (Number 5))) closure st.
Proof.
  intros closure st.
  apply (FieldAssignment_then_VariableValue "p" "x" (NumericConst 5)
           closure st0).
  exists 2%nat. split; [|reflexivity]. vm_compute. reflexivity.
Defined.

Lemma Compound_loop_app E xs ys closure st :
  Compound_loop E (xs ++ ys) closure st
  = bind (Compound_loop E xs closure st)
         (fun _ closure st => Compound_loop E ys closure st).
Proof.
  revert closure st. induction xs as [|x xs IH]; intros closure st; [done|].
  cbn [app Compound_loop].
  destruct (E x closure st) as [[[] c1] st1]; cbn [bind abrupt]; try done.
Qed.

(** X27: a block split in two runs as the first part followed by the
    second. *)
Lemma Compound_app xs ys closure st v c1 st1 o c2 st2 :
  evaluates (Compound xs) closure st (Normal v) c1 st1 ->
  evaluates (Compound ys) c1 st1 o c2 st2 ->
  evaluates (Compound (xs ++ ys)) closure st o c2 st2.
Proof.
  intros Hx Hy. pose proof (evaluates_finished _ _ _ _ _ _ Hy) as Hf.
  destruct (evaluates_both _ _ _ _ _ _ _ _ _ _ _ _ Hx Hy) as (fuel & Ex & Ey).
  destruct fuel as [|fuel]; [done|].
  exists (S fuel). split; [|done].
  cbn [Execute Execute_node] in *. unfold Compound_Execute in *.
  by rewrite Compound_loop_app, Ex.
Qed.

Lemma Compound_app_witness :
  evaluates (Compound ([say_x] ++ [Return (NumericConst 7); say_x]))
            x1_y2 st0 (Returning (Share (Number 7))) x1_y2
            (write (line "x") st0).
Proof.
  apply (Compound_app [say_x] [Return (NumericConst 7); say_x] x1_y2 st0
           None x1_y2 (write (line "x") st0)).
  - exists 3%nat. split; reflexivity.
  - exists 3%nat. split; reflexivity.
Defined.

(** X28: an operand that is not a number makes [-], [*] and [/] throw. *)
Lemma arithmetic_on_other_than_numbers lhs rhs closure st a c1 st1 b c2 st2 :
  evaluates lhs closure st (Normal a) c1 st1 ->
  evaluates rhs c1 st1 (Normal b) c2 st2 ->
  is_number a && is_number b = false ->
  evaluates (Sub lhs rhs) closure st
            (runtime_error "Execute(): SUB --runtime_error") c2 st2
  /\ evaluates (Mult lhs rhs) closure st
               (runtime_error "Execute(): MULT --runtime_error") c2 st2
  /\ evaluates (Div lhs rhs) closure st
               (runtime_error "Execute(): DIV --runtime_error") c2 st2.
Proof.
  intros Hl Hr Hn.
  destruct (evaluates_both _ _ _ _ _ _ _ _ _ _ _ _ Hl Hr) as (fuel & El & Er).
  repeat split; exists (S fuel); (split; [|done]);
    cbn [Execute Execute_node];
    unfold Sub_Execute, Mult_Execute, Div_Execute;
    rewrite El; cbn [bind]; rewrite Er; cbn [bind];
    by destruct a as [[]|], b as [[]|].
Qed.

Lemma arithmetic_on_other_than_numbers_witness :
  evaluates (Sub (NumericConst 1) (StringConst "a")) x1_y2 st0
            (runtime_error "Execute(): SUB --runtime_error") x1_y2 st0
  /\ evaluates (Mult (NumericConst 1) (StringConst "a")) x1_y2 st0
               (runtime_error "Execute(): MULT --runtime_error") x1_y2 st0
  /\ evaluates (Div (NumericConst 1) (StringConst "a")) x1_y2 st0
               (runtime_error "Execute(): DIV --runtime_error") x1_y2 st0.
Proof.
  apply (arithmetic_on_other_than_numbers (NumericConst 1) (StringConst "a")
           x1_y2 st0 (Share (Number 1)) x1_y2 st0 (Share (String "a")));
    [exists 1%nat; split; reflexivity|exists 1%nat; split; reflexivity
    |reflexivity].
Defined.

(** X29: [print] of one argument writes the text [str] gives for it,
    followed by a line feed. *)
Lemma Print_writes_Stringify arg closure st text closure' st' :
  evaluates (Stringify arg) closure st (Normal (Own (String text)))
            closure' st' ->
  exists v,
    evaluates (Print [arg]) closure st (Normal v) closure'
              (write (String.String LF "") (write text st')).
Proof.
  intros [fuel He]%evaluates_S. cbn [Execute Execute_node] in He.
  unfold Stringify_Execute in He.
  apply bind_Normal in He as (a & c1 & st1 & Ea & He).
  exists a, (S fuel). split; [|done]. cbn [Execute Execute_node].
  unfold Print_Execute. cbn [Print_loop]. rewrite Ea. cbn [bind].
  destruct a as [obj|]; [|by simplify_eq].
  destruct (Object_Print (Execute fuel) fuel obj st1) as [[[] t] st2];
    cbn in He; try done. by simplify_eq.
Qed.

Lemma Print_writes_Stringify_witness :
  exists v,
    evaluates (Print [NumericConst 42]) x1_y2 st0 (Normal v) x1_y2
              (write (String.String LF "") (write "42" st0)).
Proof.
  apply (Print_writes_Stringify (NumericConst 42) x1_y2 st0 "42" x1_y2 st0).
  exists 2%nat. split; [|reflexivity]. vm_compute. reflexivity.
Defined.

(** X30: [NewInstance] gives the instance the node holds, whatever
    [__init__] does. *)
Lemma NewInstance_gives_its_instance self cls args closure st v closure' st' :
  evaluates (NewInstance self cls args) closure st (Normal v) closure' st' ->
  v = Share (ClassInstance self cls).
Proof.
  intros [fuel He]%evaluates_S. cbn [Execute Execute_node] in He.
  unfold NewInstance_Execute in He.
  destruct (HasMethod _ _ _); [|by simplify_eq].
  apply bind_Normal in He as (a & c1 & st1 & _ & He).
  apply bind_Normal in He as (a' & c1' & st1' & _ & He). by simplify_eq.
Qed.

Lemma NewInstance_gives_its_instance_witness :
  evaluates (NewInstance 0 Point [NumericConst 5]) x1_y2 st0
            (Normal (Share (ClassInstance 0 Point))) x1_y2
            (set_field 0 "x" (Share (Number 5)) st0)
  /\ Share (ClassInstance 0 Point) = Share (ClassInstance 0 Point).
Proof.
  assert (H : evaluates (NewInstance 0 Point [NumericConst 5]) x1_y2 st0
                (Normal (Share (ClassInstance 0 Point))) x1_y2
                (set_field 0 "x" (Share (Number 5)) st0)).
  { exists 5%nat. split; [|reflexivity]. vm_compute. reflexivity. }
  split; [exact H|].
  exact (NewInstance_gives_its_instance 0%nat Point [NumericConst 5] x1_y2
           st0 _ x1_y2 _ H).
Defined.

(** X24: a negated condition exchanges the two branches. *)
Lemma IfElse_Not cond a b closure st o closure' st' :
  evaluates (IfElse (Not cond) a (Some b)) closure st o closure' st'
  <-> evaluates (IfElse cond b (Some a)) closure st o closure' st'.
Proof.
  split.
  - intros (fuel & He & Hf). destruct fuel as [|[|fuel]];
      [by cbn in He; simplify_eq; done| |].
    { cbn in He. by simplify_eq. }
    exists (S (S fuel)). split; [|done]. rewrite <- He.
    cbn [Execute Execute_node] in *. unfold IfElse_Execute in *.
    cbn [Execute Execute_node] in *. unfold Not_Execute in *.
    destruct (Execute fuel cond closure st) as [[oc c1] st1] eqn:Ec.
    assert (finished oc) as Hc.
    { destruct oc; try done. cbn in He. by simplify_eq. }
    change (Execute_node fuel (Execute fuel) cond closure st)
      with (Execute (S fuel) cond closure st).
    rewrite (Execute_mono fuel (S fuel)) by (rewrite ?Ec; done || lia).
    rewrite Ec. destruct oc; cbn [bind abrupt]; try done.
    rewrite IsTrue_Bool. by destruct (IsTrue a0).
  - intros (fuel & He & Hf). destruct fuel as [|fuel];
      [by cbn in He; simplify_eq; done|].
    exists (S (S fuel)). split; [|done]. rewrite <- He.
    cbn [Execute Execute_node] in *. unfold IfElse_Execute in *.
    cbn [Execute Execute_node] in *. unfold Not_Execute in *.
    destruct (Execute fuel cond closure st) as [[oc c1] st1] eqn:Ec.
    destruct oc; cbn [bind abrupt] in *; try done.
    rewrite IsTrue_Bool.
    change (Execute_node fuel (Execute fuel) ?s ?c ?t)
      with (Execute (S fuel) s c t).
    destruct (IsTrue a0); cbn [negb];
      apply Execute_mono; try lia; by rewrite He.
Qed.

Lemma IfElse_Not_witness :
  evaluates (IfElse (BoolConst true) (NumericConst 1) (Some (NumericConst 2)))
            x1_y2 st0 (Normal (Share (Number 1))) x1_y2 st0.
Proof.
  apply (IfElse_Not (BoolConst true) (NumericConst 2) (NumericConst 1)).
  exists 3%nat. split; reflexivity.
Defined.

(** X21: what was written stays written: an evaluation only appends to the
    output. *)
Lemma Execute_appends_output fuel s closure st :
  output_extends st (Execute fuel s closure st).2.
Proof.
  apply Execute_rel.
  - intros st1. exists "". by rewrite append_empty_r.
  - intros st1 st2 st3 [t1 H1] [t2 H2]. exists (t1 +:+ t2).
    by rewrite H2, H1, append_assoc.
  - intros text st1. by exists text.
  - intros self field v st1. exists "". cbn. by rewrite append_empty_r.
Qed.

(** X22: no evaluation removes a field of an instance. *)
Lemma Execute_keeps_fields fuel s closure st :
  fields_kept st (Execute fuel s closure st).2.
Proof.
  apply Execute_rel.
  - by intros st1 self field.
  - intros st1 st2 st3 H1 H2 self field H. by apply H2, H1.
  - by intros text st1 self field.
  - intros self field v st1 self' field' H. unfold Fields, set_field in *.
    cbn. destruct (decide (self = self')) as [->|Hne].
    + rewrite lookup_insert_eq. cbn.
      destruct (decide (field = field')) as [->|Hf].
      * by rewrite lookup_insert_eq.
      * by rewrite lookup_insert_ne.
    + by rewrite lookup_insert_ne.
Qed.
